(** * podcastman: segmentation, sequencing and pipeline control

    A shallow embedding of the deterministic core of the repository:
    - [agents/graph.py] and the four agents it drives (module [Graph])
    - [models/data.py]            (module [Data])
    - [audio/assembler.py]        (module [Assembler])
    - [ingestion/chunker.py]      (module [Chunker])
    - [tts/dialogue_parser.py]    (module [DialogueParser])
    - [api/routes.py], the test on the script of a run (module [Routes])
    - [tts/voice_config.py]       (module [VoiceConfig])
    - [tts/engine.py]             (module [Engine])
    - [audio/postprocess.py]      (module [Postprocess])
    - [ingestion/parser.py], the fallback sentence splitter
      (module [Parser])

    Python [str] values are modelled as [list ascii]; a character is a code
    point below 256 (Latin-1), classified as Python classifies it
    ([str.isspace], and the regular-expression classes [\s] and [\w] on
    [str] patterns).  The regular expressions of the sources are written
    out as scanning functions: each repetition in them runs over one
    character class and is followed by a character outside of it, so it
    takes a whole run or the match fails, and there is no backtracking to
    model.  External collaborators (the tokenizer, the
    language model, the audio library, the speech model and the file
    system) are parameters of the development.  The functions of
    [tts/engine.py] read and write the globals of their module and raise:
    they are computations in a state and error monad.  The two [while]
    loops of [_trim_silence] take fuel.
    Informational logging has no influence on any result and is left out;
    the warning of [parse_dialogue] is kept as an output.

    The definitions come first; the modules [PyStrFacts], [GraphSpec],
    [AssemblerSpec], [ChunkerSpec], [DialogueParserSpec], [EngineSpec],
    [PostprocessSpec], [RoutesSpec] and [ParserSpec] hold the proofs. *)

From Stdlib Require Import ZArith NArith Ascii String List Bool Lia.
From Stdlib Require Import DecimalString DecimalNat.
From stdpp Require Import base option list gmap strings.

Local Open Scope Z_scope.

(** ** Python strings *)

Module PyStr.

Abbreviation str := (list ascii).

Definition chars (s : string) : str := list_ascii_of_string s.

Definition code (c : ascii) : N := N_of_ascii c.

Definition in_range (lo hi : N) (c : ascii) : bool :=
  ((lo <=? code c) && (code c <=? hi))%N.

(** [str.isspace], which is also the class [\s] of [re] on [str]. *)
Definition is_space (c : ascii) : bool :=
  in_range 9 13 c || in_range 28 32 c
  || (code c =? 133)%N || (code c =? 160)%N.

(** The class [\w] of [re] on [str]: alphanumeric or underscore. *)
Definition is_word (c : ascii) : bool :=
  in_range 48 57 c || in_range 65 90 c || (code c =? 95)%N
  || in_range 97 122 c || (code c =? 170)%N || in_range 178 179 c
  || (code c =? 181)%N || in_range 185 186 c || in_range 188 190 c
  || in_range 192 214 c || in_range 216 246 c || in_range 248 255 c.

Definition nl : ascii := "010"%char.
Definition sp : ascii := " "%char.
Definition star : ascii := "*"%char.
Definition colon : ascii := ":"%char.
Definition lbracket : ascii := "["%char.
Definition rbracket : ascii := "]"%char.

Definition ch_eqb (a b : ascii) : bool := Ascii.eqb a b.

(** Truth value of a string: non-empty. *)
Definition truthy (s : str) : bool :=
  match s with [] => false | _ :: _ => true end.

Fixpoint drop_while (p : ascii -> bool) (s : str) : str :=
  match s with
  | [] => []
  | c :: rest => if p c then drop_while p rest else s
  end.

(** Longest prefix whose characters satisfy [p], and the rest. *)
Fixpoint span (p : ascii -> bool) (s : str) : str * str :=
  match s with
  | [] => ([], [])
  | c :: rest =>
      if p c then let '(a, b) := span p rest in (c :: a, b) else ([], s)
  end.

(** [s.lstrip()] *)
Definition lstrip (s : str) : str := drop_while is_space s.

(** [s.rstrip()]: the string without its trailing whitespace. *)
Fixpoint rstrip (s : str) : str :=
  match s with
  | [] => []
  | c :: rest =>
      match rstrip rest with
      | [] => if is_space c then [] else [c]
      | r => c :: r
      end
  end.

(** [s.strip()] *)
Definition strip (s : str) : str := rstrip (lstrip s).

(** A string that is not empty and has no whitespace at either end. *)
Definition tight (s : str) : Prop :=
  lstrip s = s /\ rstrip s = s /\ s <> [].

(** The head of [b], if any, stops [p]. *)
Definition stops (p : ascii -> bool) (b : str) : Prop :=
  match b with
  | [] => True
  | c :: _ => p c = false
  end.

(** Some character of the string is not whitespace. *)
Definition has_ink (s : str) : bool :=
  existsb (fun c => negb (is_space c)) s.

(** [s.lstrip("*")] *)
Definition lstrip_star (s : str) : str := drop_while (ch_eqb star) s.

(** [sep.join(l)] *)
Fixpoint join (sep : str) (l : list str) : str :=
  match l with
  | [] => []
  | x :: rest =>
      match rest with
      | [] => x
      | _ :: _ => x ++ sep ++ join sep rest
      end
  end.

(** Puts a character in front of the first string of a list of pieces. *)
Definition cons_head (c : ascii) (l : list str) : list str :=
  match l with
  | [] => [[c]]
  | x :: rest => (c :: x) :: rest
  end.

(** [s.split("\n\n")]: the pieces between successive, non-overlapping
    occurrences of two newlines, scanning from the left. *)
Fixpoint split_blank (s : str) : list str :=
  match s with
  | [] => [[]]
  | c :: rest =>
      match rest with
      | d :: rest' =>
          if ch_eqb c nl && ch_eqb d nl then [] :: split_blank rest'
          else cons_head c (split_blank rest)
      | [] => [[c]]
      end
  end.

(** [s.split()]: the maximal runs of non-whitespace characters; [cur] is
    the word read so far. *)
Fixpoint words_acc (cur : str) (s : str) : list str :=
  match s with
  | [] => if truthy cur then [cur] else []
  | c :: rest =>
      if is_space c
      then (if truthy cur then cur :: words_acc [] rest else words_acc [] rest)
      else words_acc (cur ++ [c]) rest
  end.

Definition words (s : str) : list str := words_acc [] s.

(** [l[start:]] for a Python list and any integer [start]. *)
Definition slice_from {A : Type} (start : Z) (l : list A) : list A :=
  if start <? 0
  then drop (Z.to_nat (Z.max 0 (Z.of_nat (length l) + start))) l
  else drop (Z.to_nat start) l.

Definition is_terminal (c : ascii) : bool :=
  ch_eqb c "."%char || ch_eqb c "!"%char || ch_eqb c "?"%char.

(** [re.split(r"(?<=[.!?])\s+", text)]: the text is cut at every maximal
    run of whitespace that directly follows a terminal mark.
    [after_mark] tells that the previous character is a terminal mark,
    [in_cut] that the previous character belongs to a cut.  The head of
    the result is what is left of the piece being read. *)
Fixpoint split_sentences_from (after_mark in_cut : bool) (s : str)
  : list str :=
  match s with
  | [] => [[]]
  | c :: rest =>
      if is_space c && in_cut then split_sentences_from false true rest
      else if is_space c && after_mark
      then [] :: split_sentences_from false true rest
      else cons_head c (split_sentences_from (is_terminal c) false rest)
  end.

Definition split_sentences (s : str) : list str :=
  split_sentences_from false false s.

(** The result of a call that may raise: the exception is kept as its
    message. *)
Inductive outcome (A : Type) : Type :=
  | Returns (a : A)
  | Raises (msg : str).

Arguments Returns {A} a.
Arguments Raises {A} msg.

(** The characters of a string that are not whitespace, in order. *)
Definition ink_of (s : str) : str :=
  List.filter (fun c => negb (is_space c)) s.

End PyStr.

(** ** agents/graph.py and the four agents *)

Module Graph.
Import PyStr.

(** The language-model service: what [litellm.completion] (together with
    the retrieval call in front of it) answers for each agent, as the
    message content of the first choice, which may be absent, or the
    exception it raises. *)
Record LLM : Type := {
  reply_generate : str -> str -> str -> outcome (option str);
  reply_accuracy : str -> str -> outcome (option str);
  reply_storytelling : str -> outcome (option str);
  reply_engagement : str -> outcome (option str)
}.

(** The validation every agent applies to the content it received:
    [if not script or len(script.strip()) == 0: raise ValueError(msg)]. *)
Definition validated (msg : string) (r : outcome (option str)) : outcome str :=
  match r with
  | Raises e => Raises e
  | Returns None => Raises (chars msg)
  | Returns (Some script) =>
      if negb (truthy script) || (length (strip script) =? 0)%nat
      then Raises (chars msg)
      else Returns script
  end.

Definition generate_script (llm : LLM) (title content collection_name : str)
  : outcome str :=
  validated "LLM returned empty script content"
    (reply_generate llm title content collection_name).

Definition check_accuracy (llm : LLM) (script collection_name : str)
  : outcome str :=
  validated "LLM returned empty accuracy-checked script"
    (reply_accuracy llm script collection_name).

Definition enhance_storytelling (llm : LLM) (script : str) : outcome str :=
  validated "LLM returned empty storytelling-enhanced script"
    (reply_storytelling llm script).

Definition optimize_engagement (llm : LLM) (script : str) : outcome str :=
  validated "LLM returned empty engagement-optimized script"
    (reply_engagement llm script).

(** [GraphState]: a dictionary; a key that is absent is [None], so that
    [state.get(key, default)] is [default] on the field. *)
Record GraphState : Type := {
  title : str;
  content : str;
  collection_name : str;
  raw_script : option str;
  accuracy_checked_script : option str;
  enhanced_script : option str;
  final_script : option str;
  errors : option (list str)
}.

(** The updates a node returns, merged into the state key by key. *)
Definition set_raw_script (v : str) (s : GraphState) : GraphState :=
  {| title := title s; content := content s;
     collection_name := collection_name s;
     raw_script := Some v;
     accuracy_checked_script := accuracy_checked_script s;
     enhanced_script := enhanced_script s;
     final_script := final_script s; errors := errors s |}.

Definition set_accuracy_checked_script (v : str) (s : GraphState)
  : GraphState :=
  {| title := title s; content := content s;
     collection_name := collection_name s;
     raw_script := raw_script s;
     accuracy_checked_script := Some v;
     enhanced_script := enhanced_script s;
     final_script := final_script s; errors := errors s |}.

Definition set_enhanced_script (v : str) (s : GraphState) : GraphState :=
  {| title := title s; content := content s;
     collection_name := collection_name s;
     raw_script := raw_script s;
     accuracy_checked_script := accuracy_checked_script s;
     enhanced_script := Some v;
     final_script := final_script s; errors := errors s |}.

Definition set_final_script (v : str) (s : GraphState) : GraphState :=
  {| title := title s; content := content s;
     collection_name := collection_name s;
     raw_script := raw_script s;
     accuracy_checked_script := accuracy_checked_script s;
     enhanced_script := enhanced_script s;
     final_script := Some v; errors := errors s |}.

Definition set_errors (v : list str) (s : GraphState) : GraphState :=
  {| title := title s; content := content s;
     collection_name := collection_name s;
     raw_script := raw_script s;
     accuracy_checked_script := accuracy_checked_script s;
     enhanced_script := enhanced_script s;
     final_script := final_script s; errors := Some v |}.

(** [state.get("errors", []) + [msg]] *)
Definition errors_plus (s : GraphState) (msg : str) : list str :=
  default [] (errors s) ++ [msg].

Definition node_generate_script (llm : LLM) (state : GraphState)
  : GraphState :=
  match generate_script llm (title state) (content state)
          (collection_name state) with
  | Returns script => set_raw_script script state
  | Raises e =>
      set_errors (errors_plus state (chars "Script generation: " ++ e))
        (set_raw_script [] state)
  end.

Definition node_accuracy_check (llm : LLM) (state : GraphState)
  : GraphState :=
  let script := default [] (raw_script state) in
  if negb (truthy script)
  then set_errors (errors_plus state (chars "No script to fact-check")) state
  else
    match check_accuracy llm script (collection_name state) with
    | Returns checked => set_accuracy_checked_script checked state
    | Raises e =>
        set_errors (errors_plus state (chars "Accuracy check: " ++ e))
          (set_accuracy_checked_script script state)
    end.

Definition node_storytelling (llm : LLM) (state : GraphState) : GraphState :=
  let script :=
    default (default [] (raw_script state)) (accuracy_checked_script state) in
  if negb (truthy script)
  then set_errors (errors_plus state (chars "No script to enhance")) state
  else
    match enhance_storytelling llm script with
    | Returns enhanced => set_enhanced_script enhanced state
    | Raises e =>
        set_errors (errors_plus state (chars "Storytelling: " ++ e))
          (set_enhanced_script script state)
    end.

Definition node_engagement (llm : LLM) (state : GraphState) : GraphState :=
  let script :=
    default (default [] (accuracy_checked_script state))
      (enhanced_script state) in
  if negb (truthy script)
  then set_errors (errors_plus state (chars "No script to optimize")) state
  else
    match optimize_engagement llm script with
    | Returns final => set_final_script final state
    | Raises e =>
        set_errors (errors_plus state (chars "Engagement: " ++ e))
          (set_final_script script state)
    end.

Inductive Route : Type := route_continue | route_abort.

Definition should_continue (state : GraphState) : Route :=
  let errs := default [] (errors state) in
  if negb (truthy (default [] (raw_script state)))
     && match errs with [] => false | _ :: _ => true end
  then route_abort
  else route_continue.

(** The nodes of [build_pipeline], and [END]. *)
Inductive Node : Type :=
  | generate_script_node
  | accuracy_check_node
  | storytelling_node
  | engagement_node
  | END.

Definition entry_point : Node := generate_script_node.

Definition run_node (llm : LLM) (n : Node) (state : GraphState)
  : GraphState :=
  match n with
  | generate_script_node => node_generate_script llm state
  | accuracy_check_node => node_accuracy_check llm state
  | storytelling_node => node_storytelling llm state
  | engagement_node => node_engagement llm state
  | END => state
  end.

(** The edges: conditional after [generate_script], linear afterwards.
    The state is the one the node has just produced. *)
Definition next_node (n : Node) (state : GraphState) : Node :=
  match n with
  | generate_script_node =>
      match should_continue state with
      | route_continue => accuracy_check_node
      | route_abort => END
      end
  | accuracy_check_node => storytelling_node
  | storytelling_node => engagement_node
  | engagement_node => END
  | END => END
  end.

(** [app.invoke]: runs nodes along the edges until [END]; the result is
    the list of nodes that ran and the final state, or [None] when the
    fuel is used up before [END]. *)
Fixpoint invoke (fuel : nat) (llm : LLM) (n : Node) (state : GraphState)
  : option (list Node * GraphState) :=
  match n with
  | END => Some ([], state)
  | _ =>
      match fuel with
      | O => None
      | S fuel' =>
          let state' := run_node llm n state in
          match invoke fuel' llm (next_node n state') state' with
          | Some (ran, final) => Some (n :: ran, final)
          | None => None
          end
      end
  end.

Definition initial_state (title content collection_name : str) : GraphState :=
  {| title := title; content := content; collection_name := collection_name;
     raw_script := Some []; accuracy_checked_script := Some [];
     enhanced_script := Some []; final_script := Some [];
     errors := Some [] |}.

(** [run_pipeline]; the graph has four nodes on its longest path. *)
Definition run_pipeline (llm : LLM) (title content collection_name : str)
  : option (list Node * GraphState) :=
  invoke 4 llm entry_point (initial_state title content collection_name).

(** The two terminal states of the specification: [Aborted] is [END]
    reached by the abort edge out of the first node, [Completed] is [END]
    reached from the last node. *)
Inductive Terminal : Type := Completed | Aborted.

Definition terminal_of (ran : list Node) : option Terminal :=
  match ran with
  | [generate_script_node] => Some Aborted
  | [generate_script_node; accuracy_check_node; storytelling_node;
     engagement_node] => Some Completed
  | _ => None
  end.

(** What a later stage leaves in its output field: its own output, or on
    failure the output of the stage before it. *)
Definition carried (r : outcome str) (previous : str) : str :=
  match r with
  | Returns s => s
  | Raises _ => previous
  end.

(** The output of the last stage that succeeded, the first stage having
    given [generated]. *)
Definition last_successful_output (generated : str)
    (verify enhance polish : outcome str) : str :=
  match polish, enhance, verify with
  | Returns s, _, _ => s
  | Raises _, Returns s, _ => s
  | Raises _, Raises _, Returns s => s
  | Raises _, Raises _, Raises _ => generated
  end.

(** What a later stage adds to [errors]: nothing when it returns,
    otherwise its label followed by the message of the exception. *)
Definition stage_errors (label : string) (r : outcome str) : list str :=
  match r with
  | Returns _ => []
  | Raises e => [chars label ++ e]
  end.

End Graph.

(** ** models/data.py: the script models *)

Module Data.
Import PyStr.

Inductive Speaker : Type := HOST_A | HOST_B.

(** [speaker.value] *)
Definition value (s : Speaker) : str :=
  match s with
  | HOST_A => chars "HOST_A"
  | HOST_B => chars "HOST_B"
  end.

Definition speaker_eqb (a b : Speaker) : bool :=
  match a, b with
  | HOST_A, HOST_A | HOST_B, HOST_B => true
  | _, _ => false
  end.

Record SpeakerSegment : Type := {
  speaker : Speaker;
  text : str;
  index : nat;
  cues : list str
}.

End Data.

(** ** audio/assembler.py *)

Module Assembler.
Import PyStr Data.

Section WithAudio.

(** [pydub.AudioSegment] values are opaque clips; [len(audio)] is the
    duration of a clip in milliseconds. *)
Variable Audio : Type.
Variable len : Audio -> Z.

(** The podcast under construction: [+=] appends a clip or a silence of
    a duration in milliseconds. *)
Inductive Span : Type :=
  | Clip (a : Audio)
  | Silence (duration : Z).

(** [pause_ms or settings.pause_between_speakers_ms] *)
Definition pause_or_default (pause_ms : option Z) (setting : Z) : Z :=
  match pause_ms with
  | None => setting
  | Some p => if p =? 0 then setting else p
  end.

(** ["pause" in meta.cues] *)
Definition has_pause_cue (meta : SpeakerSegment) : bool :=
  bool_decide (chars "pause" ∈ cues meta).

(** One round of the loop over [zip(processed_segments, speaker_segments)];
    the state is the podcast so far and [prev_speaker]. *)
Definition assemble_step (pause_ms : Z)
    (st : list Span * option Speaker) (item : Audio * SpeakerSegment)
  : list Span * option Speaker :=
  let '(podcast, prev_speaker) := st in
  let '(audio, meta) := item in
  let podcast :=
    match prev_speaker with
    | Some prev =>
        if negb (speaker_eqb (speaker meta) prev)
        then podcast ++ [Silence pause_ms]
        else podcast
    | None => podcast
    end in
  let podcast :=
    if has_pause_cue meta then podcast ++ [Silence 800] else podcast in
  (podcast ++ [Clip audio], Some (speaker meta)).

(** [zip]: stops at the end of the shorter list. *)
Fixpoint zip {A B : Type} (l : list A) (k : list B) : list (A * B) :=
  match l, k with
  | a :: l', b :: k' => (a, b) :: zip l' k'
  | _, _ => []
  end.

(** The truth value of an [AudioSegment]: the class has [__len__] and
    no [__bool__], so a clip of 0 ms is false. *)
Definition truthy_audio (a : Audio) : bool := negb (len a =? 0).

(** [if intro:] and [if outro:], for what [_load_optional_audio] gave:
    [None] is false, and so is a clip of 0 ms. *)
Definition audible (a : option Audio) : option Audio :=
  match a with
  | Some x => if truthy_audio x then Some x else None
  | None => None
  end.

(** [assemble_podcast], up to the export of the finished podcast: the
    result is the podcast that is exported.  [intro] and [outro] are what
    [_load_optional_audio] gave for the configured files, [setting] is
    [settings.pause_between_speakers_ms].  No statement of the function
    raises on its arguments. *)
Definition assemble_podcast
    (intro outro : option Audio) (setting : Z)
    (processed_segments : list Audio)
    (speaker_segments : list SpeakerSegment)
    (pause_ms : option Z) : outcome (list Span) :=
  let pause_ms := pause_or_default pause_ms setting in
  let podcast := [] in
  let podcast :=
    match intro with
    | Some a =>
        if truthy_audio a then podcast ++ [Clip a] ++ [Silence 500]
        else podcast
    | None => podcast
    end in
  let '(podcast, _) :=
    fold_left (assemble_step pause_ms)
      (zip processed_segments speaker_segments) (podcast, None) in
  let podcast :=
    match outro with
    | Some a =>
        if truthy_audio a then podcast ++ [Silence 500] ++ [Clip a]
        else podcast
    | None => podcast
    end in
  Returns podcast.

(** The sequencing rule in the words of the specification: what goes into
    the timeline for position [i] of two index-aligned sequences. *)
Definition rule_at (pause_ms : Z) (spans : list Audio)
    (turns : list SpeakerSegment) (i : nat) : list Span :=
  match spans !! i, turns !! i with
  | Some a, Some t =>
      (match i with
       | O => []
       | S j =>
           match turns !! j with
           | Some p =>
               if speaker_eqb (speaker p) (speaker t) then []
               else [Silence pause_ms]
           | None => []
           end
       end)
      ++ (if bool_decide (chars "pause" ∈ cues t) then [Silence 800] else [])
      ++ [Clip a]
  | _, _ => []
  end.

Definition rule_timeline (pause_ms : Z) (spans : list Audio)
    (turns : list SpeakerSegment) : list Span :=
  concat (map (rule_at pause_ms spans turns) (seq 0 (length spans))).

(** A body between an intro and an outro, each with its silence of half
    a second. *)
Definition around (intro outro : option Audio) (body : list Span)
  : list Span :=
  match intro with Some a => [Clip a; Silence 500] | None => [] end
  ++ body
  ++ match outro with Some a => [Silence 500; Clip a] | None => [] end.

(** What the loop appends for the pairs of two lists, [prev] being the
    turn in front of them. *)
Fixpoint appended (pause_ms : Z) (prev : option SpeakerSegment)
    (spans : list Audio) (turns : list SpeakerSegment) : list Span :=
  match spans, turns with
  | a :: spans', t :: turns' =>
      match prev with
      | Some p =>
          if speaker_eqb (speaker p) (speaker t) then []
          else [Silence pause_ms]
      | None => []
      end
      ++ (if bool_decide (chars "pause" ∈ cues t) then [Silence 800] else [])
      ++ [Clip a] ++ appended pause_ms (Some t) spans' turns'
  | _, _ => []
  end.

(** The clips of a podcast, in order, without the silences. *)
Definition clips_of (podcast : list Span) : list Audio :=
  omap (fun s => match s with Clip a => Some a | Silence _ => None end)
    podcast.

End WithAudio.

Arguments Clip {Audio} a.
Arguments Silence {Audio} duration.

(** For the examples a clip is a natural number, its duration in
    milliseconds; and two turns. *)
Definition ms (a : nat) : Z := Z.of_nat a.

Definition turn_a : SpeakerSegment :=
  {| speaker := HOST_A; text := chars "Hello!"; index := 0; cues := [] |}.

Definition turn_b : SpeakerSegment :=
  {| speaker := HOST_B; text := chars "Hi!"; index := 1;
     cues := [chars "pause"] |}.

End Assembler.

(** ** ingestion/chunker.py *)

Module Chunker.
Import PyStr.

(** Values stored in a chunk's metadata dictionary. *)
Inductive MetaValue : Type :=
  | MetaStr (s : str)
  | MetaInt (n : Z).

Record Chunk : Type := {
  text : str;
  index : nat;
  metadata : gmap str MetaValue
}.

Definition DEFAULT_CHUNK_SIZE : Z := 800.
Definition DEFAULT_CHUNK_OVERLAP : Z := 100.

Section WithTokenizer.

(** [utils.helpers.count_tokens]: the length of the encoding an external
    tokenizer gives. *)
Variable count_tokens : str -> nat.

(** [int(overlap_tokens / 1.3)]: a floating-point division, truncated. *)
Variable approx_words_of : Z -> Z.

Definition _make_chunk (text : str) (index : nat)
    (metadata : gmap str MetaValue) : Chunk :=
  {| text := text;
     index := index;
     metadata :=
       <[chars "char_count" := MetaInt (Z.of_nat (length text))]>
         (<[chars "token_count" := MetaInt (Z.of_nat (count_tokens text))]>
            metadata) |}.

Definition _get_overlap_text (text : str) (overlap_tokens : Z) : str :=
  let ws := words text in
  let approx_words := approx_words_of overlap_tokens in
  if Z.of_nat (length ws) <=? approx_words then text
  else join [sp] (slice_from (- approx_words) ws).

Definition _split_paragraphs (text : str) : list str :=
  map strip (filter (fun p => truthy (strip p) = true) (split_blank text)).

(** The state of both loops: the chunks so far, the running text and its
    running token count. *)
Definition LoopState : Type := (list Chunk * str * Z)%type.

(** [chunks.append(_make_chunk(current.strip(), base + len(chunks), ..))],
    then the running text is re-seeded with the overlap. *)
Definition flush (base : nat) (chunk_overlap : Z)
    (metadata : gmap str MetaValue) (st : LoopState) : LoopState :=
  let '(chunks, current, _) := st in
  let chunks :=
    chunks ++ [_make_chunk (strip current) (base + length chunks) metadata] in
  let current := _get_overlap_text current chunk_overlap in
  (chunks, current, Z.of_nat (count_tokens current)).

Definition sentence_step (chunk_size chunk_overlap : Z) (start_index : nat)
    (metadata : gmap str MetaValue) (st : LoopState) (sent : str)
  : LoopState :=
  let sent_tokens := Z.of_nat (count_tokens sent) in
  let st :=
    let '(_, current, current_tokens) := st in
    if (chunk_size <? current_tokens + sent_tokens)
       && truthy (strip current)
    then flush start_index chunk_overlap metadata st
    else st in
  let '(chunks, current, current_tokens) := st in
  let current := if truthy current then current ++ [sp] ++ sent else sent in
  (chunks, current, current_tokens + sent_tokens).

(** Appends the running text as a last chunk when it is not blank. *)
Definition flush_remaining (base : nat) (metadata : gmap str MetaValue)
    (st : LoopState) : list Chunk :=
  let '(chunks, current, _) := st in
  if truthy (strip current)
  then chunks ++ [_make_chunk (strip current) (base + length chunks) metadata]
  else chunks.

Definition _split_large_paragraph (text : str) (chunk_size chunk_overlap : Z)
    (start_index : nat) (metadata : gmap str MetaValue) : list Chunk :=
  flush_remaining start_index metadata
    (fold_left (sentence_step chunk_size chunk_overlap start_index metadata)
       (split_sentences text) ([], [], 0)).

Definition paragraph_step (chunk_size chunk_overlap : Z)
    (metadata : gmap str MetaValue) (st : LoopState) (para : str)
  : LoopState :=
  let para_tokens := Z.of_nat (count_tokens para) in
  if chunk_size <? para_tokens then
    let st :=
      let '(_, current_text, _) := st in
      if truthy (strip current_text)
      then flush 0 chunk_overlap metadata st
      else st in
    let '(chunks, _, _) := st in
    let sub_chunks :=
      _split_large_paragraph para chunk_size chunk_overlap (length chunks)
        metadata in
    let chunks := chunks ++ sub_chunks in
    let current_text :=
      match last chunks with
      | Some c => _get_overlap_text (text c) chunk_overlap
      | None => []
      end in
    (chunks, current_text, Z.of_nat (count_tokens current_text))
  else
    let st :=
      let '(_, current_text, current_tokens) := st in
      if (chunk_size <? current_tokens + para_tokens)
         && truthy (strip current_text)
      then flush 0 chunk_overlap metadata st
      else st in
    let '(chunks, current_text, current_tokens) := st in
    let current_text :=
      if truthy current_text then current_text ++ [nl; nl] ++ para
      else para in
    (chunks, current_text, current_tokens + para_tokens).

(** [chunk_text]; [metadata] is [None] when the argument is left out. *)
Definition chunk_text (text : str) (chunk_size chunk_overlap : Z)
    (metadata : option (gmap str MetaValue)) : list Chunk :=
  let metadata :=
    match metadata with
    | Some m => m
    | None => ∅
    end in
  flush_remaining 0 metadata
    (fold_left (paragraph_step chunk_size chunk_overlap metadata)
       (_split_paragraphs text) ([], [], 0)).

(** The sum of the token counts of some paragraphs. *)
Definition sum_tokens (l : list str) : Z :=
  fold_right (fun p acc => Z.of_nat (count_tokens p) + acc) 0 l.

(** The running token estimate of a text: the sum over its paragraphs. *)
Definition total_tokens (text : str) : Z :=
  sum_tokens (_split_paragraphs text).

End WithTokenizer.

(** The indices of [chunks] are [base], [base + 1], ... *)
Definition sequential (base : nat) (chunks : list Chunk) : Prop :=
  map index chunks = seq base (length chunks).

(** Stand-ins for the two external computations, used to evaluate
    examples: one token per character, and the truncated quotient
    [10 * n / 13]. *)
Definition char_tokens (s : str) : nat := length s.
Definition ten_thirteenths (n : Z) : Z := Z.quot (10 * n) 13.

End Chunker.

(** ** Notions for the properties of the chunker *)

Module ChunkerNotions.
Import PyStr Chunker.

(** A word as [str.split()] gives it: not empty, without whitespace. *)
Definition wordy (w : str) : Prop :=
  w <> [] /\ forallb (fun c => negb (is_space c)) w = true.

(** No two newlines follow each other. *)
Fixpoint blank_free (s : str) : bool :=
  match s with
  | [] => true
  | c :: rest =>
      negb (ch_eqb c nl
            && match rest with [] => false | d :: _ => ch_eqb d nl end)
      && blank_free rest
  end.

(** The loop has a chunk or holds text that will make one. *)
Definition started (st : LoopState) : Prop :=
  fst (fst st) <> [] \/ has_ink (snd (fst st)) = true.

End ChunkerNotions.

(** ** tts/dialogue_parser.py *)

Module DialogueParser.
Import PyStr Data.

Definition _MAX_SEGMENT_CHARS : nat := 500.

(** [_CUE_PATTERN], [\[(\w+(?:\s+\w+)?)\]], tried at the first character
    of [s]: group 1 and the length of the match.  Every repetition is
    over one character class and is followed by a character outside that
    class, so a repetition takes the whole run or the match fails. *)
Definition match_cue (s : str) : option (str * nat) :=
  match s with
  | [] => None
  | c :: s1 =>
      if ch_eqb c lbracket then
        let '(w1, r1) := span is_word s1 in
        if truthy w1 then
          match r1 with
          | [] => None
          | d :: _ =>
              if ch_eqb d rbracket then Some (w1, (2 + length w1)%nat)
              else
                let '(gap, r2) := span is_space r1 in
                let '(w2, r3) := span is_word r2 in
                if truthy gap && truthy w2 then
                  match r3 with
                  | [] => None
                  | e :: _ =>
                      if ch_eqb e rbracket
                      then Some (w1 ++ gap ++ w2,
                                 (2 + length w1 + length gap + length w2)%nat)
                      else None
                  end
                else None
          end
        else None
      else None
  end.

(** [_CUE_PATTERN.findall]: the matches are looked for from the left and
    do not overlap; [skip] counts the characters of the current match
    that are still to be passed. *)
Fixpoint findall_cues_from (skip : nat) (s : str) : list str :=
  match s with
  | [] => []
  | _ :: rest =>
      match skip with
      | S k => findall_cues_from k rest
      | O =>
          match match_cue s with
          | Some (g, n) => g :: findall_cues_from (n - 1) rest
          | None => findall_cues_from 0 rest
          end
      end
  end.

Definition findall_cues (s : str) : list str := findall_cues_from 0 s.

(** [_CUE_PATTERN.sub("", s)] *)
Fixpoint sub_cues_from (skip : nat) (s : str) : str :=
  match s with
  | [] => []
  | c :: rest =>
      match skip with
      | S k => sub_cues_from k rest
      | O =>
          match match_cue s with
          | Some (_, n) => sub_cues_from (n - 1) rest
          | None => c :: sub_cues_from 0 rest
          end
      end
  end.

Definition sub_cues (s : str) : str := sub_cues_from 0 s.

(** [re.sub(r"\s{2,}", " ", s)]: every maximal run of two or more
    whitespace characters becomes one space.  [in_run] tells that the
    previous character belongs to such a run. *)
Fixpoint collapse_from (in_run : bool) (s : str) : str :=
  match s with
  | [] => []
  | c :: rest =>
      if is_space c then
        if in_run then collapse_from true rest
        else
          match rest with
          | [] => [c]
          | d :: _ =>
              if is_space d then sp :: collapse_from true rest
              else c :: collapse_from false rest
          end
      else c :: collapse_from false rest
  end.

Definition collapse_ws (s : str) : str := collapse_from false s.

(** A speaker pattern tried at the first character of a line: group 1 and
    the length of the match. *)
Definition Marker : Type := str -> option (str * nat).

Fixpoint strip_prefix (p s : str) : option str :=
  match p with
  | [] => Some s
  | a :: p' =>
      match s with
      | [] => None
      | b :: s' => if ch_eqb a b then strip_prefix p' s' else None
      end
  end.

(** [^(HOST_[AB])\s*:] *)
Definition host_marker : Marker := fun s =>
  match strip_prefix (chars "HOST_") s with
  | Some (x :: r) =>
      if ch_eqb x "A"%char || ch_eqb x "B"%char then
        let '(gap, r') := span is_space r in
        match r' with
        | [] => None
        | d :: _ =>
            if ch_eqb d colon
            then Some (chars "HOST_" ++ [x], (7 + length gap)%nat)
            else None
        end
      else None
  | _ => None
  end.

Definition is_star (c : ascii) : bool := ch_eqb c star.

(** [_DIALOGUE_PATTERN], [^\*{0,2}(\w+)\*{0,2}\s*:\s*]: a run of more than
    two asterisks on either side of the name makes the match fail. *)
Definition dialogue_marker : Marker := fun s =>
  let '(stars1, r1) := span is_star s in
  if (length stars1 <=? 2)%nat then
    let '(name, r2) := span is_word r1 in
    if truthy name then
      let '(stars2, r3) := span is_star r2 in
      if (length stars2 <=? 2)%nat then
        let '(gap, r4) := span is_space r3 in
        match r4 with
        | [] => None
        | d :: r5 =>
            if ch_eqb d colon then
              let '(gap', _) := span is_space r5 in
              Some (name,
                    (length stars1 + length name + length stars2
                     + length gap + 1 + length gap')%nat)
            else None
        end
      else None
    else None
  else None.

(** [re.finditer(pattern, script)] together with the slices between the
    matches: the text in front of the first match, and for every match
    group 1 and the text from its end to the start of the next match (or
    to the end of the script).  [bol] tells that the position is the
    start of a line, [skip] counts the characters of the current match
    still to be passed. *)
Fixpoint scan_turns (pattern : Marker) (bol : bool) (skip : nat) (s : str)
  : str * list (str * str) :=
  match s with
  | [] => ([], [])
  | c :: rest =>
      match skip with
      | S k => scan_turns pattern (ch_eqb c nl) k rest
      | O =>
          match (if bol then pattern s else None) with
          | Some (g, n) =>
              let '(body, turns) :=
                scan_turns pattern (ch_eqb c nl) (n - 1) rest in
              ([], (g, body) :: turns)
          | None =>
              let '(body, turns) := scan_turns pattern (ch_eqb c nl) 0 rest in
              (c :: body, turns)
          end
      end
  end.

(** The body of the loop of [_split_into_turns]. *)
Definition turn_of (m : str * str) : option (str * str) :=
  let '(speaker, raw) := m in
  let text := strip raw in
  let text := strip (lstrip_star text) in
  if truthy text then Some (speaker, text) else None.

Definition _split_into_turns (script : str) (pattern : option Marker)
  : list (str * str) :=
  let pattern :=
    match pattern with
    | Some p => p
    | None => host_marker
    end in
  omap turn_of (snd (scan_turns pattern true 0 script)).

Definition pack_step (st : list str * str) (sent : str) : list str * str :=
  let '(parts, current) := st in
  if (_MAX_SEGMENT_CHARS <? length current + length sent)%nat
     && truthy current
  then (parts ++ [strip current], sent)
  else (parts, if truthy current then current ++ [sp] ++ sent else sent).

Definition _split_long_segment (text : str) : list str :=
  let '(parts, current) :=
    fold_left pack_step (split_sentences text) ([], []) in
  if truthy (strip current) then parts ++ [strip current] else parts.

(** The inner loop [for j, sub in enumerate(sub_texts)], from [j] on. *)
Fixpoint append_subs (speaker : Speaker) (cues : list str) (j : nat)
    (sub_texts : list str) (segments : list SpeakerSegment)
  : list SpeakerSegment :=
  match sub_texts with
  | [] => segments
  | sub :: rest =>
      append_subs speaker cues (S j) rest
        (segments ++
           [{| speaker := speaker; text := sub; index := length segments;
               cues := match j with O => cues | S _ => [] end |}])
  end.

(** [clean_text] of a turn: cue markers removed, trimmed, whitespace
    collapsed. *)
Definition clean_text_of (text : str) : str :=
  collapse_ws (strip (sub_cues text)).

(** What one turn of a known speaker adds to [segments]; [parse_script]
    and [parse_dialogue] have the same statements for it. *)
Definition append_turn (speaker : Speaker) (text : str)
    (segments : list SpeakerSegment) : list SpeakerSegment :=
  let cues := findall_cues text in
  let clean_text := clean_text_of text in
  if negb (truthy clean_text) then segments
  else if (_MAX_SEGMENT_CHARS <? length clean_text)%nat then
    append_subs speaker cues 0 (_split_long_segment clean_text) segments
  else
    segments ++
      [{| speaker := speaker; text := clean_text; index := length segments;
          cues := cues |}].

Definition speaker_of_tag (speaker_str : str) : Speaker :=
  if decide (speaker_str = chars "HOST_A") then HOST_A else HOST_B.

Definition script_step (segments : list SpeakerSegment) (turn : str * str)
  : list SpeakerSegment :=
  let '(speaker_str, text) := turn in
  append_turn (speaker_of_tag speaker_str) text segments.

Definition parse_script (script : str) : list SpeakerSegment :=
  fold_left script_step (_split_into_turns script None) [].

(** The names of the two personas of [tts/voice_config.py], and the two
    tags. *)
Definition default_name_map : gmap str Speaker :=
  <[chars "HOST_B" := HOST_B]>
    (<[chars "HOST_A" := HOST_A]>
       (<[chars "Sarah" := HOST_B]> (<[chars "Mike" := HOST_A]> ∅))).

(** The state is the segments so far and the speaker names that were
    reported by [log.warning]. *)
Definition dialogue_step (name_map : gmap str Speaker)
    (st : list SpeakerSegment * list str) (turn : str * str)
  : list SpeakerSegment * list str :=
  let '(segments, warned) := st in
  let '(speaker_name, text) := turn in
  match name_map !! speaker_name with
  | None => (segments, warned ++ [speaker_name])
  | Some speaker => (append_turn speaker text segments, warned)
  end.

(** [parse_dialogue]: the segments, and the unknown speaker names that
    were logged as warnings. *)
Definition parse_dialogue (script : str)
    (name_map : option (gmap str Speaker))
  : list SpeakerSegment * list str :=
  let name_map :=
    match name_map with
    | Some m => m
    | None => default_name_map
    end in
  fold_left (dialogue_step name_map)
    (_split_into_turns script (Some dialogue_marker)) ([], []).

(** [segments_to_script]: the cue markers, the line of a segment, the
    script. *)
Definition cue_tag (c : str) : str := [lbracket] ++ c ++ [rbracket].

Definition line_of (seg : SpeakerSegment) : str :=
  let cues_str := join [sp] (map cue_tag (cues seg)) in
  let prefix := if truthy cues_str then cues_str ++ [sp] else [] in
  value (speaker seg) ++ chars ": " ++ prefix ++ text seg.

Definition segments_to_script (segments : list SpeakerSegment) : str :=
  join [nl; nl] (map line_of segments).

End DialogueParser.

(** ** Notions for the properties of the dialogue parser *)

Module DialogueNotions.
Import PyStr Data DialogueParser.

(** The segments the inner loop makes of [texts], the first of them being
    number [j] of its turn and getting the index [base]. *)
Fixpoint sub_turns (speaker : Speaker) (cues : list str) (j base : nat)
    (texts : list str) : list SpeakerSegment :=
  match texts with
  | [] => []
  | sub :: rest =>
      {| speaker := speaker; text := sub; index := base;
         cues := match j with O => cues | S _ => [] end |}
      :: sub_turns speaker cues (S j) (S base) rest
  end.

(** The segments of a list of turns whose speakers are known. *)
Definition known_step (segments : list SpeakerSegment)
    (turn : Speaker * str) : list SpeakerSegment :=
  append_turn (fst turn) (snd turn) segments.

Definition segments_of_known (turns : list (Speaker * str))
  : list SpeakerSegment :=
  fold_left known_step turns [].

(** A turn with its speaker looked up in the name map, when it is there. *)
Definition resolve (name_map : gmap str Speaker) (turn : str * str)
  : option (Speaker * str) :=
  match name_map !! fst turn with
  | Some speaker => Some (speaker, snd turn)
  | None => None
  end.

Definition is_unknown (name_map : gmap str Speaker) (turn : str * str)
  : bool :=
  match name_map !! fst turn with
  | Some _ => false
  | None => true
  end.

Definition is_bracket (c : ascii) : bool :=
  ch_eqb c lbracket || ch_eqb c rbracket.

Definition not_open (c : ascii) : bool := negb (ch_eqb c lbracket).

(** No two whitespace characters follow each other. *)
Fixpoint single_spaced (s : str) : bool :=
  match s with
  | [] => true
  | c :: rest =>
      negb (is_space c
            && match rest with [] => false | d :: _ => is_space d end)
      && single_spaced rest
  end.

Definition no_brackets (s : str) : bool :=
  forallb (fun c => negb (is_bracket c)) s.

(** A single word, or two words separated by whitespace: what
    [_CUE_PATTERN] accepts between the brackets. *)
Definition cue_shape (inner : str) : bool :=
  let '(w1, r1) := span is_word inner in
  truthy w1
  && match r1 with
     | [] => true
     | _ :: _ =>
         let '(gap, r2) := span is_space r1 in
         let '(w2, r3) := span is_word r2 in
         truthy gap && truthy w2 && negb (truthy r3)
     end.

(** [needle in hay] *)
Fixpoint contains (needle hay : str) : bool :=
  match strip_prefix needle hay with
  | Some _ => true
  | None =>
      match hay with
      | [] => false
      | _ :: hay' => contains needle hay'
      end
  end.

(** Whether the next position is the start of a line, after [x] has been
    read from a position where this was [b]. *)
Definition bol_after (b : bool) (x : str) : bool :=
  fold_left (fun _ c => ch_eqb c nl) x b.

(** No speaker marker is found in [t]; [b] tells whether [t] begins at the
    start of a line. *)
Definition marker_free (b : bool) (t : str) : bool :=
  match snd (scan_turns host_marker b 0 t) with
  | [] => true
  | _ :: _ => false
  end.

Definition starts_with_star (t : str) : bool :=
  match t with
  | [] => false
  | c :: _ => ch_eqb c star
  end.

(** A segment whose text carries no markup: no bracketed cue is left in
    it, no line of it begins with a speaker tag, and when it has no cue
    it does not begin with an asterisk. *)
Definition markup_free (seg : SpeakerSegment) : bool :=
  match findall_cues (text seg) with [] => true | _ :: _ => false end
  && marker_free false (text seg)
  && match cues seg with
     | [] => negb (starts_with_star (text seg))
     | _ :: _ => true
     end.

(** A well-formed script in the canonical tags: all its segments are free
    of markup. *)
Definition well_formed (script : str) : bool :=
  forallb markup_free (parse_script script).

(** The cue markers of [line_of] in front of a text. *)
Fixpoint tagged (cs : list str) (t : str) : str :=
  match cs with
  | [] => t
  | c :: cs' => cue_tag c ++ [sp] ++ tagged cs' t
  end.

(** What follows a line in a serialized script: nothing, or an empty line
    and the next tag. *)
Definition calm (f : str) : Prop :=
  f = [] \/ exists r, f = nl :: nl :: "H"%char :: r.

(** Whatever follows [x], no speaker marker begins inside [x]. *)
Definition mute (b : bool) (x : str) : Prop :=
  forall f,
    scan_turns host_marker b 0 (x ++ f)
    = (x ++ fst (scan_turns host_marker (bol_after b x) 0 f),
       snd (scan_turns host_marker (bol_after b x) 0 f)).

Definition is_host_letter (x : ascii) : bool :=
  ch_eqb x "A"%char || ch_eqb x "B"%char.

(** A segment that reads back as it is written. *)
Definition ready (seg : SpeakerSegment) : Prop :=
  tight (text seg)
  /\ single_spaced (text seg) = true
  /\ Forall (fun c => cue_shape c = true) (cues seg)
  /\ ((_MAX_SEGMENT_CHARS < length (text seg))%nat ->
      _split_long_segment (text seg) = [text seg])
  /\ markup_free seg = true.

(** The turns found in a serialized script, with the raw text of each. *)
Fixpoint raw_turns (segs : list SpeakerSegment) : list (str * str) :=
  match segs with
  | [] => []
  | seg :: rest =>
      (value (speaker seg),
       sp :: tagged (cues seg) (text seg)
       ++ match rest with [] => [] | _ :: _ => [nl; nl] end)
      :: raw_turns rest
  end.

(** The segments with the indices from [base] on. *)
Fixpoint renumber (base : nat) (segs : list SpeakerSegment)
  : list SpeakerSegment :=
  match segs with
  | [] => []
  | seg :: rest =>
      {| speaker := speaker seg; text := text seg; index := base;
         cues := cues seg |} :: renumber (S base) rest
  end.

Definition head_space (s : str) : bool :=
  match s with
  | [] => false
  | c :: _ => is_space c
  end.

(** The last character of [s] is not whitespace; [i] tells this of the
    character in front of [s]. *)
Definition last_ink (i : bool) (s : str) : bool :=
  fold_left (fun _ c => negb (is_space c)) s i.

(** The last character of [s] is a terminal mark; [a] tells this of the
    character in front of [s]. *)
Definition ends_mark (a : bool) (s : str) : bool :=
  fold_left (fun _ c => is_terminal c) s a.

(** No whitespace of [s] directly follows a terminal mark. *)
Fixpoint uncut (a : bool) (s : str) : bool :=
  match s with
  | [] => true
  | c :: r => negb (is_space c && a) && uncut (is_terminal c) r
  end.

Definition tightb (s : str) : bool := negb (head_space s) && last_ink false s.

(** A sentence as [split_sentences] gives it for a trimmed text without
    doubled whitespace. *)
Definition good (s : str) : bool :=
  tightb s && single_spaced s && uncut false s.

(** All strings but the last end with a terminal mark. *)
Fixpoint chain (l : list str) : Prop :=
  match l with
  | [] => True
  | s :: rest =>
      match rest with
      | [] => True
      | _ :: _ => ends_mark false s = true /\ chain rest
      end
  end.

(** A part that [_split_long_segment] leaves as it is: sentences joined
    by single spaces that the loop packs into one part. *)
Definition stable (p : str) : Prop :=
  exists sents,
    sents <> []
    /\ Forall (fun s => good s = true) sents
    /\ chain sents
    /\ p = join [sp] sents
    /\ fold_left pack_step sents ([], []) = ([], p).

(** What holds of every segment the parser emits. *)
Definition emitted (seg : SpeakerSegment) : Prop :=
  tight (text seg)
  /\ single_spaced (text seg) = true
  /\ Forall (fun c => cue_shape c = true) (cues seg)
  /\ ((_MAX_SEGMENT_CHARS < length (text seg))%nat ->
      _split_long_segment (text seg) = [text seg]).

(** The script of [tests/test_tts.py]. *)
Definition SAMPLE_SCRIPT : str :=
  chars "HOST_A: Welcome to the show! Today we're talking about AI.

HOST_B: That's right! It's a fascinating topic.

HOST_A: [pause] So basically, LLMs are trained on massive amounts of text data.

HOST_B: [excited] Oh, I love this stuff. Tell me more about how they work!

HOST_A: Sure! The key insight is the transformer architecture.

HOST_B: And it uses attention mechanisms, right?

HOST_A: Exactly. Thanks for listening, everyone!
".

(** A turn of thirty sentences with a cue, for the examples. *)
Definition long_turn_body : str :=
  chars "[pause] "
  ++ strip (concat (repeat (chars "This is a sentence. ") 30)).

Definition long_turn_script : str := chars "HOST_A: " ++ long_turn_body.

(** The pieces of a text with a marker between each two of them. *)
Fixpoint weave (pieces : list str) (markers : list str) : str :=
  match pieces with
  | [] => []
  | t :: pieces' =>
      match markers with
      | [] => t
      | g :: markers' => t ++ g ++ weave pieces' markers'
      end
  end.

(** A part of a long text is within bounds: at most one character over
    the limit, or one of the [sentences], trimmed. *)
Definition within (sentences : list str) (p : str) : Prop :=
  (length p <= S _MAX_SEGMENT_CHARS)%nat
  \/ exists s, In s sentences /\ p = strip s.

(** The part being filled is within bounds, or one of the [sentences]. *)
Definition running (sentences : list str) (current : str) : Prop :=
  (length current <= S _MAX_SEGMENT_CHARS)%nat \/ In current sentences.

(** The segments that one turn of a known speaker adds, the first of
    them with the index [base]: none when the cleaned text is empty, one
    for each part when the cleaned text has more than 500 characters
    (the cues on the first part only), and one otherwise. *)
Definition turn_segments (base : nat) (turn : Speaker * str)
  : list SpeakerSegment :=
  let clean_text := clean_text_of (snd turn) in
  if truthy clean_text then
    sub_turns (fst turn) (findall_cues (snd turn)) 0 base
      (if (_MAX_SEGMENT_CHARS <? length clean_text)%nat
       then _split_long_segment clean_text
       else [clean_text])
  else [].

(** The segments of some turns of known speakers, numbered from [base]
    on. *)
Fixpoint segments_from (base : nat) (turns : list (Speaker * str))
  : list SpeakerSegment :=
  match turns with
  | [] => []
  | turn :: rest =>
      turn_segments base turn
      ++ segments_from (base + length (turn_segments base turn)) rest
  end.

(** A script written one turn on a line: the label, a colon and a space,
    the text, a newline. *)
Definition dialogue_line (turn : str * str) : str :=
  fst turn ++ chars ": " ++ snd turn ++ [nl].

Definition dialogue_lines (turns : list (str * str)) : str :=
  concat (map dialogue_line turns).

(** A turn that can be written on a line: the label is a word, the text
    is trimmed and not empty, has no newline and does not begin with an
    asterisk. *)
Definition plain_turn (turn : str * str) : Prop :=
  fst turn <> [] /\ forallb is_word (fst turn) = true
  /\ tight (snd turn) /\ ~ In nl (snd turn)
  /\ starts_with_star (snd turn) = false.

End DialogueNotions.

(** ** api/routes.py: the test on the result of the pipeline *)

Module Routes.
Import PyStr Graph.

(** [_generate_script_task] and [_full_pipeline]:
    [result.get("final_script", result.get("raw_script", ""))] *)
Definition final_script_of (result : GraphState) : str :=
  default (default [] (raw_script result)) (final_script result).

(** [not final_script or not final_script.strip()] *)
Definition is_empty_script (final_script : str) : bool :=
  negb (truthy final_script) || negb (truthy (strip final_script)).

End Routes.

(** ** tts/voice_config.py *)

Module VoiceConfig.
Import PyStr.

(** A [pathlib.Path] as the list of its parts; [dir / name] is taken for
    a [name] that is a single part, as the file and directory names of
    the sources are. *)
Definition Path : Type := list str.

Definition joinpath (dir : Path) (name : str) : Path := dir ++ [name].

(** The settings of [config/settings.py] that the voice personas and the
    synthesis read; the two references are [Path(settings.voice_a_reference)]
    and [Path(settings.voice_b_reference)]. *)
Record Settings : Type := {
  voice_a_reference : Path;
  voice_b_reference : Path;
  tts_language : str;
  segments_path : Path
}.

Record VoicePersona : Type := {
  name : str;
  speaker : Data.Speaker;
  reference_audio : Path;
  language : str;
  speed : Decimal.decimal;
  description : str
}.

Definition HOST_A (settings : Settings) : VoicePersona :=
  {| name := chars "Mike";
     speaker := Data.HOST_A;
     reference_audio := voice_a_reference settings;
     language := tts_language settings;
     speed := Decimal.Decimal (Decimal.Pos (Decimal.D1 Decimal.Nil))
                (Decimal.D0 Decimal.Nil);
     description := chars "Main presenter, confident and knowledgeable tone" |}.

Definition HOST_B (settings : Settings) : VoicePersona :=
  {| name := chars "Sarah";
     speaker := Data.HOST_B;
     reference_audio := voice_b_reference settings;
     language := tts_language settings;
     speed := Decimal.Decimal (Decimal.Pos (Decimal.D1 Decimal.Nil))
                (Decimal.D0 Decimal.Nil);
     description := chars "Co-host, curious and enthusiastic tone" |}.

Definition get_voice (settings : Settings) (speaker : Data.Speaker)
  : VoicePersona :=
  if Data.speaker_eqb speaker Data.HOST_A then HOST_A settings
  else HOST_B settings.

End VoiceConfig.

(** ** tts/engine.py *)

Module Engine.
Import PyStr Data VoiceConfig.

(** The exceptions that matter to the callers; [TTSUnavailableError] is
    imported from [models.data] and carries the reason as its message. *)
Inductive Error : Type :=
  | TTSUnavailableError (reason : str)
  | FileNotFoundError (message : str)
  | OtherError (message : str).

(** [str.lower] on code points below 256. *)
Definition lower_char (c : ascii) : ascii :=
  if in_range 65 90 c
     || (in_range 192 222 c && negb (code c =? 215)%N)
  then ascii_of_N (code c + 32)
  else c.

Definition lower (s : str) : str := map lower_char s.

(** [n] written as [format(n, "04d")]: decimal, padded with zeros to four
    characters. *)
Definition decimal_digits (n : nat) : str :=
  chars (NilEmpty.string_of_uint (Nat.to_uint n)).

Definition format_04d (n : nat) : str :=
  repeat "0"%char (4 - length (decimal_digits n)) ++ decimal_digits n.

(** [f"segment_{segment.index:04d}_{segment.speaker.value}.wav"] *)
Definition segment_file_name (segment : SpeakerSegment) : str :=
  chars "segment_" ++ format_04d (index segment) ++ chars "_"
  ++ value (Data.speaker segment) ++ chars ".wav".

(** What the guarded block of [_get_model] does when it is run: the
    model, or the exception that one of its three handlers catches. *)
Inductive Loading (Model : Type) : Type :=
  | Loaded (model : Model)
  | LoadImportError (exc : str)
  | LoadMemoryError (exc : str)
  | LoadException (exc : str).

Arguments Loaded {Model} model.
Arguments LoadImportError {Model} exc.
Arguments LoadMemoryError {Model} exc.
Arguments LoadException {Model} exc.

(** What the module finds around it: the settings, the loading of the
    Coqui model, the file system ([Path.mkdir], [Path.exists], [str] of
    a path), the synthesis [tts.tts_to_file] (of the model, with the
    text, the file path, the speaker wav and the language), and
    [uuid.uuid4().hex].  An effect gives the exception it raises, if
    any. *)
Record System (Model : Type) : Type := {
  settings : Settings;
  load_model : Loading Model;
  mkdir : Path -> option Error;
  path_exists : Path -> bool;
  path_str : Path -> str;
  tts_to_file : Model -> str -> str -> str -> str -> option Error;
  uuid4_hex : str
}.

Arguments settings {Model} _.
Arguments load_model {Model} _.
Arguments mkdir {Model} _ _.
Arguments path_exists {Model} _ _.
Arguments path_str {Model} _ _.
Arguments tts_to_file {Model} _ _ _ _ _ _.
Arguments uuid4_hex {Model} _.

(** The module's globals, and the calls of [on_segment_done] made so
    far. *)
Record State (Model : Type) : Type := {
  _tts_model : option Model;
  _tts_available : bool;
  _tts_unavailable_reason : str;
  progress_calls : list (nat * nat)
}.

Arguments _tts_model {Model} _.
Arguments _tts_available {Model} _.
Arguments _tts_unavailable_reason {Model} _.
Arguments progress_calls {Model} _.

(** The globals after import; [disable_tts] is the environment variable
    DISABLE_TTS, when it is set. *)
Definition at_import (Model : Type) (disable_tts : option str)
  : State Model :=
  let _TTS_FORCE_DISABLED :=
    bool_decide
      (lower (default [] disable_tts)
         ∈ [chars "1"; chars "true"; chars "yes"]) in
  {| _tts_model := None;
     _tts_available := negb _TTS_FORCE_DISABLED;
     _tts_unavailable_reason :=
       if _TTS_FORCE_DISABLED
       then chars "TTS explicitly disabled via DISABLE_TTS env var"
       else [];
     progress_calls := [] |}.

(** A computation on the globals that returns or raises. *)
Definition Run (Model A : Type) : Type :=
  State Model -> State Model * (Error + A).

Definition ret {Model A : Type} (a : A) : Run Model A :=
  fun st => (st, inr a).

Definition raise {Model A : Type} (e : Error) : Run Model A :=
  fun st => (st, inl e).

Definition bind {Model A B : Type} (m : Run Model A)
    (k : A -> Run Model B) : Run Model B :=
  fun st =>
    match m st with
    | (st', inr a) => k a st'
    | (st', inl e) => (st', inl e)
    end.

Notation "x <- m ;; k" := (bind m (fun x => k))
  (at level 100, m at next level, right associativity).

Definition effect {Model : Type} (r : option Error) : Run Model unit :=
  match r with
  | Some e => raise e
  | None => ret tt
  end.

Definition is_tts_available {Model : Type} : Run Model bool :=
  fun st => (st, inr (_tts_available st)).

Definition _require_tts {Model : Type} : Run Model unit :=
  fun st =>
    if negb (_tts_available st)
    then (st, inl (TTSUnavailableError (_tts_unavailable_reason st)))
    else (st, inr tt).

(** [_tts_model = model] *)
Definition set_model {Model : Type} (model : Model) : Run Model unit :=
  fun st =>
    ({| _tts_model := Some model;
        _tts_available := _tts_available st;
        _tts_unavailable_reason := _tts_unavailable_reason st;
        progress_calls := progress_calls st |}, inr tt).

(** [_tts_available = False; _tts_unavailable_reason = reason;
    raise TTSUnavailableError(reason)] *)
Definition give_up_with {Model A : Type} (reason : str) : Run Model A :=
  fun st =>
    ({| _tts_model := _tts_model st;
        _tts_available := false;
        _tts_unavailable_reason := reason;
        progress_calls := progress_calls st |},
     inl (TTSUnavailableError reason)).

Definition _get_model {Model : Type} (sys : System Model)
  : Run Model Model :=
  _ <- _require_tts ;;
  fun st =>
    match _tts_model st with
    | Some model => ret model st
    | None =>
        match load_model sys with
        | Loaded model => (_ <- set_model model ;; ret model) st
        | LoadImportError exc =>
            give_up_with (chars "TTS dependencies not installed: " ++ exc) st
        | LoadMemoryError _ =>
            give_up_with
              (chars "Not enough memory to load the TTS model (needs ~2 GB)")
              st
        | LoadException exc =>
            give_up_with (chars "Failed to load TTS model: " ++ exc) st
        end
    end.

(** The message of the [FileNotFoundError] of [synthesize_segment]. *)
Definition reference_missing {Model : Type} (sys : System Model)
    (voice : VoicePersona) : str :=
  chars "Voice reference audio not found for " ++ name voice ++ chars " at "
  ++ path_str sys (reference_audio voice) ++ [nl]
  ++ chars "Please add a 6-10 second WAV file of clear speech to: "
  ++ path_str sys (reference_audio voice) ++ [nl]
  ++ chars "XTTS v2 requires reference audio for voice cloning.".

Definition synthesize_segment {Model : Type} (sys : System Model)
    (segment : SpeakerSegment) (output_dir : option Path)
  : Run Model Path :=
  _ <- _require_tts ;;
  let output_dir := default (segments_path (settings sys)) output_dir in
  _ <- effect (mkdir sys output_dir) ;;
  let voice := get_voice (settings sys) (Data.speaker segment) in
  let output_path := joinpath output_dir (segment_file_name segment) in
  tts <- _get_model sys ;;
  if negb (path_exists sys (reference_audio voice))
  then raise (FileNotFoundError (reference_missing sys voice))
  else
    _ <- effect
           (tts_to_file sys tts (text segment) (path_str sys output_path)
              (path_str sys (reference_audio voice)) (language voice)) ;;
    ret output_path.

(** [on_segment_done(done, total)], recorded. *)
Definition call_on_segment_done {Model : Type} (done total : nat)
  : Run Model unit :=
  fun st =>
    ({| _tts_model := _tts_model st;
        _tts_available := _tts_available st;
        _tts_unavailable_reason := _tts_unavailable_reason st;
        progress_calls := progress_calls st ++ [(done, total)] |}, inr tt).

(** The loop of [synthesize_all] from position [i] on;
    [on_segment_done] tells whether a callback was given. *)
Fixpoint synthesize_from {Model : Type} (sys : System Model)
    (run_dir : Path) (on_segment_done : bool) (total i : nat)
    (segments : list SpeakerSegment) (paths : list Path)
  : Run Model (list Path) :=
  match segments with
  | [] => ret paths
  | segment :: rest =>
      path <- synthesize_segment sys segment (Some run_dir) ;;
      _ <- (if on_segment_done then call_on_segment_done (i + 1) total
            else ret tt) ;;
      synthesize_from sys run_dir on_segment_done total (S i) rest
        (paths ++ [path])
  end.

Definition synthesize_all {Model : Type} (sys : System Model)
    (segments : list SpeakerSegment) (output_dir : option Path)
    (on_segment_done : bool) (run_id : option str)
  : Run Model (list Path * Path) :=
  _ <- _require_tts ;;
  let base_dir := default (segments_path (settings sys)) output_dir in
  let run_id :=
    match run_id with
    | Some r => if truthy r then r else uuid4_hex sys
    | None => uuid4_hex sys
    end in
  let run_dir := joinpath base_dir run_id in
  _ <- effect (mkdir sys run_dir) ;;
  let total := length segments in
  paths <- synthesize_from sys run_dir on_segment_done total 0 segments [] ;;
  ret (paths, run_dir).

(** A decimal digit, and the number that a run of zeros followed by a
    decimal string stands for. *)
Definition is_digit (c : ascii) : bool := in_range 48 57 c.

Definition read_number (s : str) : option nat :=
  Nat.of_uint <$> NilEmpty.uint_of_string (string_of_list_ascii s).

(** Systems for the examples: every directory can be made and every
    synthesis succeeds; [load] and [found] tell what loading the model
    gives and whether the reference files exist. *)
Definition example_system (load : Loading unit) (found : bool)
  : System unit :=
  {| settings :=
       {| voice_a_reference := [chars "voices"; chars "host_a.wav"];
          voice_b_reference := [chars "voices"; chars "host_b.wav"];
          tts_language := chars "en";
          segments_path := [chars "output"; chars "audio"; chars "segments"] |};
     load_model := load;
     mkdir := fun _ => None;
     path_exists := fun _ => found;
     path_str := join (chars "/");
     tts_to_file := fun _ _ _ _ _ => None;
     uuid4_hex := chars "0123456789abcdef0123456789abcdef" |}.

Definition ready_system : System unit := example_system (Loaded tt) true.

Definition no_memory_system : System unit :=
  example_system (LoadMemoryError []) false.

End Engine.

(** ** audio/postprocess.py *)

Module Postprocess.
Import VoiceConfig Engine.

(** [pydub]: [len(audio)] in milliseconds, the slice [audio[a:b]], the
    test [audio.dBFS > silence_thresh], [AudioSegment.from_file(str(path))]
    and [pydub.effects.normalize], the last two with the exception they
    may raise. *)
Record Pydub (Audio : Type) : Type := {
  len : Audio -> Z;
  slice : Audio -> Z -> Z -> Audio;
  louder : Audio -> Z -> bool;
  from_file : Path -> Error + Audio;
  normalize : Audio -> Error + Audio
}.

Arguments len {Audio} _ _.
Arguments slice {Audio} _ _ _ _.
Arguments louder {Audio} _ _ _.
Arguments from_file {Audio} _ _.
Arguments normalize {Audio} _ _.

Section WithAudio.

Context {Audio : Type}.
Variable lib : Pydub Audio.

(** The first loop of [_trim_silence], from [start] on; [None] when the
    fuel is used up before the loop ends. *)
Fixpoint find_start (fuel : nat) (audio : Audio)
    (silence_thresh chunk_size start : Z) : option Z :=
  match fuel with
  | O => None
  | S fuel' =>
      if start <? len lib audio - chunk_size then
        let chunk := slice lib audio start (start + chunk_size) in
        if louder lib chunk silence_thresh then Some start
        else find_start fuel' audio silence_thresh chunk_size
               (start + chunk_size)
      else Some start
  end.

(** The second loop, from [end_] down. *)
Fixpoint find_end (fuel : nat) (audio : Audio)
    (silence_thresh chunk_size end_ : Z) : option Z :=
  match fuel with
  | O => None
  | S fuel' =>
      if chunk_size <? end_ then
        let chunk := slice lib audio (end_ - chunk_size) end_ in
        if louder lib chunk silence_thresh then Some end_
        else find_end fuel' audio silence_thresh chunk_size
               (end_ - chunk_size)
      else Some end_
  end.

Definition _trim_silence (fuel : nat) (audio : Audio)
    (silence_thresh chunk_size : Z) : option Audio :=
  match find_start fuel audio silence_thresh chunk_size 0 with
  | None => None
  | Some start =>
      match find_end fuel audio silence_thresh chunk_size (len lib audio) with
      | None => None
      | Some end_ =>
          if end_ <=? start then Some audio
          else Some (slice lib audio start end_)
      end
  end.

(** The defaults of [silence_thresh] and [chunk_size]. *)
Definition silence_thresh_default : Z := -40.
Definition chunk_size_default : Z := 50.

(** Fuel that is enough for both loops when the chunk size is
    positive. *)
Definition enough (audio : Audio) : nat := S (Z.to_nat (len lib audio)).

(** [postprocess_segment]: [None] when the fuel of [_trim_silence] is
    used up. *)
Definition postprocess_segment (audio_path : Path)
  : option (Error + Audio) :=
  match from_file lib audio_path with
  | inl e => Some (inl e)
  | inr audio =>
      match normalize lib audio with
      | inl e => Some (inl e)
      | inr audio =>
          match _trim_silence (enough audio) audio silence_thresh_default
                  chunk_size_default with
          | Some audio => Some (inr audio)
          | None => None
          end
      end
  end.

(** The loop of [postprocess_all]. *)
Fixpoint postprocess_from (audio_paths : list Path) (segments : list Audio)
  : option (Error + list Audio) :=
  match audio_paths with
  | [] => Some (inr segments)
  | path :: rest =>
      match postprocess_segment path with
      | Some (inr seg) => postprocess_from rest (segments ++ [seg])
      | Some (inl e) => Some (inl e)
      | None => None
      end
  end.

Definition postprocess_all (audio_paths : list Path)
  : option (Error + list Audio) :=
  postprocess_from audio_paths [].

(** The first [i] chunks are all quiet. *)
Definition quiet_head (audio : Audio) (silence_thresh chunk_size i : Z)
  : Prop :=
  forall j, 0 <= j < i ->
    louder lib
      (slice lib audio (j * chunk_size) (j * chunk_size + chunk_size))
      silence_thresh = false.

(** The last [k] chunks are all quiet. *)
Definition quiet_tail (audio : Audio) (silence_thresh chunk_size k : Z)
  : Prop :=
  forall j, 0 <= j < k ->
    louder lib
      (slice lib audio (len lib audio - j * chunk_size - chunk_size)
         (len lib audio - j * chunk_size))
      silence_thresh = false.

End WithAudio.

(** An audio library for the examples: an audio is one loudness flag for
    every millisecond, a chunk is loud when one of its milliseconds is,
    every file holds half a second of silence. *)
Definition flags_slice (a : list bool) (from to : Z) : list bool :=
  take (Z.to_nat (Z.min to (Z.of_nat (length a))) - Z.to_nat from)
    (drop (Z.to_nat from) a).

Definition flags : Pydub (list bool) :=
  {| len := fun a => Z.of_nat (length a);
     slice := flags_slice;
     louder := fun a _ => existsb (fun b => b) a;
     from_file := fun _ => inr (repeat false 500);
     normalize := fun a => inr a |}.

End Postprocess.

(** ** ingestion/parser.py *)

Module Parser.
Import PyStr.

(** The class [[A-Z]]. *)
Definition is_upper (c : ascii) : bool := in_range 65 90 c.

(** [re.split(r"(?<=[.!?])\s+(?=[A-Z])", text)]: the text is cut at every
    maximal run of whitespace that directly follows a terminal mark and
    is directly followed by a capital letter (a shorter part of the run
    is followed by whitespace, so it is no match).  [after_mark] tells
    that the previous character is a terminal mark, [skip] counts the
    characters of the current cut still to be passed.  The head of the
    result is what is left of the piece being read. *)
Fixpoint split_capitals_from (after_mark : bool) (skip : nat) (s : str)
  : list str :=
  match s with
  | [] => [[]]
  | c :: rest =>
      match skip with
      | S k => split_capitals_from false k rest
      | O =>
          if is_space c && after_mark then
            let '(gap, r) := span is_space s in
            match r with
            | d :: _ =>
                if is_upper d
                then [] :: split_capitals_from false (length gap - 1) rest
                else cons_head c (split_capitals_from false 0 rest)
            | [] => cons_head c (split_capitals_from false 0 rest)
            end
          else cons_head c (split_capitals_from (is_terminal c) 0 rest)
      end
  end.

Definition _regex_sentence_split (text : str) : list str :=
  map strip
    (filter (fun s => truthy (strip s) = true)
       (split_capitals_from false 0 text)).

Definition starts_upper (s : str) : bool :=
  match s with
  | [] => false
  | c :: _ => is_upper c
  end.

End Parser.

(** * Properties *)

(** ** Facts on strings *)

Module PyStrFacts.
Import PyStr.

Lemma truthy_true (s : str) : truthy s = true <-> s <> [].
Proof. destruct s; simpl; split; congruence. Qed.

Lemma drop_while_length (p : ascii -> bool) (s : str) :
  (length (drop_while p s) <= length s)%nat.
Proof.
  induction s as [|c s IH]; simpl; [lia|].
  destruct (p c); simpl; lia.
Qed.

Lemma drop_while_fixed (p : ascii -> bool) (c : ascii) (s : str) :
  drop_while p (c :: s) = c :: s <-> p c = false.
Proof.
  simpl. destruct (p c) eqn:E; split; try congruence; intros H.
  pose proof (drop_while_length p s) as L. rewrite H in L. simpl in L. lia.
Qed.

Lemma drop_while_idem (p : ascii -> bool) (s : str) :
  drop_while p (drop_while p s) = drop_while p s.
Proof.
  induction s as [|c s IH]; simpl; [reflexivity|].
  destruct (p c) eqn:E; [exact IH|]. simpl. rewrite E. reflexivity.
Qed.

Lemma rstrip_idem (s : str) : rstrip (rstrip s) = rstrip s.
Proof.
  induction s as [|c s IH]; simpl; [reflexivity|].
  destruct (rstrip s) as [|d r] eqn:E.
  - destruct (is_space c) eqn:Ec; simpl; [reflexivity|].
    rewrite Ec. reflexivity.
  - change (rstrip (c :: d :: r)) with
      (match rstrip (d :: r) with
       | [] => if is_space c then [] else [c]
       | r' => c :: r'
       end).
    rewrite IH. reflexivity.
Qed.

Lemma rstrip_app_fixed (z y : str) :
  rstrip y = y -> y <> [] -> rstrip (z ++ y) = z ++ y.
Proof.
  intros Hy Hne. induction z as [|c z IH]; simpl; [exact Hy|].
  rewrite IH. destruct (z ++ y) eqn:E; [|reflexivity].
  apply app_eq_nil in E. tauto.
Qed.

Lemma rstrip_head (c : ascii) (s : str) :
  is_space c = false -> exists r, rstrip (c :: s) = c :: r.
Proof.
  intros Hc. simpl. destruct (rstrip s) as [|d r].
  - rewrite Hc. eexists; reflexivity.
  - eexists; reflexivity.
Qed.

Lemma strip_tight (s : str) : strip s <> [] -> tight (strip s).
Proof.
  intros Hne. unfold tight, strip in *. repeat split; [| apply rstrip_idem | exact Hne].
  unfold lstrip in *.
  destruct (drop_while is_space s) as [|c t] eqn:E; [reflexivity|].
  assert (Hc : is_space c = false).
  { apply (drop_while_fixed is_space c t). rewrite <- E.
    apply drop_while_idem. }
  destruct (rstrip_head c t Hc) as [r Hr]. rewrite Hr.
  apply drop_while_fixed. exact Hc.
Qed.

Lemma tight_strip (s : str) : tight s -> strip s = s.
Proof. intros (Hl & Hr & _). unfold strip. rewrite Hl. exact Hr. Qed.

Lemma tight_app (x m y : str) : tight x -> tight y -> tight (x ++ m ++ y).
Proof.
  intros (Hlx & _ & Hx) (_ & Hry & Hy). repeat split.
  - destruct x as [|c x]; [congruence|].
    unfold lstrip in *. apply drop_while_fixed in Hlx.
    apply (drop_while_fixed is_space c (x ++ m ++ y)). exact Hlx.
  - rewrite app_assoc. apply rstrip_app_fixed; assumption.
  - intros E. apply app_eq_nil in E. tauto.
Qed.

Lemma tight_join (sep : str) (l : list str) :
  Forall tight l -> l <> [] -> tight (join sep l).
Proof.
  induction 1 as [|x l Hx Hl IH]; [congruence|]. intros _.
  cbn [join]. destruct l as [|y l]; [exact Hx|].
  apply tight_app; [exact Hx|]. apply IH. discriminate.
Qed.

Lemma join_snoc (sep : str) (l : list str) (x : str) :
  join sep (l ++ [x]) =
  match l with [] => x | _ :: _ => join sep l ++ sep ++ x end.
Proof.
  induction l as [|y l IH]; [reflexivity|].
  cbn [app join]. destruct l as [|z l]; [reflexivity|].
  cbn [app] in *. rewrite IH. rewrite <- !app_assoc. reflexivity.
Qed.

Lemma tight_head (s : str) :
  tight s -> exists c r, s = c :: r /\ is_space c = false.
Proof.
  intros (Hl & _ & Hne). destruct s as [|c r]; [congruence|].
  exists c, r. split; [reflexivity|].
  apply (drop_while_fixed is_space c r). exact Hl.
Qed.

Lemma has_ink_app (a b : str) : has_ink (a ++ b) = has_ink a || has_ink b.
Proof. apply existsb_app. Qed.

Lemma has_ink_drop_while (s : str) :
  has_ink (drop_while is_space s) = has_ink s.
Proof.
  induction s as [|c s IH]; [reflexivity|]. simpl.
  destruct (is_space c) eqn:E; [exact IH|]. simpl. rewrite E. reflexivity.
Qed.

Lemma has_ink_rstrip (s : str) : has_ink (rstrip s) = has_ink s.
Proof.
  induction s as [|c s IH]; [reflexivity|]. simpl.
  destruct (rstrip s) as [|d r] eqn:E.
  - rewrite <- IH. destruct (is_space c) eqn:Ec; simpl; rewrite ?Ec; reflexivity.
  - rewrite <- IH. reflexivity.
Qed.

Lemma has_ink_strip (s : str) : has_ink (strip s) = has_ink s.
Proof.
  unfold strip, lstrip. rewrite has_ink_rstrip. apply has_ink_drop_while.
Qed.

Lemma has_ink_nonempty (s : str) : has_ink s = true -> s <> [].
Proof. destruct s; [discriminate|congruence]. Qed.

Lemma has_ink_cons_head (c : ascii) (l : list str) :
  existsb has_ink (cons_head c l) = negb (is_space c) || existsb has_ink l.
Proof.
  destruct l as [|x l]; simpl.
  - rewrite !orb_false_r. reflexivity.
  - rewrite orb_assoc. reflexivity.
Qed.

Lemma split_sentences_from_ink (a b : bool) (s : str) :
  existsb has_ink (split_sentences_from a b s) = has_ink s.
Proof.
  revert a b. induction s as [|c s IH]; intros a b; [reflexivity|].
  cbn [split_sentences_from].
  destruct (is_space c) eqn:Ec; cbn [andb].
  - destruct b.
    + rewrite IH. simpl. rewrite Ec. reflexivity.
    + destruct a; [|rewrite has_ink_cons_head, IH; simpl; rewrite Ec; reflexivity].
      cbn [existsb has_ink]. rewrite IH. simpl. rewrite Ec. reflexivity.
  - rewrite has_ink_cons_head, IH. simpl. rewrite Ec. reflexivity.
Qed.

(** *** Character classes and [span] *)

Lemma ch_eqb_eq (a b : ascii) : ch_eqb a b = true <-> a = b.
Proof. apply Ascii.eqb_eq. Qed.

Lemma ch_eqb_neq (a b : ascii) : ch_eqb a b = false <-> a <> b.
Proof. apply Ascii.eqb_neq. Qed.

Lemma space_not_word (c : ascii) : is_space c = true -> is_word c = false.
Proof.
  destruct c as [[] [] [] [] [] [] [] []]; vm_compute; congruence.
Qed.

Lemma word_not_space (c : ascii) : is_word c = true -> is_space c = false.
Proof.
  intros H. destruct (is_space c) eqn:E; [|reflexivity].
  apply space_not_word in E. congruence.
Qed.

Lemma span_eq (p : ascii -> bool) (s a b : str) :
  span p s = (a, b) -> s = a ++ b.
Proof.
  revert a b. induction s as [|c s IH]; intros a b; cbn.
  - intros [= <- <-]. reflexivity.
  - destruct (p c).
    + destruct (span p s) as [a' b']. intros [= <- <-].
      cbn. f_equal. apply IH. reflexivity.
    + intros [= <- <-]. reflexivity.
Qed.

Lemma span_all (p : ascii -> bool) (s a b : str) :
  span p s = (a, b) -> forallb p a = true.
Proof.
  revert a b. induction s as [|c s IH]; intros a b; cbn.
  - intros [= <- <-]. reflexivity.
  - destruct (p c) eqn:E.
    + destruct (span p s) as [a' b']. intros [= <- <-].
      cbn. rewrite E. eapply IH. reflexivity.
    + intros [= <- <-]. reflexivity.
Qed.

Lemma span_stop (p : ascii -> bool) (s a : str) (c : ascii) (b : str) :
  span p s = (a, c :: b) -> p c = false.
Proof.
  revert a. induction s as [|d s IH]; intros a; cbn.
  - intros [=].
  - destruct (p d) eqn:E.
    + destruct (span p s) as [a' b']. intros [= <- ->].
      eapply IH. reflexivity.
    + intros [= <- <- <-]. exact E.
Qed.

Lemma span_app (p : ascii -> bool) (a b : str) :
  forallb p a = true -> stops p b -> span p (a ++ b) = (a, b).
Proof.
  intros Ha Hb. induction a as [|c a IH]; cbn.
  - destruct b as [|d b]; [reflexivity|]. cbn in Hb. cbn. rewrite Hb.
    reflexivity.
  - cbn in Ha. apply andb_true_iff in Ha. destruct Ha as [Hc Ha].
    rewrite Hc, (IH Ha). reflexivity.
Qed.

(** What follows a string does not matter to [span] once a character
    that stops it comes. *)
Lemma span_app_stop (p : ascii -> bool) (x : str) (c : ascii) (y : str) :
  p c = false ->
  span p (x ++ c :: y) = (fst (span p x), snd (span p x) ++ c :: y).
Proof.
  intros Hc. destruct (span p x) as [a b] eqn:E. cbn [fst snd].
  pose proof (span_eq _ _ _ _ E) as ->.
  rewrite <- app_assoc. apply span_app.
  - eapply span_all. exact E.
  - destruct b as [|d b]; cbn; [exact Hc|]. eapply span_stop. exact E.
Qed.

Lemma span_self (p : ascii -> bool) (a : str) :
  forallb p a = true -> span p a = (a, []).
Proof.
  intros Ha. rewrite <- (app_nil_r a) at 1. apply span_app; [exact Ha|exact I].
Qed.

Lemma forallb_head_stops (p q : ascii -> bool) (a b : str) :
  (forall c, p c = true -> q c = false) ->
  forallb p a = true -> a <> [] -> stops q (a ++ b).
Proof.
  intros Hpq Ha Hne. destruct a as [|c a]; [congruence|].
  cbn in *. apply andb_true_iff in Ha. apply Hpq. tauto.
Qed.

(** Two ways of cutting a string at a character that occurs in neither
    front part agree. *)
Lemma cut_unique (c : ascii) (x x' y y' : str) :
  ~ In c x -> ~ In c x' -> x ++ c :: y = x' ++ c :: y' -> x = x' /\ y = y'.
Proof.
  revert x'. induction x as [|a x IH]; intros [|a' x'] Hx Hx'; cbn.
  - intros [= <-]. auto.
  - intros [= <- _]. exfalso. apply Hx'. left. reflexivity.
  - intros [= -> _]. exfalso. apply Hx. left. reflexivity.
  - intros [= <- E]. destruct (IH x') as [-> ->]; auto.
    + intros H. apply Hx. right. exact H.
    + intros H. apply Hx'. right. exact H.
Qed.

Lemma drop_while_app_stop (p : ascii -> bool) (a : str) (c : ascii)
    (z : str) :
  p c = false ->
  drop_while p (a ++ c :: z) = drop_while p a ++ c :: z.
Proof.
  intros Hc. induction a as [|d a IH]; cbn.
  - rewrite Hc. reflexivity.
  - destruct (p d); [exact IH | reflexivity].
Qed.

Lemma rstrip_ink_nonempty (c : ascii) (b : str) :
  is_space c = false -> rstrip (c :: b) = c :: rstrip b.
Proof.
  intros Hc. cbn. destruct (rstrip b); [rewrite Hc|]; reflexivity.
Qed.

Lemma rstrip_app_ink (x : str) (c : ascii) (b : str) :
  is_space c = false -> rstrip (x ++ c :: b) = x ++ c :: rstrip b.
Proof.
  intros Hc. induction x as [|d x IH].
  - apply rstrip_ink_nonempty. exact Hc.
  - cbn [app rstrip]. rewrite IH.
    destruct (x ++ c :: rstrip b) eqn:E; [|reflexivity].
    apply app_eq_nil in E. destruct E; discriminate.
Qed.

Lemma strip_around (a : str) (c : ascii) (m : str) (d : ascii) (b : str) :
  is_space c = false -> is_space d = false ->
  strip (a ++ c :: m ++ d :: b) = lstrip a ++ c :: m ++ d :: rstrip b.
Proof.
  intros Hc Hd. unfold strip, lstrip.
  rewrite drop_while_app_stop by exact Hc.
  replace (drop_while is_space a ++ c :: m ++ d :: b)
    with ((drop_while is_space a ++ c :: m) ++ d :: b)
    by (rewrite <- app_assoc; reflexivity).
  rewrite rstrip_app_ink by exact Hd.
  rewrite <- app_assoc. reflexivity.
Qed.

(** *** The characters that are not whitespace *)

Lemma ink_of_app (a b : str) : ink_of (a ++ b) = ink_of a ++ ink_of b.
Proof. apply List.filter_app. Qed.

Lemma ink_of_drop_while (s : str) : ink_of (drop_while is_space s) = ink_of s.
Proof.
  induction s as [|c s IH]; [reflexivity|]. cbn [drop_while].
  destruct (is_space c) eqn:E; [|reflexivity].
  rewrite IH. cbn. rewrite E. reflexivity.
Qed.

Lemma ink_of_rstrip (s : str) : ink_of (rstrip s) = ink_of s.
Proof.
  induction s as [|c s IH]; [reflexivity|]. cbn [rstrip].
  destruct (rstrip s) as [|d r] eqn:E.
  - change (ink_of (c :: s)) with (ink_of ([c] ++ s)).
    rewrite ink_of_app, <- IH, app_nil_r.
    destruct (is_space c) eqn:Ec; cbn; rewrite Ec; reflexivity.
  - change (ink_of (c :: d :: r)) with (ink_of ([c] ++ d :: r)).
    change (ink_of (c :: s)) with (ink_of ([c] ++ s)).
    rewrite !ink_of_app, IH. reflexivity.
Qed.

Lemma ink_of_strip (s : str) : ink_of (strip s) = ink_of s.
Proof.
  unfold strip, lstrip. rewrite ink_of_rstrip. apply ink_of_drop_while.
Qed.

Lemma concat_cons_head (c : ascii) (l : list str) :
  concat (cons_head c l) = c :: concat l.
Proof. destruct l; reflexivity. Qed.

Lemma strip_no_ink (s : str) : truthy (strip s) = false -> ink_of s = [].
Proof.
  intros H. rewrite <- ink_of_strip. destruct (strip s); [reflexivity|].
  discriminate.
Qed.

Lemma ink_of_space (c : ascii) (s : str) :
  is_space c = true -> ink_of (c :: s) = ink_of s.
Proof. intros H. cbn. rewrite H. reflexivity. Qed.

Lemma ink_of_ink (c : ascii) (s : str) :
  is_space c = false -> ink_of (c :: s) = c :: ink_of s.
Proof. intros H. cbn. rewrite H. reflexivity. Qed.

Lemma span_space_cons (c : ascii) (rest : str) :
  is_space c = true ->
  span is_space (c :: rest)
  = (c :: fst (span is_space rest), snd (span is_space rest)).
Proof.
  intros Hc. cbn [span]. rewrite Hc.
  destruct (span is_space rest). reflexivity.
Qed.

End PyStrFacts.

(** ** The pipeline controller *)

Module GraphSpec.
Import PyStr Graph.

Lemma validated_truthy (msg : string) (r : outcome (option str)) (s : str) :
  validated msg r = Returns s -> truthy s = true.
Proof.
  unfold validated.
  destruct r as [[script|]|e]; try discriminate.
  destruct script as [|c script]; simpl; [discriminate|].
  destruct (length (strip (c :: script)) =? 0)%nat; [discriminate|].
  intros [= <-]. reflexivity.
Qed.

Lemma carried_truthy (r : outcome str) (prev : str) :
  (forall s, r = Returns s -> truthy s = true) ->
  truthy prev = true -> truthy (carried r prev) = true.
Proof.
  intros Hr Hprev. destruct r as [s|e]; simpl; [|exact Hprev].
  apply Hr. reflexivity.
Qed.

Lemma check_accuracy_truthy (llm : LLM) (a b s : str) :
  check_accuracy llm a b = Returns s -> truthy s = true.
Proof. apply validated_truthy. Qed.

Lemma enhance_storytelling_truthy (llm : LLM) (a s : str) :
  enhance_storytelling llm a = Returns s -> truthy s = true.
Proof. apply validated_truthy. Qed.

Lemma run_pipeline_unfold (llm : LLM) (t c k : str) :
  run_pipeline llm t c k =
  let s1 := node_generate_script llm (initial_state t c k) in
  match should_continue s1 with
  | route_abort => Some ([generate_script_node], s1)
  | route_continue =>
      Some ([generate_script_node; accuracy_check_node; storytelling_node;
             engagement_node],
            node_engagement llm
              (node_storytelling llm (node_accuracy_check llm s1)))
  end.
Proof.
  unfold run_pipeline, entry_point. cbn [invoke run_node next_node].
  destruct (should_continue _); reflexivity.
Qed.

Lemma accuracy_check_fields (llm : LLM) (s : GraphState) (g : str) :
  raw_script s = Some g -> truthy g = true ->
  let s' := node_accuracy_check llm s in
  raw_script s' = Some g
  /\ accuracy_checked_script s' =
       Some (carried (check_accuracy llm g (collection_name s)) g).
Proof.
  intros Hraw Hg. unfold node_accuracy_check. cbv zeta. rewrite Hraw. cbn [default from_option id].
  rewrite Hg. cbn [negb].
  destruct (check_accuracy llm g (collection_name s)); cbn; auto.
Qed.

Lemma storytelling_fields (llm : LLM) (s : GraphState) (g v : str) :
  raw_script s = Some g -> accuracy_checked_script s = Some v ->
  truthy v = true ->
  let s' := node_storytelling llm s in
  raw_script s' = Some g
  /\ accuracy_checked_script s' = Some v
  /\ enhanced_script s' = Some (carried (enhance_storytelling llm v) v).
Proof.
  intros Hraw Hacc Hv. unfold node_storytelling. cbv zeta. rewrite Hacc. cbn [default from_option id].
  rewrite Hv. cbn [negb].
  destruct (enhance_storytelling llm v); cbn; auto.
Qed.

Lemma engagement_fields (llm : LLM) (s : GraphState) (g v e : str) :
  raw_script s = Some g -> accuracy_checked_script s = Some v ->
  enhanced_script s = Some e -> truthy e = true ->
  let s' := node_engagement llm s in
  raw_script s' = Some g
  /\ accuracy_checked_script s' = Some v
  /\ enhanced_script s' = Some e
  /\ final_script s' = Some (carried (optimize_engagement llm e) e).
Proof.
  intros Hraw Hacc Henh He. unfold node_engagement. cbv zeta. rewrite Henh.
  cbn [default from_option id]. rewrite He. cbn [negb].
  destruct (optimize_engagement llm e); cbn; auto.
Qed.

(** C1. When script generation fails the run stops right after the first
    node (Aborted) with an empty raw script, an empty final script and at
    least one error.  When it succeeds the run goes through all four
    nodes (Completed); the field of every later stage holds that stage's
    output, or on its failure the output of the stage before it, and the
    final script is the output of the last stage that succeeded. *)
Theorem pipeline_abort_or_degrade (llm : LLM) (t c k : str) :
  match generate_script llm t c k with
  | Raises e =>
      exists final errs,
        run_pipeline llm t c k = Some ([generate_script_node], final)
        /\ terminal_of [generate_script_node] = Some Aborted
        /\ raw_script final = Some []
        /\ final_script final = Some []
        /\ errors final = Some errs /\ errs <> []
  | Returns generated =>
      let verify := check_accuracy llm generated k in
      let verified := carried verify generated in
      let enhance := enhance_storytelling llm verified in
      let enhanced := carried enhance verified in
      let polish := optimize_engagement llm enhanced in
      let polished := carried polish enhanced in
      exists ran final,
        run_pipeline llm t c k = Some (ran, final)
        /\ terminal_of ran = Some Completed
        /\ raw_script final = Some generated
        /\ accuracy_checked_script final = Some verified
        /\ enhanced_script final = Some enhanced
        /\ final_script final = Some polished
        /\ polished = last_successful_output generated verify enhance polish
  end.
Proof.
  rewrite run_pipeline_unfold. unfold node_generate_script.
  cbn [title content collection_name initial_state].
  destruct (generate_script llm t c k) as [generated|e] eqn:Egen.
  - assert (Hg : truthy generated = true)
      by (eapply validated_truthy; exact Egen).
    cbv zeta.
    set (s1 := set_raw_script generated (initial_state t c k)).
    assert (Hcont : should_continue s1 = route_continue).
    { unfold should_continue, s1. cbn [raw_script set_raw_script default from_option id].
      rewrite Hg. reflexivity. }
    rewrite Hcont.
    destruct (accuracy_check_fields llm s1 generated eq_refl Hg)
      as [Hr2 Ha2].
    change (collection_name s1) with k in Ha2.
    pose proof (carried_truthy _ generated
                  (check_accuracy_truthy llm generated k) Hg) as Hv.
    destruct (storytelling_fields llm _ _ _ Hr2 Ha2 Hv) as (Hr3 & Ha3 & He3).
    pose proof (carried_truthy _ _
                  (enhance_storytelling_truthy llm
                     (carried (check_accuracy llm generated k) generated))
                  Hv) as He.
    destruct (engagement_fields llm _ _ _ _ Hr3 Ha3 He3 He)
      as (Hr4 & Ha4 & He4 & Hf4).
    eexists _, _. split; [reflexivity|]. split; [reflexivity|].
    repeat split; assumption.
  - eexists _, _. cbn. repeat split. discriminate.
Qed.

(** *** The errors and the script of a run *)

Import Routes.

Lemma validated_usable (msg : string) (r : outcome (option str)) (s : str) :
  validated msg r = Returns s -> is_empty_script s = false.
Proof.
  unfold validated, is_empty_script.
  destruct r as [[script|]|e]; try discriminate.
  destruct (negb (truthy script) || (length (strip script) =? 0)%nat) eqn:E;
    [discriminate|].
  intros [= <-]. apply orb_false_iff in E. destruct E as [E1 E2].
  rewrite E1. cbn [orb].
  destruct (strip script); [discriminate|reflexivity].
Qed.

Lemma carried_usable (r : outcome str) (prev : str) :
  (forall s, r = Returns s -> is_empty_script s = false) ->
  is_empty_script prev = false -> is_empty_script (carried r prev) = false.
Proof.
  intros Hr Hprev. destruct r as [s|e]; simpl; [|exact Hprev].
  apply Hr. reflexivity.
Qed.

Lemma accuracy_check_errors (llm : LLM) (s : GraphState) (g : str)
    (l : list str) :
  raw_script s = Some g -> truthy g = true -> errors s = Some l ->
  errors (node_accuracy_check llm s)
  = Some (l ++ stage_errors "Accuracy check: "
                 (check_accuracy llm g (collection_name s))).
Proof.
  intros Hraw Hg He. unfold node_accuracy_check. cbv zeta. rewrite Hraw.
  cbn [default from_option id]. rewrite Hg. cbn [negb].
  destruct (check_accuracy llm g (collection_name s)); cbn.
  - rewrite app_nil_r. exact He.
  - unfold errors_plus. rewrite He. reflexivity.
Qed.

Lemma storytelling_errors (llm : LLM) (s : GraphState) (v : str)
    (l : list str) :
  accuracy_checked_script s = Some v -> truthy v = true ->
  errors s = Some l ->
  errors (node_storytelling llm s)
  = Some (l ++ stage_errors "Storytelling: " (enhance_storytelling llm v)).
Proof.
  intros Hacc Hv He. unfold node_storytelling. cbv zeta. rewrite Hacc.
  cbn [default from_option id]. rewrite Hv. cbn [negb].
  destruct (enhance_storytelling llm v); cbn.
  - rewrite app_nil_r. exact He.
  - unfold errors_plus. rewrite He. reflexivity.
Qed.

Lemma engagement_errors (llm : LLM) (s : GraphState) (e : str)
    (l : list str) :
  enhanced_script s = Some e -> truthy e = true -> errors s = Some l ->
  errors (node_engagement llm s)
  = Some (l ++ stage_errors "Engagement: " (optimize_engagement llm e)).
Proof.
  intros Henh Ht He. unfold node_engagement. cbv zeta. rewrite Henh.
  cbn [default from_option id]. rewrite Ht. cbn [negb].
  destruct (optimize_engagement llm e); cbn.
  - rewrite app_nil_r. exact He.
  - unfold errors_plus. rewrite He. reflexivity.
Qed.

(** The state after the four nodes, generation having returned. *)
Lemma completed_run (llm : LLM) (t c k generated : str) :
  generate_script llm t c k = Returns generated ->
  let verify := check_accuracy llm generated k in
  let verified := carried verify generated in
  let enhance := enhance_storytelling llm verified in
  let enhanced := carried enhance verified in
  let polish := optimize_engagement llm enhanced in
  exists final,
    run_pipeline llm t c k
    = Some ([generate_script_node; accuracy_check_node; storytelling_node;
             engagement_node], final)
    /\ final_script final = Some (carried polish enhanced)
    /\ errors final
       = Some (stage_errors "Accuracy check: " verify
               ++ stage_errors "Storytelling: " enhance
               ++ stage_errors "Engagement: " polish).
Proof.
  intros Egen. cbv zeta.
  rewrite run_pipeline_unfold. unfold node_generate_script.
  cbn [title content collection_name initial_state]. rewrite Egen.
  assert (Hg : truthy generated = true)
    by (eapply validated_truthy; exact Egen).
  cbv zeta.
  set (s1 := set_raw_script generated (initial_state t c k)).
  assert (Hcont : should_continue s1 = route_continue).
  { unfold should_continue, s1.
    cbn [raw_script set_raw_script default from_option id].
    rewrite Hg. reflexivity. }
  rewrite Hcont.
  destruct (accuracy_check_fields llm s1 generated eq_refl Hg) as [Hr2 Ha2].
  pose proof (accuracy_check_errors llm s1 generated [] eq_refl Hg eq_refl)
    as He2.
  change (collection_name s1) with k in Ha2, He2.
  pose proof (carried_truthy _ generated
                (check_accuracy_truthy llm generated k) Hg) as Hv.
  destruct (storytelling_fields llm _ _ _ Hr2 Ha2 Hv) as (Hr3 & Ha3 & He3).
  pose proof (storytelling_errors llm _ _ _ Ha2 Hv He2) as Hs3.
  pose proof (carried_truthy _ _
                (enhance_storytelling_truthy llm
                   (carried (check_accuracy llm generated k) generated))
                Hv) as He.
  destruct (engagement_fields llm _ _ _ _ Hr3 Ha3 He3 He)
    as (Hr4 & Ha4 & He4 & Hf4).
  pose proof (engagement_errors llm _ _ _ He3 He Hs3) as Hs4.
  eexists. split; [reflexivity|]. split; [exact Hf4|].
  rewrite Hs4. cbn [app]. rewrite <- app_assoc. reflexivity.
Qed.

Lemma aborted_run (llm : LLM) (t c k e : str) :
  generate_script llm t c k = Raises e ->
  exists final,
    run_pipeline llm t c k = Some ([generate_script_node], final)
    /\ raw_script final = Some [] /\ final_script final = Some []
    /\ errors final = Some [chars "Script generation: " ++ e].
Proof.
  intros Egen. rewrite run_pipeline_unfold. unfold node_generate_script.
  cbn [title content collection_name initial_state]. rewrite Egen.
  eexists. cbn. repeat split.
Qed.

(** X1. The errors of a run name the stages that failed, in order. *)
Theorem errors_name_failed_stages (llm : LLM) (t c k : str) :
  exists ran final,
    run_pipeline llm t c k = Some (ran, final)
    /\ errors final
       = Some
           match generate_script llm t c k with
           | Raises e => [chars "Script generation: " ++ e]
           | Returns generated =>
               let verify := check_accuracy llm generated k in
               let verified := carried verify generated in
               let enhance := enhance_storytelling llm verified in
               let enhanced := carried enhance verified in
               let polish := optimize_engagement llm enhanced in
               stage_errors "Accuracy check: " verify
               ++ stage_errors "Storytelling: " enhance
               ++ stage_errors "Engagement: " polish
           end.
Proof.
  destruct (generate_script llm t c k) as [generated|e] eqn:Egen.
  - destruct (completed_run llm t c k generated Egen) as (final & H1 & _ & H3).
    eexists _, final. split; [exact H1 | exact H3].
  - destruct (aborted_run llm t c k e Egen) as (final & H1 & _ & _ & H3).
    eexists _, final. split; [exact H1 | exact H3].
Qed.

(** X2. No error is reported exactly when all four agents returned. *)
Theorem no_errors_iff_all_stages_returned (llm : LLM) (t c k : str) :
  exists ran final,
    run_pipeline llm t c k = Some (ran, final)
    /\ (errors final = Some [] <->
        exists generated verified enhanced polished,
          generate_script llm t c k = Returns generated
          /\ check_accuracy llm generated k = Returns verified
          /\ enhance_storytelling llm verified = Returns enhanced
          /\ optimize_engagement llm enhanced = Returns polished
          /\ final_script final = Some polished).
Proof.
  destruct (generate_script llm t c k) as [generated|e] eqn:Egen.
  - destruct (completed_run llm t c k generated Egen) as (final & H1 & H2 & H3).
    eexists _, final. split; [exact H1|]. rewrite H3, H2. clear H1 H2 H3.
    destruct (check_accuracy llm generated k) as [v|ev] eqn:Ev;
      cbn [carried stage_errors app].
    + destruct (enhance_storytelling llm v) as [en|ee] eqn:Ee;
        cbn [carried stage_errors app].
      * destruct (optimize_engagement llm en) as [p|ep] eqn:Ep;
          cbn [carried stage_errors app].
        -- split; [intros _|reflexivity].
           exists generated, v, en, p. repeat split; assumption.
        -- split; [discriminate|].
           intros (g' & v' & en' & p' & [= <-] & Hv & He & Hp & _).
           rewrite Ev in Hv. injection Hv as <-.
           rewrite Ee in He. injection He as <-.
           rewrite Ep in Hp. discriminate.
      * split; [discriminate|].
        intros (g' & v' & en' & p' & [= <-] & Hv & He & _).
        rewrite Ev in Hv. injection Hv as <-.
        rewrite Ee in He. discriminate.
    + split; [discriminate|].
      intros (g' & v' & en' & p' & [= <-] & Hv & _).
      rewrite Ev in Hv. discriminate.
  - destruct (aborted_run llm t c k e Egen) as (final & H1 & _ & _ & H3).
    eexists _, final. split; [exact H1|]. rewrite H3.
    split; [discriminate|].
    intros (g' & _ & _ & _ & Hg & _). discriminate.
Qed.

(** X3. The callers' test for an empty script fires exactly on aborted runs. *)
Theorem empty_script_iff_generation_failed (llm : LLM) (t c k : str) :
  exists ran final,
    run_pipeline llm t c k = Some (ran, final)
    /\ is_empty_script (final_script_of final)
       = match generate_script llm t c k with
         | Raises _ => true
         | Returns _ => false
         end.
Proof.
  destruct (generate_script llm t c k) as [generated|e] eqn:Egen.
  - destruct (completed_run llm t c k generated Egen) as (final & H1 & H2 & _).
    eexists _, final. split; [exact H1|].
    unfold final_script_of. rewrite H2. cbn [default from_option id].
    assert (Hg : is_empty_script generated = false)
      by (eapply validated_usable; exact Egen).
    apply carried_usable; [intros s; apply validated_usable|].
    apply carried_usable; [intros s; apply validated_usable|].
    apply carried_usable; [intros s; apply validated_usable|].
    exact Hg.
  - destruct (aborted_run llm t c k e Egen) as (final & H1 & _ & H2 & _).
    eexists _, final. split; [exact H1|].
    unfold final_script_of. rewrite H2. reflexivity.
Qed.

End GraphSpec.

(** ** The timeline sequencer *)

Module AssemblerSpec.
Import PyStr Data Assembler.

Section WithAudio.

Context {Audio : Type}.
Variable len : Audio -> Z.

Lemma speaker_eqb_sym (a b : Speaker) : speaker_eqb a b = speaker_eqb b a.
Proof. destruct a, b; reflexivity. Qed.

Lemma fold_assemble_step (pause_ms : Z) (spans : list Audio)
    (turns : list SpeakerSegment) (podcast : list (Span Audio))
    (prev : option SpeakerSegment) :
  fst (fold_left (assemble_step Audio pause_ms) (zip spans turns)
         (podcast, speaker <$> prev))
  = podcast ++ appended Audio pause_ms prev spans turns.
Proof.
  revert turns podcast prev.
  induction spans as [|a spans IH]; intros [|t turns] podcast prev;
    cbn [zip fold_left appended]; try (symmetry; apply app_nil_r).
  unfold assemble_step at 2.
  change (Some (speaker t)) with (speaker <$> Some t).
  rewrite IH. unfold has_pause_cue.
  destruct prev as [p|]; cbn [fmap option_fmap option_map].
  - rewrite (speaker_eqb_sym (speaker t) (speaker p)).
    destruct (speaker_eqb (speaker p) (speaker t)),
      (bool_decide (chars "pause" ∈ cues t)); cbn [negb];
      rewrite <- ?app_assoc; reflexivity.
  - destruct (bool_decide (chars "pause" ∈ cues t));
      rewrite <- ?app_assoc; reflexivity.
Qed.

Lemma zip_take {A B : Type} (l : list A) (k : list B) :
  zip (take (min (length l) (length k)) l) (take (min (length l) (length k)) k)
  = zip l k.
Proof.
  revert k. induction l as [|a l IH]; intros [|b k]; cbn; try reflexivity.
  f_equal. apply IH.
Qed.

Lemma rule_from (pause_ms : Z) (pa : list Audio) (pt : list SpeakerSegment)
    (spans : list Audio) (turns : list SpeakerSegment) :
  length pa = length pt -> length spans = length turns ->
  concat (map (rule_at Audio pause_ms (pa ++ spans) (pt ++ turns))
            (seq (length pa) (length spans)))
  = appended Audio pause_ms (last pt) spans turns.
Proof.
  revert turns pa pt.
  induction spans as [|a spans IH]; intros [|t turns] pa pt Hp Hl;
    try discriminate; [reflexivity|].
  cbn [length seq map concat appended].
  specialize (IH turns (pa ++ [a]) (pt ++ [t])).
  rewrite <- !app_assoc in IH. cbn [app] in IH.
  rewrite !length_app in IH. cbn [length] in IH.
  rewrite last_snoc in IH.
  replace (S (length pa)) with (length pa + 1)%nat by lia.
  rewrite IH by (cbn in Hl; lia). clear IH.
  assert (Hat :
    rule_at Audio pause_ms (pa ++ a :: spans) (pt ++ t :: turns) (length pa)
    = match last pt with
      | Some p =>
          if speaker_eqb (speaker p) (speaker t) then []
          else [Silence pause_ms]
      | None => []
      end
      ++ (if bool_decide (chars "pause" ∈ cues t) then [Silence 800] else [])
      ++ [Clip a]).
  { unfold rule_at.
    rewrite (lookup_app_r pa) by lia.
    rewrite (lookup_app_r pt (t :: turns) (length pa)) by lia.
    replace (length pa - length pa)%nat with 0%nat by lia.
    replace (length pa - length pt)%nat with 0%nat by lia.
    cbn [lookup list_lookup].
    destruct pt as [|q pt _] using rev_ind.
    - destruct pa; [|discriminate]. reflexivity.
    - rewrite length_app in Hp. cbn in Hp.
      rewrite last_snoc.
      replace (length pa) with (S (length pt)) by lia.
      rewrite <- app_assoc. rewrite lookup_app_r by lia.
      replace (length pt - length pt)%nat with 0%nat by lia.
      reflexivity. }
  rewrite Hat. rewrite <- !app_assoc. reflexivity.
Qed.

Lemma assemble_podcast_appended (intro outro : option Audio) (setting : Z)
    (spans : list Audio) (turns : list SpeakerSegment) (pause_ms : option Z) :
  assemble_podcast Audio len intro outro setting spans turns pause_ms
  = Returns
      (around Audio (audible Audio len intro) (audible Audio len outro)
         (appended Audio (pause_or_default pause_ms setting) None spans
            turns)).
Proof.
  unfold assemble_podcast, around, audible.
  pose proof (fold_assemble_step (pause_or_default pause_ms setting)
                spans turns) as Hfold.
  set (start :=
         match intro with
         | Some a =>
             if truthy_audio Audio len a then [] ++ [Clip a] ++ [Silence 500]
             else []
         | None => []
         end).
  specialize (Hfold start None).
  cbn [fmap option_fmap option_map] in Hfold.
  destruct (fold_left _ _ _) as [podcast prev]. cbn [fst] in Hfold.
  subst podcast. unfold start. clear start. f_equal.
  destruct intro as [i|]; [destruct (truthy_audio Audio len i)|];
    (destruct outro as [o|]; [destruct (truthy_audio Audio len o)|]);
    cbn [app]; rewrite <- ?app_assoc, ?app_nil_r; reflexivity.
Qed.

(** C2, as the code has it.  A call with lists of different lengths is
    not rejected: the function returns, and what it returns is the
    timeline of the two lists cut to the length of the shorter one. *)
Theorem mismatched_lengths_are_truncated
    (intro outro : option Audio) (setting : Z) (spans : list Audio)
    (turns : list SpeakerSegment) (pause_ms : option Z) :
  let n := min (length spans) (length turns) in
  (exists podcast,
     assemble_podcast Audio len intro outro setting spans turns pause_ms
     = Returns podcast)
  /\ assemble_podcast Audio len intro outro setting spans turns pause_ms
     = assemble_podcast Audio len intro outro setting
         (take n spans) (take n turns) pause_ms.
Proof.
  cbv zeta. unfold assemble_podcast. rewrite zip_take.
  split; [|reflexivity].
  destruct (fold_left _ _ _). eexists. reflexivity.
Qed.

(** C9, as the code has it.  For index-aligned sequences the assembled
    timeline is, between the intro and the outro (each only when it was
    loaded and is not a clip of 0 ms), the concatenation over all
    positions of: a silence of the effective pause when the previous turn
    has another speaker, then a silence of 800 ms when the turn has the
    cue "pause", then the span itself.  The effective pause is [pause_ms]
    when it is given and is not zero, and the configured pause
    otherwise. *)
Theorem timeline_follows_pause_rule
    (intro outro : option Audio) (setting : Z) (spans : list Audio)
    (turns : list SpeakerSegment) (pause_ms : option Z) :
  length spans = length turns ->
  let effective :=
    match pause_ms with
    | Some p => if p =? 0 then setting else p
    | None => setting
    end in
  assemble_podcast Audio len intro outro setting spans turns pause_ms
  = Returns
      (around Audio (audible Audio len intro) (audible Audio len outro)
         (rule_timeline Audio effective spans turns)).
Proof.
  intros Hlen effective. rewrite assemble_podcast_appended.
  unfold rule_timeline.
  pose proof (rule_from effective [] [] spans turns eq_refl Hlen) as Hrule.
  cbn [app length last] in Hrule. rewrite Hrule.
  unfold effective, pause_or_default. destruct pause_ms; reflexivity.
Qed.

End WithAudio.

(** C2 fails as stated: two spans with one turn are assembled into a
    timeline, no exception is raised. *)
Lemma mismatched_lengths_not_rejected :
  length [1%nat; 2%nat] <> length [turn_a]
  /\ assemble_podcast nat ms None None 400 [1%nat; 2%nat] [turn_a] None
     = Returns [Clip 1%nat].
Proof. split; [discriminate | reflexivity]. Qed.

(** C9 fails as stated: with a pause of 0 ms the silence at the change
    of speaker is not of 0 ms, it is the configured pause of 400 ms. *)
Lemma zero_pause_is_replaced :
  assemble_podcast nat ms None None 400 [1%nat; 2%nat] [turn_a; turn_b]
    (Some 0)
  = Returns [Clip 1%nat; Silence 400; Silence 800; Clip 2%nat]
  /\ rule_timeline nat 0 [1%nat; 2%nat] [turn_a; turn_b]
     = [Clip 1%nat; Silence 0; Silence 800; Clip 2%nat]
  /\ assemble_podcast nat ms None None 400 [1%nat; 2%nat] [turn_a; turn_b]
       (Some 0)
     <> Returns
          (around nat None None
             (rule_timeline nat 0 [1%nat; 2%nat] [turn_a; turn_b])).
Proof.
  split; [reflexivity|]. split; [reflexivity|]. discriminate.
Qed.

Lemma timeline_follows_pause_rule_witness :
  assemble_podcast nat ms None None 400 [1%nat; 2%nat] [turn_a; turn_b] None
  = Returns [Clip 1%nat; Silence 400; Silence 800; Clip 2%nat].
Proof.
  rewrite (timeline_follows_pause_rule ms None None 400 [1%nat; 2%nat]
             [turn_a; turn_b] None eq_refl).
  reflexivity.
Defined.

(** An intro of 0 ms is left out with its silence; an outro of 100 ms is
    added after a silence of half a second. *)
Example empty_intro_is_left_out :
  assemble_podcast nat ms (Some 0%nat) (Some 100%nat) 400 [1%nat] [turn_a]
    None
  = Returns [Clip 1%nat; Silence 500; Clip 100%nat].
Proof. reflexivity. Qed.

(** *** The clips of the podcast *)

Section Clips.

Context {Audio : Type}.
Variable len : Audio -> Z.

Lemma clips_of_app (p q : list (Span Audio)) :
  clips_of Audio (p ++ q) = clips_of Audio p ++ clips_of Audio q.
Proof. apply omap_app. Qed.

Lemma clips_of_appended (pause_ms : Z) (prev : option SpeakerSegment)
    (spans : list Audio) (turns : list SpeakerSegment) :
  clips_of Audio (appended Audio pause_ms prev spans turns)
  = take (length turns) spans.
Proof.
  revert prev turns.
  induction spans as [|a spans IH]; intros prev [|t turns]; cbn [appended];
    try reflexivity.
  rewrite !clips_of_app, IH.
  destruct prev as [p|];
    [destruct (speaker_eqb (speaker p) (speaker t))|];
    destruct (bool_decide (chars "pause" ∈ cues t)); reflexivity.
Qed.

(** X4. No clip is lost, repeated or moved: the clips of the podcast
    are the intro, the spans that have a turn, and the outro, in this
    order; the intro and the outro are there when they were loaded and
    are not clips of 0 ms. *)
Theorem clips_kept_in_order (intro outro : option Audio) (setting : Z)
    (spans : list Audio) (turns : list SpeakerSegment) (pause_ms : option Z) :
  exists podcast,
    assemble_podcast Audio len intro outro setting spans turns pause_ms
    = Returns podcast
    /\ clips_of Audio podcast
       = option_list (audible Audio len intro)
         ++ take (length turns) spans
         ++ option_list (audible Audio len outro).
Proof.
  eexists. split; [apply assemble_podcast_appended|].
  unfold around. rewrite !clips_of_app, clips_of_appended.
  destruct (audible Audio len intro), (audible Audio len outro); reflexivity.
Qed.

Lemma appended_monologue (pause_ms : Z) (who : Speaker)
    (prev : option SpeakerSegment) (spans : list Audio)
    (turns : list SpeakerSegment) :
  match prev with Some p => speaker p = who | None => True end ->
  Forall (fun t => speaker t = who /\ chars "pause" ∉ cues t) turns ->
  appended Audio pause_ms prev spans turns
  = map Clip (take (length turns) spans).
Proof.
  revert prev turns.
  induction spans as [|a spans IH]; intros prev [|t turns] Hprev Hturns;
    cbn [appended]; try reflexivity.
  inversion Hturns as [|? ? [Ht Hc] Hrest]; subst.
  rewrite (IH (Some t) turns eq_refl Hrest).
  rewrite bool_decide_eq_false_2 by exact Hc.
  destruct prev as [p|]; [|reflexivity].
  rewrite Hprev. destruct (speaker t); reflexivity.
Qed.

(** X5. A monologue without pause cues is assembled without any silence
    between its clips: the podcast is the clips alone, between the intro
    and the outro (each with its silence of half a second, and only when
    it was loaded and is not a clip of 0 ms). *)
Theorem monologue_has_no_silence (intro outro : option Audio) (setting : Z)
    (spans : list Audio) (turns : list SpeakerSegment) (pause_ms : option Z)
    (who : Speaker) :
  Forall (fun t => speaker t = who /\ chars "pause" ∉ cues t) turns ->
  assemble_podcast Audio len intro outro setting spans turns pause_ms
  = Returns
      (around Audio (audible Audio len intro) (audible Audio len outro)
         (map Clip (take (length turns) spans))).
Proof.
  intros Hturns. rewrite assemble_podcast_appended.
  rewrite (appended_monologue _ who None spans turns I Hturns). reflexivity.
Qed.

End Clips.

Lemma monologue_has_no_silence_witness :
  assemble_podcast nat ms None None 400 [1%nat; 2%nat] [turn_a; turn_a] None
  = Returns [Clip 1%nat; Clip 2%nat].
Proof.
  apply (monologue_has_no_silence ms None None 400 [1%nat; 2%nat]
           [turn_a; turn_a] None HOST_A).
  repeat constructor; cbn; set_solver.
Defined.

End AssemblerSpec.


(** ** The chunking engine *)

Module ChunkerSpec.
Import PyStr PyStrFacts Chunker.

Section WithTokenizer.

Variable count_tokens : str -> nat.
Variable approx_words_of : Z -> Z.

Lemma sequential_snoc (base : nat) (chunks : list Chunk) (c : Chunk) :
  sequential base chunks -> index c = (base + length chunks)%nat ->
  sequential base (chunks ++ [c]).
Proof.
  unfold sequential. intros H Hc.
  rewrite map_app, length_app, seq_app, H. cbn. rewrite Hc. reflexivity.
Qed.

Lemma sequential_app (base : nat) (chunks more : list Chunk) :
  sequential base chunks -> sequential (base + length chunks) more ->
  sequential base (chunks ++ more).
Proof.
  unfold sequential. intros H1 H2.
  rewrite map_app, length_app, seq_app, H1, H2. reflexivity.
Qed.

Lemma flush_remaining_sequential (base : nat)
    (metadata : gmap str MetaValue) (st : LoopState) :
  sequential base (fst (fst st)) ->
  sequential base (flush_remaining count_tokens base metadata st).
Proof.
  destruct st as [[chunks current] tokens]. cbn.
  intros H. destruct (truthy (strip current)); [|exact H].
  apply sequential_snoc; [exact H | reflexivity].
Qed.

Lemma sentence_step_sequential (chunk_size chunk_overlap : Z)
    (start_index : nat) (metadata : gmap str MetaValue) (st : LoopState)
    (sent : str) :
  sequential start_index (fst (fst st)) ->
  sequential start_index
    (fst (fst (sentence_step count_tokens approx_words_of chunk_size
                 chunk_overlap start_index metadata st sent))).
Proof.
  destruct st as [[chunks current] tokens]. cbn [fst]. intros H.
  unfold sentence_step, flush.
  destruct (_ && _); cbn [fst]; [|exact H].
  apply sequential_snoc; [exact H | reflexivity].
Qed.

Lemma fold_sequential {A : Type} (step : LoopState -> A -> LoopState)
    (base : nat) :
  (forall st a, sequential base (fst (fst st)) ->
                sequential base (fst (fst (step st a)))) ->
  forall (l : list A) (st : LoopState),
    sequential base (fst (fst st)) ->
    sequential base (fst (fst (fold_left step l st))).
Proof.
  intros Hstep l. induction l as [|a l IH]; intros st H; cbn; [exact H|].
  apply IH, Hstep, H.
Qed.

Lemma split_large_paragraph_sequential (text : str)
    (chunk_size chunk_overlap : Z) (start_index : nat)
    (metadata : gmap str MetaValue) :
  sequential start_index
    (_split_large_paragraph count_tokens approx_words_of text chunk_size
       chunk_overlap start_index metadata).
Proof.
  unfold _split_large_paragraph.
  apply flush_remaining_sequential, fold_sequential.
  - intros st a. apply sentence_step_sequential.
  - reflexivity.
Qed.

Lemma paragraph_step_sequential (chunk_size chunk_overlap : Z)
    (metadata : gmap str MetaValue) (st : LoopState) (para : str) :
  sequential 0 (fst (fst st)) ->
  sequential 0
    (fst (fst (paragraph_step count_tokens approx_words_of chunk_size
                 chunk_overlap metadata st para))).
Proof.
  destruct st as [[chunks current] tokens]. cbn [fst]. intros H.
  unfold paragraph_step, flush.
  destruct (chunk_size <? Z.of_nat (count_tokens para)).
  - destruct (truthy (strip current)); cbn [fst].
    + apply sequential_app.
      * apply sequential_snoc; [exact H | reflexivity].
      * apply split_large_paragraph_sequential.
    + apply sequential_app; [exact H|].
      apply split_large_paragraph_sequential.
  - destruct (_ && _); cbn [fst]; [|exact H].
    apply sequential_snoc; [exact H | reflexivity].
Qed.

(** C5. The units of [chunk_text] carry the indices 0, 1, 2, ... in the
    order of emission, for every text, size, overlap and metadata (and
    whatever the tokenizer counts). *)
Theorem chunk_indices_sequential (text : str) (chunk_size chunk_overlap : Z)
    (metadata : option (gmap str MetaValue)) :
  map index
    (chunk_text count_tokens approx_words_of text chunk_size chunk_overlap
       metadata)
  = seq 0
      (length
         (chunk_text count_tokens approx_words_of text chunk_size
            chunk_overlap metadata)).
Proof.
  unfold chunk_text.
  apply flush_remaining_sequential, fold_sequential.
  - intros st a. apply paragraph_step_sequential.
  - reflexivity.
Qed.

Lemma sum_tokens_nonneg (l : list str) : 0 <= sum_tokens count_tokens l.
Proof.
  induction l as [|p l IH]; [cbn; lia|].
  change (sum_tokens count_tokens (p :: l))
    with (Z.of_nat (count_tokens p) + sum_tokens count_tokens l).
  lia.
Qed.

Lemma split_paragraphs_tight (text : str) :
  Forall tight (_split_paragraphs text).
Proof.
  unfold _split_paragraphs.
  induction (split_blank text) as [|q l IH]; [constructor|].
  rewrite filter_cons. destruct (decide (truthy (strip q) = true)) as [Hq|Hq].
  - cbn [map]. constructor; [|exact IH].
    apply strip_tight. apply truthy_true. exact Hq.
  - exact IH.
Qed.

Lemma join_truthy (sep : str) (l : list str) :
  Forall tight l -> truthy (join sep l) = match l with [] => false | _ => true end.
Proof.
  intros Hl. destruct l as [|x l]; [reflexivity|].
  apply truthy_true. apply (tight_join sep (x :: l) Hl). discriminate.
Qed.

Lemma fold_small_paragraphs (chunk_size chunk_overlap : Z)
    (metadata : gmap str MetaValue) (rest done : list str) (tokens : Z) :
  Forall tight done -> Forall tight rest -> 0 <= tokens ->
  tokens + sum_tokens count_tokens rest <= chunk_size ->
  fold_left
    (paragraph_step count_tokens approx_words_of chunk_size chunk_overlap
       metadata)
    rest ([], join [nl; nl] done, tokens)
  = ([], join [nl; nl] (done ++ rest), tokens + sum_tokens count_tokens rest).
Proof.
  revert done tokens.
  induction rest as [|p rest IH]; intros done tokens Hdone Hrest Htok Hsum.
  - cbn. rewrite app_nil_r, Z.add_0_r. reflexivity.
  - inversion Hrest as [|? ? Hp Hrest']; subst.
    cbn [fold_left]. cbn [sum_tokens fold_right] in Hsum.
    fold (sum_tokens count_tokens rest) in Hsum.
    pose proof (sum_tokens_nonneg rest) as Hnn.
    unfold paragraph_step at 2.
    replace (chunk_size <? Z.of_nat (count_tokens p)) with false
      by (symmetry; apply Z.ltb_ge; lia).
    replace (chunk_size <? tokens + Z.of_nat (count_tokens p)) with false
      by (symmetry; apply Z.ltb_ge; lia).
    cbn [andb].
    replace (if truthy (join [nl; nl] done)
             then join [nl; nl] done ++ [nl; nl] ++ p else p)
      with (join [nl; nl] (done ++ [p])).
    + rewrite IH; try assumption; try lia.
      * rewrite <- app_assoc. cbn [sum_tokens fold_right app].
        f_equal. fold (sum_tokens count_tokens rest). lia.
      * apply Forall_app. split; [exact Hdone|]. constructor; [exact Hp|constructor].
    + rewrite join_snoc, join_truthy by exact Hdone.
      destruct done; reflexivity.
Qed.

(** C6, as the code has it.  The empty text gives no unit, and so does
    every text without a non-blank paragraph.  A text with a non-blank
    paragraph whose running token estimate (the sum over its paragraphs)
    is at most the size gives exactly one unit, of index 0, whose text is
    the trimmed paragraphs joined by blank lines; no overlap is taken. *)
Theorem small_text_single_unit (text : str) (chunk_size chunk_overlap : Z)
    (metadata : option (gmap str MetaValue)) :
  chunk_text count_tokens approx_words_of [] chunk_size chunk_overlap
    metadata = []
  /\ (_split_paragraphs text = [] ->
      chunk_text count_tokens approx_words_of text chunk_size chunk_overlap
        metadata = [])
  /\ (_split_paragraphs text <> [] ->
      total_tokens count_tokens text <= chunk_size ->
      chunk_text count_tokens approx_words_of text chunk_size chunk_overlap
        metadata
      = [_make_chunk count_tokens (join [nl; nl] (_split_paragraphs text)) 0
           (match metadata with Some m => m | None => ∅ end)]).
Proof.
  split; [reflexivity|]. split.
  - intros E. unfold chunk_text. rewrite E. reflexivity.
  - intros Hne Htot. unfold chunk_text.
    pose proof (split_paragraphs_tight text) as Ht.
    pose proof (fold_small_paragraphs chunk_size chunk_overlap
                  (match metadata with Some m => m | None => ∅ end)
                  (_split_paragraphs text) [] 0 (List.Forall_nil _) Ht
                  (Z.le_refl 0) Htot) as Hfold.
    cbn [join app] in Hfold. rewrite Hfold.
    unfold flush_remaining.
    rewrite (tight_strip _ (tight_join [nl; nl] _ Ht Hne)).
    rewrite join_truthy by exact Ht.
    destruct (_split_paragraphs text); [congruence|reflexivity].
Qed.

End WithTokenizer.

(** C6 fails as stated: a text of one space is not empty and has one
    token, yet no unit is produced. *)
Lemma blank_text_no_unit :
  [sp] <> []
  /\ (Z.of_nat (char_tokens [sp]) <= DEFAULT_CHUNK_SIZE)
  /\ chunk_text char_tokens ten_thirteenths [sp] DEFAULT_CHUNK_SIZE
       DEFAULT_CHUNK_OVERLAP None = [].
Proof. repeat split; [discriminate | discriminate]. Qed.

Lemma small_text_single_unit_witness :
  map text
    (chunk_text char_tokens ten_thirteenths (chars "Short paragraph.") 100
       DEFAULT_CHUNK_OVERLAP None)
  = [chars "Short paragraph."].
Proof.
  destruct (small_text_single_unit char_tokens ten_thirteenths
              (chars "Short paragraph.") 100 DEFAULT_CHUNK_OVERLAP None)
    as (_ & _ & H).
  rewrite H; [reflexivity | discriminate | discriminate].
Defined.

Import ChunkerNotions.

(** *** [str.split()] *)

Lemma words_acc_ink (cur w rest : str) :
  forallb (fun c => negb (is_space c)) w = true ->
  words_acc cur (w ++ rest) = words_acc (cur ++ w) rest.
Proof.
  revert cur. induction w as [|c w IH]; intros cur Hw.
  - rewrite app_nil_r. reflexivity.
  - cbn in Hw. apply andb_true_iff in Hw. destruct Hw as [Hc Hw].
    cbn [app words_acc]. apply negb_true_iff in Hc. rewrite Hc.
    rewrite IH by exact Hw. rewrite <- app_assoc. reflexivity.
Qed.

Lemma words_acc_wordy (cur s : str) :
  forallb (fun c => negb (is_space c)) cur = true ->
  Forall wordy (words_acc cur s).
Proof.
  revert cur. induction s as [|c s IH]; intros cur Hcur; cbn [words_acc].
  - destruct cur as [|a cur]; cbn [truthy]; constructor; [|constructor].
    split; [discriminate | exact Hcur].
  - destruct (is_space c) eqn:Ec.
    + destruct cur as [|a cur]; cbn [truthy]; [apply IH; reflexivity|].
      constructor; [split; [discriminate | exact Hcur]|].
      apply IH. reflexivity.
    + apply IH. rewrite forallb_app, Hcur. cbn. rewrite Ec. reflexivity.
Qed.

Lemma words_wordy (s : str) : Forall wordy (words s).
Proof. apply words_acc_wordy. reflexivity. Qed.

Lemma words_join (ws : list str) :
  Forall wordy ws -> words (join [sp] ws) = ws.
Proof.
  unfold words. induction 1 as [|w ws [Hne Hw] Hws IH]; [reflexivity|].
  cbn [join]. destruct ws as [|w' ws'].
  - rewrite <- (app_nil_r w) at 1. rewrite words_acc_ink by exact Hw.
    cbn. destruct w; [congruence|reflexivity].
  - rewrite words_acc_ink by exact Hw. cbn [app words_acc].
    change (is_space sp) with true. cbn iota.
    destruct w; [congruence|]. cbn [truthy app]. rewrite IH. reflexivity.
Qed.

Lemma words_acc_has_ink (cur s : str) :
  cur <> [] \/ has_ink s = true -> words_acc cur s <> [].
Proof.
  revert cur. induction s as [|c s IH]; intros cur H; cbn [words_acc].
  - destruct H as [H|H]; [|discriminate].
    destruct cur; [congruence|discriminate].
  - destruct (is_space c) eqn:Ec.
    + destruct cur as [|a cur]; cbn [truthy]; [|discriminate].
      apply IH. right. destruct H as [H|H]; [congruence|].
      cbn in H. rewrite Ec in H. exact H.
    + apply IH. left. destruct cur; discriminate.
Qed.

Section Chunks.

Variable count_tokens : str -> nat.
Variable approx_words_of : Z -> Z.

(** X6. With a positive number of overlap words the overlap text has the
    last words of the text, at most that many. *)
Theorem overlap_is_last_words (text : str) (overlap_tokens : Z) :
  0 < approx_words_of overlap_tokens ->
  words (_get_overlap_text approx_words_of text overlap_tokens)
  = drop (length (words text) - Z.to_nat (approx_words_of overlap_tokens))
      (words text).
Proof.
  intros Hk. unfold _get_overlap_text. cbv zeta.
  destruct (Z.of_nat (length (words text)) <=? approx_words_of overlap_tokens)
    eqn:E.
  - apply Z.leb_le in E.
    replace (length (words text)
             - Z.to_nat (approx_words_of overlap_tokens))%nat
      with 0%nat by lia.
    reflexivity.
  - apply Z.leb_gt in E. unfold slice_from.
    replace (- approx_words_of overlap_tokens <? 0) with true
      by (symmetry; apply Z.ltb_lt; lia).
    replace (Z.to_nat
               (Z.max 0
                  (Z.of_nat (length (words text))
                   + - approx_words_of overlap_tokens)))
      with (length (words text) - Z.to_nat (approx_words_of overlap_tokens))%nat
      by lia.
    apply words_join. apply Forall_drop, words_wordy.
Qed.

(** X7. With zero overlap words the overlap text is not empty: it has
    all the words of the text. *)
Theorem zero_overlap_keeps_all_words (text : str) (overlap_tokens : Z) :
  approx_words_of overlap_tokens = 0 ->
  words (_get_overlap_text approx_words_of text overlap_tokens) = words text
  /\ (has_ink text = true ->
      _get_overlap_text approx_words_of text overlap_tokens
      = join [sp] (words text)).
Proof.
  intros Hk. unfold _get_overlap_text. cbv zeta. rewrite Hk.
  destruct (words text) as [|w ws] eqn:Ew.
  - cbn [length Z.of_nat Z.leb Z.compare].
    split; [exact Ew|]. intros Hink. exfalso.
    apply (words_acc_has_ink [] text); [right; exact Hink | exact Ew].
  - replace (Z.of_nat (length (w :: ws)) <=? 0) with false
      by (symmetry; apply Z.leb_gt; cbn [length]; lia).
    unfold slice_from. cbn [Z.opp Z.ltb Z.compare Z.to_nat drop].
    split; [|reflexivity].
    apply words_join. rewrite <- Ew. apply words_wordy.
Qed.

(** *** What holds of every chunk *)

Section Every.

Variable metadata : gmap str MetaValue.
Variable P : Chunk -> Prop.
Hypothesis P_make :
  forall current index,
    truthy (strip current) = true ->
    P (_make_chunk count_tokens (strip current) index metadata).

Lemma flush_every (base : nat) (chunk_overlap : Z) (st : LoopState) :
  truthy (strip (snd (fst st))) = true ->
  Forall P (fst (fst st)) ->
  Forall P
    (fst (fst (flush count_tokens approx_words_of base chunk_overlap metadata
                 st))).
Proof.
  destruct st as [[chunks current] tokens]. cbn [fst snd flush].
  intros Hc H. apply Forall_app. split; [exact H|].
  constructor; [apply P_make, Hc | constructor].
Qed.

Lemma flush_remaining_every (base : nat) (st : LoopState) :
  Forall P (fst (fst st)) ->
  Forall P (flush_remaining count_tokens base metadata st).
Proof.
  destruct st as [[chunks current] tokens]. cbn [fst flush_remaining].
  intros H. destruct (truthy (strip current)) eqn:E; [|exact H].
  apply Forall_app. split; [exact H|].
  constructor; [apply P_make, E | constructor].
Qed.

Lemma sentence_step_every (chunk_size chunk_overlap : Z) (start_index : nat)
    (st : LoopState) (sent : str) :
  Forall P (fst (fst st)) ->
  Forall P
    (fst (fst (sentence_step count_tokens approx_words_of chunk_size
                 chunk_overlap start_index metadata st sent))).
Proof.
  destruct st as [[chunks current] tokens]. cbn [fst]. intros H.
  unfold sentence_step.
  destruct (_ && _) eqn:E.
  - apply andb_true_iff in E. destruct E as [_ E].
    pose proof (flush_every start_index chunk_overlap
                  (chunks, current, tokens) E H) as F.
    destruct (flush _ _ _ _ _ _) as [[chunks' current'] tokens'].
    exact F.
  - exact H.
Qed.

Lemma fold_every {A : Type} (step : LoopState -> A -> LoopState) :
  (forall st a, Forall P (fst (fst st)) -> Forall P (fst (fst (step st a)))) ->
  forall (l : list A) (st : LoopState),
    Forall P (fst (fst st)) -> Forall P (fst (fst (fold_left step l st))).
Proof.
  intros Hstep l. induction l as [|a l IH]; intros st H; cbn; [exact H|].
  apply IH, Hstep, H.
Qed.

Lemma split_large_paragraph_every (text : str) (chunk_size chunk_overlap : Z)
    (start_index : nat) :
  Forall P
    (_split_large_paragraph count_tokens approx_words_of text chunk_size
       chunk_overlap start_index metadata).
Proof.
  unfold _split_large_paragraph.
  apply flush_remaining_every, fold_every.
  - intros st a. apply sentence_step_every.
  - constructor.
Qed.

Lemma paragraph_step_every (chunk_size chunk_overlap : Z) (st : LoopState)
    (para : str) :
  Forall P (fst (fst st)) ->
  Forall P
    (fst (fst (paragraph_step count_tokens approx_words_of chunk_size
                 chunk_overlap metadata st para))).
Proof.
  destruct st as [[chunks current] tokens]. cbn [fst]. intros H.
  unfold paragraph_step.
  destruct (chunk_size <? Z.of_nat (count_tokens para)).
  - destruct (truthy (strip current)) eqn:E.
    + pose proof (flush_every 0 chunk_overlap (chunks, current, tokens) E H)
        as F.
      destruct (flush _ _ _ _ _ _) as [[chunks' current'] tokens'].
      cbn [fst] in *. apply Forall_app. split; [exact F|].
      apply split_large_paragraph_every.
    + cbn [fst]. apply Forall_app. split; [exact H|].
      apply split_large_paragraph_every.
  - destruct (_ && _) eqn:E.
    + apply andb_true_iff in E. destruct E as [_ E].
      pose proof (flush_every 0 chunk_overlap (chunks, current, tokens) E H)
        as F.
      destruct (flush _ _ _ _ _ _) as [[chunks' current'] tokens'].
      exact F.
    + exact H.
Qed.

Lemma chunk_text_every (text : str) (chunk_size chunk_overlap : Z) :
  Forall P
    (flush_remaining count_tokens 0 metadata
       (fold_left
          (paragraph_step count_tokens approx_words_of chunk_size
             chunk_overlap metadata)
          (_split_paragraphs text) ([], [], 0))).
Proof.
  apply flush_remaining_every, fold_every.
  - intros st a. apply paragraph_step_every.
  - constructor.
Qed.

End Every.

(** X8. No chunk is empty or blank, and no chunk begins or ends with
    whitespace. *)
Theorem chunks_are_trimmed (text : str) (chunk_size chunk_overlap : Z)
    (metadata : option (gmap str MetaValue)) :
  Forall (fun c => tight (Chunker.text c))
    (chunk_text count_tokens approx_words_of text chunk_size chunk_overlap
       metadata).
Proof.
  unfold chunk_text. apply chunk_text_every.
  intros current index H. cbn [_make_chunk Chunker.text].
  apply strip_tight, truthy_true, H.
Qed.

(** X9. The metadata of every chunk has the token count and the length of
    the chunk's own text, and besides them what the caller gave. *)
Theorem chunks_carry_their_counts (text : str) (chunk_size chunk_overlap : Z)
    (metadata : option (gmap str MetaValue)) :
  let given := match metadata with Some m => m | None => ∅ end in
  Forall
    (fun c =>
       Chunker.metadata c !! chars "token_count"
       = Some (MetaInt (Z.of_nat (count_tokens (Chunker.text c))))
       /\ Chunker.metadata c !! chars "char_count"
          = Some (MetaInt (Z.of_nat (length (Chunker.text c))))
       /\ forall key,
            key <> chars "token_count" -> key <> chars "char_count" ->
            Chunker.metadata c !! key = given !! key)
    (chunk_text count_tokens approx_words_of text chunk_size chunk_overlap
       metadata).
Proof.
  cbv zeta. unfold chunk_text. apply chunk_text_every.
  intros current index _. cbn [_make_chunk Chunker.text Chunker.metadata].
  split; [|split].
  - rewrite lookup_insert_ne by discriminate. apply lookup_insert_eq.
  - apply lookup_insert_eq.
  - intros key H1 H2. rewrite !lookup_insert_ne by congruence. reflexivity.
Qed.

(** *** At least one chunk *)

Lemma truthy_strip_ink (s : str) : truthy (strip s) = has_ink s.
Proof.
  destruct (has_ink s) eqn:E.
  - rewrite <- has_ink_strip in E. apply has_ink_nonempty in E.
    apply truthy_true. exact E.
  - destruct (strip s) as [|c r] eqn:Es; [reflexivity|].
    assert (H : tight (strip s)).
    { apply strip_tight. rewrite Es. discriminate. }
    rewrite Es in H. destruct (tight_head _ H) as (c' & r' & [= -> ->] & Hc).
    rewrite <- has_ink_strip, Es in E. cbn in E. rewrite Hc in E.
    discriminate.
Qed.

Lemma flush_remaining_started (base : nat) (metadata : gmap str MetaValue)
    (st : LoopState) :
  started st -> flush_remaining count_tokens base metadata st <> [].
Proof.
  destruct st as [[chunks current] tokens]. unfold started.
  cbn [fst snd flush_remaining]. rewrite truthy_strip_ink.
  intros [H|H].
  - destruct (has_ink current); [|exact H].
    intros E. apply app_eq_nil in E. tauto.
  - rewrite H. intros E. apply app_eq_nil in E. destruct E; discriminate.
Qed.

Lemma sentence_step_started (chunk_size chunk_overlap : Z)
    (start_index : nat) (metadata : gmap str MetaValue) (st : LoopState)
    (sent : str) :
  started st \/ has_ink sent = true ->
  started (sentence_step count_tokens approx_words_of chunk_size
             chunk_overlap start_index metadata st sent).
Proof.
  destruct st as [[chunks current] tokens]. unfold started.
  cbn [fst snd]. intros H. unfold sentence_step, flush.
  destruct (_ && _) eqn:E; cbn [fst snd].
  - left. intros E'. apply app_eq_nil in E'. destruct E'; discriminate.
  - destruct H as [[H|H]|H]; [left; exact H| |].
    + right. destruct current; [discriminate|]. cbn [truthy].
      rewrite has_ink_app, H. reflexivity.
    + right. destruct (truthy current); [|exact H].
      rewrite !has_ink_app, H, !orb_true_r. reflexivity.
Qed.

Lemma fold_sentence_started (chunk_size chunk_overlap : Z)
    (start_index : nat) (metadata : gmap str MetaValue)
    (sentences : list str) (st : LoopState) :
  started st \/ existsb has_ink sentences = true ->
  started
    (fold_left
       (sentence_step count_tokens approx_words_of chunk_size chunk_overlap
          start_index metadata) sentences st).
Proof.
  revert st. induction sentences as [|sent rest IH]; intros st H.
  - cbn in *. destruct H as [H|H]; [exact H | discriminate].
  - cbn [fold_left]. apply IH. cbn [existsb] in H.
    destruct H as [H|H].
    + left. apply sentence_step_started. left. exact H.
    + apply orb_true_iff in H. destruct H as [H|H]; [|right; exact H].
      left. apply sentence_step_started. right. exact H.
Qed.

Lemma split_large_paragraph_nonempty (text : str)
    (chunk_size chunk_overlap : Z) (start_index : nat)
    (metadata : gmap str MetaValue) :
  has_ink text = true ->
  _split_large_paragraph count_tokens approx_words_of text chunk_size
    chunk_overlap start_index metadata <> [].
Proof.
  intros Hink. unfold _split_large_paragraph.
  apply flush_remaining_started, fold_sentence_started.
  right. unfold split_sentences. rewrite split_sentences_from_ink.
  exact Hink.
Qed.

Lemma tight_ink (s : str) : tight s -> has_ink s = true.
Proof.
  intros H. destruct (tight_head _ H) as (c & r & -> & Hc).
  cbn. rewrite Hc. reflexivity.
Qed.

Lemma join_ink (ws : list str) :
  Forall wordy ws -> ws <> [] -> has_ink (join [sp] ws) = true.
Proof.
  intros Hws Hne. destruct ws as [|w ws]; [congruence|].
  inversion Hws as [|? ? [Hw Hall] _]; subst.
  assert (Hink : has_ink w = true).
  { destruct w as [|c w]; [congruence|]. cbn in Hall.
    apply andb_true_iff in Hall. destruct Hall as [Hc _].
    cbn. rewrite Hc. reflexivity. }
  cbn [join]. destruct ws; [exact Hink|].
  rewrite has_ink_app, Hink. reflexivity.
Qed.

Lemma overlap_ink (text : str) (overlap_tokens : Z) :
  has_ink text = true ->
  0 <= approx_words_of overlap_tokens ->
  has_ink (_get_overlap_text approx_words_of text overlap_tokens) = true.
Proof.
  intros Hink Hk. unfold _get_overlap_text. cbv zeta.
  destruct (Z.of_nat (length (words text)) <=? approx_words_of overlap_tokens)
    eqn:E; [exact Hink|].
  apply Z.leb_gt in E.
  apply join_ink.
  - unfold slice_from. destruct (_ <? 0); apply Forall_drop, words_wordy.
  - unfold slice_from. intros E'. apply (f_equal length) in E'.
    destruct (- approx_words_of overlap_tokens <? 0) eqn:En;
      rewrite length_drop in E'; cbn [length] in E'.
    + apply Z.ltb_lt in En. lia.
    + apply Z.ltb_ge in En. lia.
Qed.

Lemma paragraph_step_started (chunk_size chunk_overlap : Z)
    (metadata : gmap str MetaValue) (st : LoopState) (para : str) :
  has_ink para = true ->
  started (paragraph_step count_tokens approx_words_of chunk_size
             chunk_overlap metadata st para).
Proof.
  intros Hink. unfold started, paragraph_step.
  destruct (chunk_size <? Z.of_nat (count_tokens para)).
  - left.
    destruct (let '(_, current_text, _) := st in
              if truthy (strip current_text)
              then flush count_tokens approx_words_of 0 chunk_overlap
                     metadata st
              else st) as [[chunks current] tokens].
    cbn [fst]. intros E. apply app_eq_nil in E. destruct E as [_ E].
    revert E. apply split_large_paragraph_nonempty, Hink.
  - right.
    destruct (let '(_, current_text, current_tokens) := st in
              if (chunk_size <? current_tokens + Z.of_nat (count_tokens para))
                 && truthy (strip current_text)
              then flush count_tokens approx_words_of 0 chunk_overlap
                     metadata st
              else st) as [[chunks current] tokens].
    cbn [fst snd]. destruct (truthy current); [|exact Hink].
    rewrite !has_ink_app, Hink, !orb_true_r. reflexivity.
Qed.

Lemma split_blank_cons (c d : ascii) (r : str) :
  split_blank (c :: d :: r)
  = if ch_eqb c nl && ch_eqb d nl then [] :: split_blank r
    else cons_head c (split_blank (d :: r)).
Proof. reflexivity. Qed.

Lemma split_blank_ink_upto (n : nat) (s : str) :
  (length s <= n)%nat -> existsb has_ink (split_blank s) = has_ink s.
Proof.
  revert s. induction n as [|n IH]; intros s Hlen.
  - destruct s; [reflexivity | cbn in Hlen; lia].
  - destruct s as [|c [|d r]];
      [reflexivity | cbn; rewrite !orb_false_r; reflexivity |].
    rewrite split_blank_cons.
    destruct (ch_eqb c nl && ch_eqb d nl) eqn:E.
    + apply andb_true_iff in E. destruct E as [Ec Ed].
      apply ch_eqb_eq in Ec, Ed. subst c d.
      change (existsb has_ink ([] :: split_blank r))
        with (existsb has_ink (split_blank r)).
      rewrite IH by (cbn [length] in Hlen; lia).
      reflexivity.
    + rewrite has_ink_cons_head, IH by (cbn [length] in *; lia).
      reflexivity.
Qed.

Lemma split_blank_ink (s : str) :
  existsb has_ink (split_blank s) = has_ink s.
Proof. apply (split_blank_ink_upto (length s)). reflexivity. Qed.

Lemma split_paragraphs_nil (text : str) :
  _split_paragraphs text = [] <-> has_ink text = false.
Proof.
  rewrite <- split_blank_ink. unfold _split_paragraphs.
  induction (split_blank text) as [|q l IH]; [split; reflexivity|].
  rewrite filter_cons. cbn [existsb]. rewrite <- (truthy_strip_ink q).
  destruct (decide (truthy (strip q) = true)) as [Hq|Hq].
  - rewrite Hq. cbn. split; discriminate.
  - apply not_true_is_false in Hq. rewrite Hq. cbn [orb]. exact IH.
Qed.

(** X10. A text gives no chunk exactly when it is empty or blank. *)
Theorem no_chunk_iff_blank (text : str) (chunk_size chunk_overlap : Z)
    (metadata : option (gmap str MetaValue)) :
  chunk_text count_tokens approx_words_of text chunk_size chunk_overlap
    metadata = []
  <-> has_ink text = false.
Proof.
  rewrite <- split_paragraphs_nil. unfold chunk_text.
  pose proof (split_paragraphs_tight text) as Ht.
  destruct (_split_paragraphs text) as [|p ps] eqn:Ep using rev_ind;
    [split; reflexivity|].
  clear IHps.
  split; [|intros E; apply app_eq_nil in E; destruct E; discriminate].
  intros E. exfalso. revert E.
  rewrite fold_left_app. cbn [fold_left].
  apply flush_remaining_started, paragraph_step_started.
  apply Forall_app in Ht. destruct Ht as [_ Ht].
  inversion Ht; subst. apply tight_ink. assumption.
Qed.

(** X11. When the last paragraph is larger than the chunk size, the
    chunks end with one that holds nothing but the overlap of the chunk
    before it. *)
Theorem oversized_last_paragraph_repeats_overlap
    (text : str) (chunk_size chunk_overlap : Z)
    (metadata : option (gmap str MetaValue)) (ps : list str) (p : str) :
  _split_paragraphs text = ps ++ [p] ->
  chunk_size < Z.of_nat (count_tokens p) ->
  0 <= approx_words_of chunk_overlap ->
  exists chunks c d,
    chunk_text count_tokens approx_words_of text chunk_size chunk_overlap
      metadata = chunks ++ [c; d]
    /\ Chunker.text d
       = strip
           (_get_overlap_text approx_words_of (Chunker.text c) chunk_overlap)
    /\ (Z.of_nat (length (words (Chunker.text c)))
        <= approx_words_of chunk_overlap ->
        Chunker.text d = Chunker.text c).
Proof.
  intros Ep Hbig Hk. unfold chunk_text. rewrite Ep, fold_left_app.
  cbn [fold_left].
  set (md := match metadata with Some m => m | None => ∅ end).
  pose proof (split_paragraphs_tight text) as Ht. rewrite Ep in Ht.
  apply Forall_app in Ht. destruct Ht as [_ Ht]. inversion Ht as [|? ? Hp _].
  subst.
  set (st := fold_left _ ps _).
  unfold paragraph_step.
  replace (chunk_size <? Z.of_nat (count_tokens p)) with true
    by (symmetry; apply Z.ltb_lt; exact Hbig).
  destruct (let '(_, current_text, _) := st in
            if truthy (strip current_text)
            then flush count_tokens approx_words_of 0 chunk_overlap md st
            else st) as [[chunks0 current0] tokens0].
  pose proof (split_large_paragraph_nonempty p chunk_size chunk_overlap
                (length chunks0) md (tight_ink _ Hp)) as Hne.
  pose proof (split_large_paragraph_every md
                (fun c => tight (Chunker.text c))
                (fun current index H =>
                   strip_tight current (proj1 (truthy_true _) H))
                p chunk_size chunk_overlap (length chunks0)) as Htight.
  destruct (exists_last Hne) as (sub & c & Esub). rewrite Esub in *.
  apply Forall_app in Htight. destruct Htight as [_ Hc].
  inversion Hc as [|? ? Hc' _]; subst.
  rewrite app_assoc, last_snoc.
  unfold flush_remaining.
  pose proof (overlap_ink (Chunker.text c) chunk_overlap (tight_ink _ Hc') Hk)
    as Hink.
  rewrite truthy_strip_ink, Hink.
  eexists (chunks0 ++ sub), c, _.
  split; [rewrite <- app_assoc; reflexivity|].
  split; [reflexivity|].
  intros Hall. cbn [_make_chunk Chunker.text].
  unfold _get_overlap_text. cbv zeta.
  replace (_ <=? _) with true by (symmetry; apply Z.leb_le; exact Hall).
  apply tight_strip, Hc'.
Qed.

(** *** Paragraphs *)

Lemma blank_free_tail (c : ascii) (s : str) :
  blank_free (c :: s) = true -> blank_free s = true.
Proof. cbn [blank_free]. intros H. apply andb_true_iff in H. tauto. Qed.

Lemma blank_free_cons (c : ascii) (x : str) :
  blank_free x = true ->
  match x with [] => True | d :: _ => ch_eqb c nl && ch_eqb d nl = false end ->
  blank_free (c :: x) = true.
Proof.
  intros Hx Hc. cbn [blank_free]. rewrite Hx, andb_true_r.
  destruct x as [|d x]; [rewrite andb_false_r; reflexivity|].
  rewrite Hc. reflexivity.
Qed.

Lemma split_blank_pieces_upto (n : nat) (s : str) :
  (length s <= n)%nat ->
  Forall (fun x => blank_free x = true) (split_blank s)
  /\ match split_blank s with
     | [] => False
     | x :: _ =>
         match x, s with
         | [], _ => True
         | c :: _, d :: _ => c = d
         | _ :: _, [] => False
         end
     end.
Proof.
  revert s. induction n as [|n IH]; intros s Hlen.
  - destruct s; [|cbn in Hlen; lia]. cbn. split; [repeat constructor | exact I].
  - destruct s as [|c [|d r]].
    + cbn. split; [repeat constructor | exact I].
    + cbn [split_blank]. split; [|reflexivity].
      constructor; [|constructor].
      apply blank_free_cons; [reflexivity | exact I].
    + rewrite split_blank_cons.
      destruct (ch_eqb c nl && ch_eqb d nl) eqn:E.
      * destruct (IH r) as [H _]; [cbn [length] in *; lia|].
        split; [constructor; [reflexivity | exact H] | exact I].
      * destruct (IH (d :: r)) as [H1 H2]; [cbn [length] in *; lia|].
        destruct (split_blank (d :: r)) as [|x rest]; [contradiction|].
        cbn [cons_head]. inversion H1 as [|? ? Hx Hrest]; subst.
        split; [|reflexivity].
        constructor; [|exact Hrest].
        apply blank_free_cons; [exact Hx|].
        destruct x as [|d' x]; [exact I|]. subst d'. exact E.
Qed.

Lemma split_blank_pieces (s : str) :
  Forall (fun x => blank_free x = true) (split_blank s).
Proof. apply (split_blank_pieces_upto (length s) s). reflexivity. Qed.

Lemma blank_free_drop_while (f : ascii -> bool) (s : str) :
  blank_free s = true -> blank_free (drop_while f s) = true.
Proof.
  induction s as [|c s IH]; [reflexivity|]. intros H. cbn [drop_while].
  destruct (f c); [|exact H]. apply IH. eapply blank_free_tail. exact H.
Qed.

Lemma blank_free_rstrip (s : str) :
  blank_free s = true -> blank_free (rstrip s) = true.
Proof.
  induction s as [|c s IH]; [reflexivity|]. intros H.
  pose proof (blank_free_tail _ _ H) as Hs. specialize (IH Hs).
  destruct (rstrip (c :: s)) as [|d r] eqn:E; [reflexivity|].
  cbn [rstrip] in E. destruct (rstrip s) as [|e r'] eqn:Er.
  - destruct (is_space c); [discriminate|]. injection E as <- <-.
    cbn. rewrite andb_false_r. reflexivity.
  - injection E as <- <-. apply blank_free_cons; [exact IH|].
    destruct s as [|e' s']; [discriminate|].
    assert (e = e').
    { cbn [rstrip] in Er. destruct (rstrip s'); [destruct (is_space e')|];
        congruence. }
    subst e'. cbn [blank_free] in H. apply andb_true_iff in H.
    destruct H as [H _]. apply negb_true_iff in H. exact H.
Qed.

Lemma blank_free_strip (s : str) :
  blank_free s = true -> blank_free (strip s) = true.
Proof.
  intros H. apply blank_free_rstrip, blank_free_drop_while, H.
Qed.

Lemma rstrip_fixed_tail (c d : ascii) (s : str) :
  rstrip (c :: d :: s) = c :: d :: s -> rstrip (d :: s) = d :: s.
Proof.
  change (rstrip (c :: d :: s))
    with (match rstrip (d :: s) with
          | [] => if is_space c then [] else [c]
          | r => c :: r
          end).
  destruct (rstrip (d :: s)) as [|e r].
  - destruct (is_space c); discriminate.
  - intros [= -> ->]. reflexivity.
Qed.

Lemma split_blank_one (p : str) :
  blank_free p = true -> p <> [] -> split_blank p = [p].
Proof.
  induction p as [|c p IH]; [congruence|]. intros H _.
  destruct p as [|d p]; [reflexivity|].
  rewrite split_blank_cons.
  cbn [blank_free] in H. apply andb_true_iff in H. destruct H as [H1 H2].
  apply negb_true_iff in H1. rewrite H1.
  rewrite IH; [reflexivity | exact H2 | discriminate].
Qed.

Lemma split_blank_paragraph (p rest : str) :
  blank_free p = true -> p <> [] -> rstrip p = p ->
  split_blank (p ++ nl :: nl :: rest) = p :: split_blank rest.
Proof.
  induction p as [|c p IH]; [congruence|]. intros H _ Hr.
  destruct p as [|d p].
  - cbn [app]. rewrite split_blank_cons.
    assert (Hc : ch_eqb c nl = false).
    { apply ch_eqb_neq. intros ->. discriminate. }
    rewrite Hc. cbn [andb]. rewrite split_blank_cons. reflexivity.
  - cbn [app]. rewrite split_blank_cons.
    cbn [blank_free] in H. apply andb_true_iff in H. destruct H as [H1 H2].
    apply negb_true_iff in H1. rewrite H1.
    change (d :: p ++ nl :: nl :: rest) with ((d :: p) ++ nl :: nl :: rest).
    rewrite IH; [reflexivity | exact H2 | discriminate |].
    eapply rstrip_fixed_tail. exact Hr.
Qed.

Lemma split_blank_join (ps : list str) :
  Forall (fun p => tight p /\ blank_free p = true) ps -> ps <> [] ->
  split_blank (join [nl; nl] ps) = ps.
Proof.
  induction 1 as [|p ps [Hp Hb] Hps IH]; [congruence|]. intros _.
  destruct Hp as (_ & Hr & Hne).
  cbn [join]. destruct ps as [|q ps].
  - apply split_blank_one; assumption.
  - cbn [app]. rewrite split_blank_paragraph by assumption.
    rewrite IH by discriminate. reflexivity.
Qed.

Lemma split_paragraphs_blank_free (text : str) :
  Forall (fun p => tight p /\ blank_free p = true) (_split_paragraphs text).
Proof.
  unfold _split_paragraphs.
  pose proof (split_blank_pieces text) as H.
  induction H as [|q l Hq Hl IH]; [constructor|].
  rewrite filter_cons. destruct (decide (truthy (strip q) = true)) as [Ht|Ht].
  - cbn [map]. constructor; [|exact IH].
    split; [apply strip_tight, truthy_true, Ht | apply blank_free_strip, Hq].
  - exact IH.
Qed.

Lemma split_paragraphs_join (ps : list str) :
  Forall (fun p => tight p /\ blank_free p = true) ps ->
  _split_paragraphs (join [nl; nl] ps) = ps.
Proof.
  intros H. destruct ps as [|p0 ps0]; [reflexivity|].
  unfold _split_paragraphs.
  rewrite split_blank_join by (try exact H; discriminate).
  induction H as [|p ps [Hp _] Hps IH]; [reflexivity|].
  rewrite filter_cons, (tight_strip _ Hp).
  destruct (decide (truthy p = true)) as [Ht|Ht].
  - cbn [map]. rewrite IH, (tight_strip _ Hp). reflexivity.
  - exfalso. apply Ht, truthy_true. destruct Hp as (_ & _ & Hne). exact Hne.
Qed.

(** X12. Splitting the rejoined paragraphs gives the paragraphs again. *)
Theorem paragraphs_rejoin_and_split (text : str) :
  _split_paragraphs (join [nl; nl] (_split_paragraphs text))
  = _split_paragraphs text.
Proof. apply split_paragraphs_join, split_paragraphs_blank_free. Qed.

End Chunks.

Lemma overlap_is_last_words_witness :
  words (_get_overlap_text ten_thirteenths (chars "one two three four") 3)
  = drop
      (length (words (chars "one two three four"))
       - Z.to_nat (ten_thirteenths 3))
      (words (chars "one two three four")).
Proof.
  apply (overlap_is_last_words ten_thirteenths (chars "one two three four") 3).
  reflexivity.
Defined.

Lemma zero_overlap_keeps_all_words_witness :
  words (_get_overlap_text ten_thirteenths (chars "one two") 1)
  = words (chars "one two")
  /\ (has_ink (chars "one two") = true ->
      _get_overlap_text ten_thirteenths (chars "one two") 1
      = join [sp] (words (chars "one two"))).
Proof.
  apply (zero_overlap_keeps_all_words ten_thirteenths (chars "one two") 1).
  reflexivity.
Defined.

Lemma oversized_last_paragraph_repeats_overlap_witness :
  exists chunks c d,
    chunk_text char_tokens ten_thirteenths (chars "Alpha beta. Gamma delta.")
      10 3 None
    = chunks ++ [c; d]
    /\ text d = strip (_get_overlap_text ten_thirteenths (text c) 3)
    /\ (Z.of_nat (length (words (text c))) <= ten_thirteenths 3 ->
        text d = text c).
Proof.
  apply (oversized_last_paragraph_repeats_overlap char_tokens ten_thirteenths
           (chars "Alpha beta. Gamma delta.") 10 3 None []
           (chars "Alpha beta. Gamma delta.")).
  - reflexivity.
  - reflexivity.
  - discriminate.
Defined.

(** The chunks of this example: the first sentence, the overlap of two
    words with the second sentence, and the overlap of that chunk once
    more. *)
Example oversized_paragraph_chunks :
  map text
    (chunk_text char_tokens ten_thirteenths (chars "Alpha beta. Gamma delta.")
       10 3 None)
  = [chars "Alpha beta."; chars "Alpha beta. Gamma delta.";
     chars "Gamma delta."].
Proof. vm_compute. reflexivity. Qed.

End ChunkerSpec.

(** ** The dialogue segmentation engine *)

Module DialogueParserSpec.
Import PyStr PyStrFacts Data DialogueParser DialogueNotions.

(** C4. The turn body "[pause] hello [excited] world" gives the cues
    "pause" and "excited" in this order; the markers are taken out of the
    text, the doubled space they leave is collapsed, and the text of the
    turn is "hello world", in [parse_script] and in [parse_dialogue]. *)
Theorem cue_extraction_example :
  let body := chars "[pause] hello [excited] world" in
  let turn :=
    {| speaker := HOST_A; text := chars "hello world"; index := 0;
       cues := [chars "pause"; chars "excited"] |} in
  findall_cues body = [chars "pause"; chars "excited"]
  /\ sub_cues body = chars " hello  world"
  /\ clean_text_of body = chars "hello world"
  /\ parse_script (chars "HOST_A: " ++ body) = [turn]
  /\ parse_dialogue (chars "Mike: " ++ body) None = ([turn], []).
Proof. vm_compute. repeat split. Qed.

Lemma fold_dialogue_step (name_map : gmap str Speaker)
    (turns : list (str * str)) (segments : list SpeakerSegment)
    (warned : list str) :
  fold_left (dialogue_step name_map) turns (segments, warned)
  = (fold_left known_step (omap (resolve name_map) turns) segments,
     warned ++ map fst (List.filter (is_unknown name_map) turns)).
Proof.
  revert segments warned.
  induction turns as [|[name body] turns IH]; intros segments warned.
  - cbn. rewrite app_nil_r. reflexivity.
  - cbn [fold_left omap list_omap List.filter].
    unfold dialogue_step at 2, resolve at 1, is_unknown at 1. cbn [fst snd].
    destruct (name_map !! name) as [speaker|].
    + rewrite IH. reflexivity.
    + rewrite IH. cbn [map fst]. rewrite <- app_assoc. reflexivity.
Qed.

(** The script of [test_unknown_speaker_skipped]. *)
Example unknown_speaker_skipped :
  parse_dialogue
    (chars "
**Mike:** Hello!
**Unknown:** This should be skipped.
**Sarah:** Hey!
") None
  = ([{| speaker := HOST_A; text := chars "Hello!"; index := 0; cues := [] |};
      {| speaker := HOST_B; text := chars "Hey!"; index := 1; cues := [] |}],
     [chars "Unknown"]).
Proof. vm_compute. reflexivity. Qed.

(** *** The cue pattern *)

Lemma cue_shape_two_words (w1 gap w2 : str) :
  forallb is_word w1 = true -> w1 <> [] ->
  forallb is_space gap = true -> gap <> [] ->
  forallb is_word w2 = true -> w2 <> [] ->
  cue_shape (w1 ++ gap ++ w2) = true.
Proof.
  intros H1 N1 Hg Ng H2 N2. unfold cue_shape.
  rewrite (span_app is_word w1 (gap ++ w2) H1
             (forallb_head_stops _ _ gap w2 space_not_word Hg Ng)).
  apply truthy_true in N1. rewrite N1. cbn [andb].
  destruct (gap ++ w2) as [|d r] eqn:E.
  { apply app_eq_nil in E. tauto. }
  rewrite <- E.
  assert (Hw2 : stops is_space w2).
  { rewrite <- (app_nil_r w2).
    exact (forallb_head_stops _ _ w2 [] word_not_space H2 N2). }
  rewrite (span_app is_space gap w2 Hg Hw2), (span_self is_word w2 H2).
  apply truthy_true in Ng, N2. rewrite Ng, N2. reflexivity.
Qed.

Lemma cue_shape_one_word (w1 : str) :
  forallb is_word w1 = true -> w1 <> [] -> cue_shape w1 = true.
Proof.
  intros H1 N1. unfold cue_shape. rewrite (span_self is_word w1 H1).
  apply truthy_true in N1. rewrite N1. reflexivity.
Qed.

(** What a match of [_CUE_PATTERN] looks like. *)
Lemma match_cue_sound (s g : str) (n : nat) :
  match_cue s = Some (g, n) ->
  exists rest,
    s = lbracket :: g ++ rbracket :: rest
    /\ n = (2 + length g)%nat /\ cue_shape g = true.
Proof.
  unfold match_cue. destruct s as [|c s1]; [discriminate|].
  destruct (ch_eqb c lbracket) eqn:Ec; [|discriminate].
  apply ch_eqb_eq in Ec. subst c.
  destruct (span is_word s1) as [w1 r1] eqn:E1.
  destruct (truthy w1) eqn:T1; [|discriminate].
  apply truthy_true in T1.
  pose proof (span_all _ _ _ _ E1) as A1.
  destruct r1 as [|d r1']; [discriminate|].
  destruct (ch_eqb d rbracket) eqn:Ed.
  - intros [= <- <-]. apply ch_eqb_eq in Ed. subst d.
    exists r1'. split; [f_equal; eapply span_eq; exact E1|].
    split; [reflexivity|]. apply cue_shape_one_word; assumption.
  - destruct (span is_space (d :: r1')) as [gap r2] eqn:E2.
    destruct (span is_word r2) as [w2 r3] eqn:E3.
    destruct (truthy gap) eqn:Tg; [|discriminate].
    destruct (truthy w2) eqn:T2; [|discriminate]. cbn [andb].
    destruct r3 as [|e r3']; [discriminate|].
    destruct (ch_eqb e rbracket) eqn:Ee; [|discriminate].
    intros [= <- <-]. apply ch_eqb_eq in Ee. subst e.
    apply truthy_true in Tg, T2.
    exists r3'. split; [|split].
    + f_equal. rewrite <- !app_assoc.
      rewrite (span_eq _ _ _ _ E1), (span_eq _ _ _ _ E2),
        (span_eq _ _ _ _ E3). reflexivity.
    + rewrite !length_app. lia.
    + apply cue_shape_two_words; try assumption.
      * eapply span_all. exact E2.
      * eapply span_all. exact E3.
Qed.

Lemma bracket_stops_word (c : ascii) : is_bracket c = true -> is_word c = false.
Proof.
  unfold is_bracket. intros H. apply orb_true_iff in H.
  destruct H as [H|H]; apply ch_eqb_eq in H; subst c; reflexivity.
Qed.

Lemma bracket_stops_space (c : ascii) :
  is_bracket c = true -> is_space c = false.
Proof.
  unfold is_bracket. intros H. apply orb_true_iff in H.
  destruct H as [H|H]; apply ch_eqb_eq in H; subst c; reflexivity.
Qed.

Lemma forallb_no_brackets (p : ascii -> bool) (s : str) :
  (forall c, is_bracket c = true -> p c = false) ->
  forallb p s = true -> no_brackets s = true.
Proof.
  intros Hp. unfold no_brackets. induction s as [|c s IH]; [reflexivity|].
  cbn. intros H. apply andb_true_iff in H. destruct H as [Hc Hs].
  rewrite (IH Hs), andb_true_r.
  destruct (is_bracket c) eqn:E; [|reflexivity].
  rewrite (Hp c E) in Hc. discriminate.
Qed.

Lemma no_brackets_app (a b : str) :
  no_brackets (a ++ b) = no_brackets a && no_brackets b.
Proof. apply forallb_app. Qed.

Lemma no_brackets_not_in (s : str) (c : ascii) :
  no_brackets s = true -> is_bracket c = true -> ~ In c s.
Proof.
  unfold no_brackets. intros H Hc Hin.
  rewrite forallb_forall in H. specialize (H c Hin).
  rewrite Hc in H. discriminate.
Qed.

Lemma cue_shape_no_brackets (g : str) :
  cue_shape g = true -> no_brackets g = true.
Proof.
  unfold cue_shape.
  destruct (span is_word g) as [w1 r1] eqn:E1.
  pose proof (span_eq _ _ _ _ E1) as ->.
  pose proof (span_all _ _ _ _ E1) as A1.
  intros H. apply andb_true_iff in H. destruct H as [_ H].
  rewrite no_brackets_app.
  rewrite (forallb_no_brackets is_word w1 bracket_stops_word A1). cbn [andb].
  destruct r1 as [|d r1']; [reflexivity|].
  destruct (span is_space (d :: r1')) as [gap r2] eqn:E2.
  destruct (span is_word r2) as [w2 r3] eqn:E3.
  rewrite (span_eq _ _ _ _ E2), (span_eq _ _ _ _ E3).
  apply andb_true_iff in H. destruct H as [_ H].
  destruct r3; [|discriminate].
  rewrite app_nil_r, no_brackets_app.
  rewrite (forallb_no_brackets is_space gap bracket_stops_space
             (span_all _ _ _ _ E2)).
  rewrite (forallb_no_brackets is_word w2 bracket_stops_word
             (span_all _ _ _ _ E3)).
  reflexivity.
Qed.

(** A bracketed text that has the shape of a cue is matched. *)
Lemma match_cue_complete (g rest : str) :
  cue_shape g = true ->
  match_cue (lbracket :: g ++ rbracket :: rest)
  = Some (g, (2 + length g)%nat).
Proof.
  unfold cue_shape, match_cue. cbn [ch_eqb]. rewrite Ascii.eqb_refl.
  rewrite (span_app_stop is_word g rbracket rest eq_refl).
  destruct (span is_word g) as [w1 r1] eqn:E1. cbn [fst snd].
  pose proof (span_eq _ _ _ _ E1) as ->.
  intros H. apply andb_true_iff in H. destruct H as [T1 H]. rewrite T1.
  destruct r1 as [|d r1'].
  - cbn [app]. unfold ch_eqb. rewrite Ascii.eqb_refl, app_nil_r.
    reflexivity.
  - cbn [app].
    change (d :: r1' ++ rbracket :: rest)
      with ((d :: r1') ++ rbracket :: rest).
    rewrite (span_app_stop is_space (d :: r1') rbracket rest eq_refl).
    destruct (span is_space (d :: r1')) as [gap r2] eqn:E2. cbn [fst snd].
    rewrite (span_app_stop is_word r2 rbracket rest eq_refl).
    destruct (span is_word r2) as [w2 r3] eqn:E3. cbn [fst snd].
    apply andb_true_iff in H. destruct H as [H T3].
    rewrite H. destruct r3; [|discriminate].
    assert (Hd : ch_eqb d rbracket = false).
    { apply ch_eqb_neq. intros ->.
      apply andb_true_iff in H. destruct H as [Tg _].
      destruct gap as [|b gap]; [discriminate|].
      pose proof (span_eq _ _ _ _ E2) as E. cbn in E.
      injection E as <- _.
      pose proof (span_all _ _ _ _ E2) as A. cbn in A. discriminate. }
    rewrite Hd. cbn [app]. unfold ch_eqb. rewrite Ascii.eqb_refl.
    rewrite (span_eq _ _ _ _ E2), (span_eq _ _ _ _ E3), app_nil_r.
    rewrite !length_app. f_equal. f_equal. lia.
Qed.

(** A bracketed text without inner brackets that has not the shape of a
    cue is not matched. *)
Lemma match_cue_not_shape (inner post : str) :
  no_brackets inner = true -> cue_shape inner = false ->
  match_cue (lbracket :: inner ++ rbracket :: post) = None.
Proof.
  intros Hnb Hshape.
  destruct (match_cue (lbracket :: inner ++ rbracket :: post))
    as [[g n]|] eqn:E; [|reflexivity].
  apply match_cue_sound in E. destruct E as (rest & E & _ & Hg).
  injection E as E.
  apply cut_unique in E.
  - destruct E as [-> _]. congruence.
  - apply no_brackets_not_in; [exact Hnb | reflexivity].
  - apply no_brackets_not_in; [apply cue_shape_no_brackets, Hg | reflexivity].
Qed.

Lemma match_cue_other_head (c : ascii) (s : str) :
  ch_eqb c lbracket = false -> match_cue (c :: s) = None.
Proof. intros H. cbn. rewrite H. reflexivity. Qed.

Lemma findall_cues_shape (s : str) (k : nat) :
  Forall (fun g => cue_shape g = true) (findall_cues_from k s).
Proof.
  revert k. induction s as [|c s IH]; intros k; [constructor|].
  cbn [findall_cues_from]. destruct k as [|k]; [|apply IH].
  destruct (match_cue (c :: s)) as [[g n]|] eqn:E; [|apply IH].
  constructor; [|apply IH].
  apply match_cue_sound in E. destruct E as (_ & _ & _ & H). exact H.
Qed.

Lemma sub_cues_from_plain (x y : str) :
  forallb not_open x = true ->
  sub_cues_from 0 (x ++ y) = x ++ sub_cues_from 0 y.
Proof.
  induction x as [|c x IH]; [reflexivity|]. cbn [forallb]. intros H.
  apply andb_true_iff in H. destruct H as [Hc Hx].
  cbn [app sub_cues_from].
  rewrite match_cue_other_head by (apply negb_true_iff; exact Hc).
  rewrite (IH Hx). reflexivity.
Qed.

Lemma no_brackets_not_open (s : str) :
  no_brackets s = true -> forallb not_open s = true.
Proof.
  unfold no_brackets. induction s as [|c s IH]; [reflexivity|]. cbn.
  intros H. apply andb_true_iff in H. destruct H as [Hc Hs].
  rewrite (IH Hs), andb_true_r. unfold not_open, is_bracket in *.
  destruct (ch_eqb c lbracket); [discriminate|reflexivity].
Qed.

(** An opening bracket that comes before the closing bracket of a match
    lies after the match. *)
Lemma open_after_match (g pre y rest : str) :
  no_brackets g = true ->
  pre ++ lbracket :: y = g ++ rbracket :: rest ->
  (length g < length pre)%nat.
Proof.
  revert pre. induction g as [|a g IH]; intros pre Hg E.
  - destruct pre; [discriminate|]. cbn. lia.
  - cbn in Hg. apply andb_true_iff in Hg. destruct Hg as [Ha Hg].
    destruct pre as [|b pre].
    + injection E as <- _. discriminate.
    + injection E as _ E. cbn. apply IH in E; [lia|exact Hg].
Qed.

Lemma sub_cues_from_prefix (pre : str) (k : nat) (y : str) :
  (k <= length pre)%nat ->
  exists a,
    sub_cues_from k (pre ++ lbracket :: y)
    = a ++ sub_cues_from 0 (lbracket :: y).
Proof.
  revert k. induction pre as [|c pre IH]; intros k Hk.
  - cbn in Hk. assert (k = 0%nat) as -> by lia. exists []. reflexivity.
  - cbn [app]. destruct k as [|k].
    + change (sub_cues_from 0 (c :: pre ++ lbracket :: y))
        with (match match_cue (c :: pre ++ lbracket :: y) with
              | Some (_, n) => sub_cues_from (n - 1) (pre ++ lbracket :: y)
              | None => c :: sub_cues_from 0 (pre ++ lbracket :: y)
              end).
      destruct (match_cue (c :: pre ++ lbracket :: y)) as [[g n]|] eqn:E.
      * apply match_cue_sound in E. destruct E as (rest & E & -> & Hg).
        injection E as -> E.
        apply open_after_match in E; [|apply cue_shape_no_brackets, Hg].
        apply IH. lia.
      * destruct (IH 0%nat ltac:(lia)) as [a Ha]. exists (c :: a).
        rewrite Ha. reflexivity.
    + cbn [sub_cues_from]. apply IH. cbn in Hk. lia.
Qed.

(** A bracketed text that is not a cue stays in the text when the cue
    markers are taken out. *)
Lemma sub_cues_keeps (pre inner post : str) :
  no_brackets inner = true -> cue_shape inner = false ->
  exists a,
    sub_cues (pre ++ lbracket :: inner ++ rbracket :: post)
    = a ++ lbracket :: inner ++ rbracket :: sub_cues post.
Proof.
  intros Hnb Hshape. unfold sub_cues.
  destruct (sub_cues_from_prefix pre 0 (inner ++ rbracket :: post)
              ltac:(lia)) as [a ->].
  exists a. f_equal.
  change (sub_cues_from 0 (lbracket :: inner ++ rbracket :: post))
    with (match match_cue (lbracket :: inner ++ rbracket :: post) with
          | Some (_, n) => sub_cues_from (n - 1) (inner ++ rbracket :: post)
          | None => lbracket :: sub_cues_from 0 (inner ++ rbracket :: post)
          end).
  rewrite (match_cue_not_shape inner post Hnb Hshape). f_equal.
  rewrite sub_cues_from_plain by (apply no_brackets_not_open, Hnb).
  f_equal.
Qed.

Lemma collapse_from_app_ink (f : bool) (x : str) (c : ascii) (y : str) :
  is_space c = false ->
  collapse_from f (x ++ c :: y)
  = collapse_from f x ++ c :: collapse_from false y.
Proof.
  intros Hc. revert f. induction x as [|d x IH]; intros f.
  - cbn. rewrite Hc. reflexivity.
  - cbn [app collapse_from]. destruct (is_space d) eqn:Ed.
    + destruct f; [apply IH|].
      destruct x as [|e x].
      * cbn. rewrite Hc. reflexivity.
      * cbn [app]. destruct (is_space e) eqn:Ee.
        -- rewrite IH. reflexivity.
        -- rewrite IH. reflexivity.
    + rewrite IH. reflexivity.
Qed.

Lemma collapse_single_spaced (s : str) :
  single_spaced s = true -> collapse_from false s = s.
Proof.
  induction s as [|c s IH]; [reflexivity|]. cbn [single_spaced].
  intros H. apply andb_true_iff in H. destruct H as [Hc Hs].
  cbn [collapse_from]. rewrite (IH Hs).
  destruct (is_space c); [|reflexivity].
  destruct s as [|d s]; [reflexivity|].
  cbn [andb] in Hc. apply negb_true_iff in Hc. rewrite Hc. reflexivity.
Qed.

(** C10, as the code has it.  Everything [_CUE_PATTERN] extracts is a
    single word or two words separated by whitespace.  A bracketed text
    without inner brackets that has not this shape is not among the cues
    and stays in the cleaned text of the turn, with every run of two or
    more whitespace characters inside it collapsed to one space, so
    verbatim when it has no such run; the cleaned text is the text of the
    emitted segment when it is at most 500 characters long. *)
Theorem non_cue_brackets_stay (speaker : Speaker) (pre inner post : str)
    (segments : list SpeakerSegment) :
  no_brackets inner = true -> cue_shape inner = false ->
  let body := pre ++ lbracket :: inner ++ rbracket :: post in
  Forall (fun g => cue_shape g = true) (findall_cues body)
  /\ ~ In inner (findall_cues body)
  /\ (exists a b,
        clean_text_of body
        = a ++ lbracket :: collapse_ws inner ++ rbracket :: b)
  /\ (single_spaced inner = true -> collapse_ws inner = inner)
  /\ ((length (clean_text_of body) <= _MAX_SEGMENT_CHARS)%nat ->
      append_turn speaker body segments
      = segments ++
          [{| Data.speaker := speaker; text := clean_text_of body;
              index := length segments; cues := findall_cues body |}]).
Proof.
  intros Hnb Hshape body.
  pose proof (findall_cues_shape body 0) as Hall.
  fold (findall_cues body) in Hall.
  assert (Hclean : exists a b,
            clean_text_of body
            = a ++ lbracket :: collapse_ws inner ++ rbracket :: b).
  { unfold clean_text_of, body.
    destruct (sub_cues_keeps pre inner post Hnb Hshape) as [a ->].
    rewrite strip_around by reflexivity.
    unfold collapse_ws.
    rewrite collapse_from_app_ink by reflexivity.
    rewrite collapse_from_app_ink by reflexivity.
    eexists _, _. reflexivity. }
  split; [exact Hall|]. split; [|split; [exact Hclean|split]].
  - intros Hin. rewrite List.Forall_forall in Hall.
    specialize (Hall inner Hin). congruence.
  - apply collapse_single_spaced.
  - intros Hshort. unfold append_turn.
    destruct Hclean as (a & b & Hc).
    assert (Hne : truthy (clean_text_of body) = true).
    { apply truthy_true. rewrite Hc. intros E.
      apply app_eq_nil in E. destruct E; discriminate. }
    rewrite Hne. cbn [negb].
    apply Nat.ltb_ge in Hshort. rewrite Hshort. reflexivity.
Qed.

(** C10 fails as stated: a bracketed phrase of three words with doubled
    spaces is no cue, and it does not stay verbatim: its doubled spaces
    are collapsed. *)
Lemma spaced_bracket_text_altered :
  let inner := chars "wait  for  it" in
  let bracketed := lbracket :: inner ++ [rbracket] in
  cue_shape inner = false
  /\ parse_dialogue (chars "Mike: " ++ bracketed ++ chars " go") None
     = ([{| speaker := HOST_A; text := chars "[wait for it] go"; index := 0;
            cues := [] |}], [])
  /\ contains bracketed (chars "[wait for it] go") = false.
Proof. vm_compute. repeat split. Qed.

Lemma non_cue_brackets_stay_witness :
  let inner := chars "one two three" in
  let body := chars "so " ++ lbracket :: inner ++ rbracket :: chars " it is" in
  ~ In inner (findall_cues body)
  /\ clean_text_of body = chars "so [one two three] it is".
Proof.
  destruct (non_cue_brackets_stay HOST_A (chars "so ")
              (chars "one two three") (chars " it is") []
              eq_refl eq_refl) as (_ & Hnot & _ & _ & _).
  split; [exact Hnot|]. vm_compute. reflexivity.
Defined.

(** *** Long turns *)

Lemma append_subs_sub_turns (speaker : Speaker) (cs : list str)
    (texts : list str) (j : nat) (segments : list SpeakerSegment) :
  append_subs speaker cs j texts segments
  = segments ++ sub_turns speaker cs j (length segments) texts.
Proof.
  revert j segments.
  induction texts as [|sub rest IH]; intros j segments; cbn.
  - rewrite app_nil_r. reflexivity.
  - rewrite IH, length_app, <- app_assoc. cbn.
    replace (length segments + 1)%nat with (S (length segments)) by lia.
    reflexivity.
Qed.

Lemma sub_turns_text (speaker : Speaker) (cs : list str) (texts : list str)
    (j base : nat) :
  map text (sub_turns speaker cs j base texts) = texts.
Proof.
  revert j base. induction texts as [|sub rest IH]; intros j base; cbn;
    [reflexivity|]. rewrite IH. reflexivity.
Qed.

Lemma sub_turns_index (speaker : Speaker) (cs : list str) (texts : list str)
    (j base : nat) :
  map index (sub_turns speaker cs j base texts) = seq base (length texts).
Proof.
  revert j base. induction texts as [|sub rest IH]; intros j base; cbn;
    [reflexivity|]. rewrite IH. reflexivity.
Qed.

Lemma sub_turns_length (speaker : Speaker) (cs : list str)
    (texts : list str) (j base : nat) :
  length (sub_turns speaker cs j base texts) = length texts.
Proof.
  rewrite <- (length_map text), sub_turns_text. reflexivity.
Qed.

Lemma sub_turns_speaker (speaker : Speaker) (cs : list str)
    (texts : list str) (j base : nat) :
  Forall (fun seg => Data.speaker seg = speaker)
    (sub_turns speaker cs j base texts).
Proof.
  revert j base. induction texts as [|sub rest IH]; intros j base; cbn;
    constructor; [reflexivity | apply IH].
Qed.

Lemma sub_turns_trailing_cues (speaker : Speaker) (cs : list str)
    (texts : list str) (j base : nat) :
  Forall (fun seg => cues seg = []) (sub_turns speaker cs (S j) base texts).
Proof.
  revert j base. induction texts as [|sub rest IH]; intros j base; cbn;
    constructor; [reflexivity | apply IH].
Qed.

Lemma append_turn_extends (speaker : Speaker) (body : str)
    (segments : list SpeakerSegment) :
  exists new, append_turn speaker body segments = segments ++ new.
Proof.
  unfold append_turn.
  destruct (negb (truthy (clean_text_of body))).
  - exists []. rewrite app_nil_r. reflexivity.
  - destruct (_ <? _)%nat.
    + rewrite append_subs_sub_turns. eexists. reflexivity.
    + eexists. reflexivity.
Qed.

Lemma fold_script_step_extends (turns : list (str * str))
    (segments : list SpeakerSegment) :
  exists more, fold_left script_step turns segments = segments ++ more.
Proof.
  revert segments. induction turns as [|[tag body] turns IH]; intros segments.
  - exists []. rewrite app_nil_r. reflexivity.
  - cbn [fold_left]. unfold script_step at 2.
    destruct (append_turn_extends (speaker_of_tag tag) body segments)
      as [new ->].
    destruct (IH (segments ++ new)) as [more ->].
    exists (new ++ more). rewrite app_assoc. reflexivity.
Qed.

Lemma pack_step_progress (st : list str * str) (sent : str) :
  (fst st <> [] \/ has_ink (snd st) = true \/ has_ink sent = true) ->
  fst (pack_step st sent) <> []
  \/ has_ink (snd (pack_step st sent)) = true.
Proof.
  destruct st as [parts current]. cbn [fst snd]. unfold pack_step.
  destruct (_ && _) eqn:E; cbn [fst snd].
  - intros _. left. intros H. apply app_eq_nil in H. destruct H; discriminate.
  - intros [H|[H|H]]; [left; exact H| |].
    + right. destruct current; [discriminate|]. cbn [truthy].
      rewrite has_ink_app, H. reflexivity.
    + right. destruct (truthy current); [|exact H].
      rewrite !has_ink_app, H, !orb_true_r. reflexivity.
Qed.

Lemma fold_pack_progress (sentences : list str) (st : list str * str) :
  (fst st <> [] \/ has_ink (snd st) = true
   \/ existsb has_ink sentences = true) ->
  fst (fold_left pack_step sentences st) <> []
  \/ has_ink (snd (fold_left pack_step sentences st)) = true.
Proof.
  revert st. induction sentences as [|sent rest IH]; intros st H.
  - cbn in *. destruct H as [H|[H|H]]; [left|right|discriminate]; exact H.
  - cbn [fold_left]. apply IH.
    cbn [existsb] in H.
    assert (H' : (fst st <> [] \/ has_ink (snd st) = true
                  \/ has_ink sent = true)
                 \/ existsb has_ink rest = true).
    { destruct H as [H|[H|H]]; [auto | auto |].
      apply orb_true_iff in H. tauto. }
    destruct H' as [H'|H']; [|auto].
    destruct (pack_step_progress st sent H') as [P|P]; auto.
Qed.

Lemma split_long_segment_nonempty (body : str) :
  has_ink body = true -> _split_long_segment body <> [].
Proof.
  intros Hink. unfold _split_long_segment.
  pose proof (fold_pack_progress (split_sentences body) ([], [])) as H.
  destruct (fold_left pack_step (split_sentences body) ([], []))
    as [parts current].
  cbn [fst snd] in H.
  destruct H as [H|H].
  - right. right. unfold split_sentences.
    rewrite split_sentences_from_ink. exact Hink.
  - destruct (truthy (strip current)); [|exact H].
    intros E. apply app_eq_nil in E. tauto.
  - rewrite <- has_ink_strip in H. apply has_ink_nonempty in H.
    apply truthy_true in H. rewrite H.
    intros E. apply app_eq_nil in E. destruct E; discriminate.
Qed.

Lemma collapse_from_ink (f : bool) (c : ascii) (r : str) :
  is_space c = false ->
  collapse_from f (c :: r) = c :: collapse_from false r.
Proof. intros Hc. cbn. rewrite Hc. reflexivity. Qed.

Lemma clean_text_ink (body : str) :
  clean_text_of body <> [] -> has_ink (clean_text_of body) = true.
Proof.
  unfold clean_text_of, collapse_ws. intros Hne.
  assert (Hs : strip (sub_cues body) <> [])
    by (intros E; rewrite E in Hne; apply Hne; reflexivity).
  destruct (tight_head _ (strip_tight _ Hs)) as (c & r & -> & Hc).
  rewrite collapse_from_ink by exact Hc. cbn. rewrite Hc. reflexivity.
Qed.

(** C3, as the code has it.  A turn whose cleaned body is longer than 500
    characters is emitted as one or more consecutive segments, one for
    each part [_split_long_segment] makes of the cleaned body by packing
    whole sentences; they all have the speaker of the turn, their indices
    continue the count, the first one carries the cue list of the turn
    and every later one has an empty cue list. *)
Theorem long_turn_split_by_sentences (script : str)
    (pre post : list (str * str)) (tag body : str) :
  _split_into_turns script None = pre ++ (tag, body) :: post ->
  (_MAX_SEGMENT_CHARS < length (clean_text_of body))%nat ->
  let before := fold_left script_step pre [] in
  exists first rest after,
    parse_script script = before ++ (first :: rest) ++ after
    /\ map text (first :: rest) = _split_long_segment (clean_text_of body)
    /\ Forall (fun seg => speaker seg = speaker_of_tag tag) (first :: rest)
    /\ map index (first :: rest) = seq (length before) (S (length rest))
    /\ cues first = findall_cues body
    /\ Forall (fun seg => cues seg = []) rest.
Proof.
  intros Hturns Hlong before.
  assert (Hne : clean_text_of body <> [])
    by (intros E; rewrite E in Hlong; cbn in Hlong; lia).
  pose proof (split_long_segment_nonempty _ (clean_text_ink _ Hne)) as Hparts.
  unfold parse_script. rewrite Hturns, fold_left_app. fold before.
  cbn [fold_left]. unfold script_step at 2. unfold append_turn.
  apply truthy_true in Hne. rewrite Hne. cbn [negb].
  apply Nat.ltb_lt in Hlong. rewrite Hlong.
  rewrite append_subs_sub_turns.
  destruct (fold_script_step_extends post
              (before ++ sub_turns (speaker_of_tag tag) (findall_cues body) 0
                 (length before) (_split_long_segment (clean_text_of body))))
    as [after ->].
  pose proof (sub_turns_text (speaker_of_tag tag) (findall_cues body)
                (_split_long_segment (clean_text_of body)) 0 (length before))
    as Htext.
  pose proof (sub_turns_index (speaker_of_tag tag) (findall_cues body)
                (_split_long_segment (clean_text_of body)) 0 (length before))
    as Hindex.
  pose proof (sub_turns_speaker (speaker_of_tag tag) (findall_cues body)
                (_split_long_segment (clean_text_of body)) 0 (length before))
    as Hspeaker.
  destruct (_split_long_segment (clean_text_of body)) as [|part parts];
    [congruence|].
  cbn [sub_turns] in *.
  eexists _, _, after. rewrite <- app_assoc.
  split; [reflexivity|].
  split; [exact Htext|].
  split; [exact Hspeaker|].
  split; [rewrite Hindex, sub_turns_length; reflexivity|].
  split; [reflexivity|].
  apply sub_turns_trailing_cues.
Qed.

(** C3 fails as stated: a turn of 501 letters without any sentence end is
    emitted as one segment of 501 characters. *)
Lemma long_turn_without_sentence_end :
  let body := repeat "a"%char 501 in
  (_MAX_SEGMENT_CHARS <? length (clean_text_of body))%nat = true
  /\ parse_script (chars "HOST_A: " ++ body)
     = [{| speaker := HOST_A; text := body; index := 0; cues := [] |}].
Proof. vm_compute. split; reflexivity. Qed.

Lemma long_turn_split_by_sentences_witness :
  exists first rest after,
    parse_script long_turn_script = [] ++ (first :: rest) ++ after
    /\ map text (first :: rest)
       = _split_long_segment (clean_text_of long_turn_body)
    /\ Forall (fun seg => speaker seg = HOST_A) (first :: rest)
    /\ map index (first :: rest) = seq 0 (S (length rest))
    /\ cues first = findall_cues long_turn_body
    /\ Forall (fun seg => cues seg = []) rest.
Proof.
  apply (long_turn_split_by_sentences long_turn_script [] []
           (chars "HOST_A") long_turn_body).
  - vm_compute. reflexivity.
  - apply Nat.ltb_lt. vm_compute. reflexivity.
Defined.

(** The long turn of the examples becomes two segments of 499 and 99
    characters; only the first has the cue. *)
Example long_turn_segments :
  map (fun seg => (length (text seg), index seg, cues seg))
    (parse_script long_turn_script)
  = [(499%nat, 0%nat, [chars "pause"]); (99%nat, 1%nat, [])].
Proof. vm_compute. reflexivity. Qed.

(** *** Speaker markers *)

Lemma strip_prefix_spec (p s r : str) :
  strip_prefix p s = Some r <-> s = p ++ r.
Proof.
  revert s. induction p as [|a p IH]; intros s; cbn [strip_prefix app].
  - split; [intros [= ->]; reflexivity | intros ->; reflexivity].
  - destruct s as [|b s]; [split; discriminate|].
    destruct (ch_eqb a b) eqn:E.
    + apply ch_eqb_eq in E. subst b. rewrite IH.
      split; [intros ->; reflexivity | intros [= ->]; reflexivity].
    + apply ch_eqb_neq in E. split; [discriminate|].
      intros [= -> _]. congruence.
Qed.

Lemma host_marker_sound (s g : str) (n : nat) :
  host_marker s = Some (g, n) ->
  exists x gap r,
    s = chars "HOST_" ++ x :: gap ++ colon :: r
    /\ is_host_letter x = true
    /\ forallb is_space gap = true
    /\ g = chars "HOST_" ++ [x] /\ n = (7 + length gap)%nat.
Proof.
  unfold host_marker.
  destruct (strip_prefix (chars "HOST_") s) as [[|x r]|] eqn:E;
    try discriminate.
  apply strip_prefix_spec in E.
  fold (is_host_letter x).
  destruct (is_host_letter x) eqn:Ex; [|discriminate].
  destruct (span is_space r) as [gap r'] eqn:Es.
  destruct r' as [|d r']; [discriminate|].
  destruct (ch_eqb d colon) eqn:Ed; [|discriminate].
  apply ch_eqb_eq in Ed. subst d. intros [= <- <-].
  exists x, gap, r'. rewrite (span_eq _ _ _ _ Es) in E.
  repeat split; try assumption. eapply span_all. exact Es.
Qed.

Lemma host_marker_complete (x : ascii) (gap r : str) :
  is_host_letter x = true -> forallb is_space gap = true ->
  host_marker (chars "HOST_" ++ x :: gap ++ colon :: r)
  = Some (chars "HOST_" ++ [x], (7 + length gap)%nat).
Proof.
  intros Hx Hgap. unfold host_marker.
  rewrite (proj2 (strip_prefix_spec (chars "HOST_") _ (x :: gap ++ colon :: r))
             eq_refl).
  fold (is_host_letter x). rewrite Hx.
  rewrite (span_app is_space gap (colon :: r) Hgap eq_refl).
  unfold ch_eqb. rewrite Ascii.eqb_refl. reflexivity.
Qed.

Lemma host_marker_value (speaker : Speaker) (r : str) :
  host_marker (value speaker ++ colon :: r) = Some (value speaker, 7%nat).
Proof.
  destruct speaker.
  - exact (host_marker_complete "A"%char [] r eq_refl eq_refl).
  - exact (host_marker_complete "B"%char [] r eq_refl eq_refl).
Qed.

Lemma speaker_of_tag_value (speaker : Speaker) :
  speaker_of_tag (value speaker) = speaker.
Proof. destruct speaker; reflexivity. Qed.

Lemma host_marker_head (c : ascii) (s : str) :
  ch_eqb c "H"%char = false -> host_marker (c :: s) = None.
Proof.
  intros H. destruct (host_marker (c :: s)) as [[g n]|] eqn:E; [|reflexivity].
  apply host_marker_sound in E. destruct E as (x & gap & r & E & _).
  injection E as -> _. discriminate.
Qed.

Lemma host_letter_word (x : ascii) : is_host_letter x = true -> is_word x = true.
Proof.
  unfold is_host_letter. intros H. apply orb_true_iff in H.
  destruct H as [H|H]; apply ch_eqb_eq in H; subst x; reflexivity.
Qed.

(** A speaker marker does not begin with a word that is followed by a
    closing bracket. *)
Lemma host_marker_word_bracket (w f : str) :
  forallb is_word w = true -> host_marker (w ++ rbracket :: f) = None.
Proof.
  intros Hw.
  destruct (host_marker (w ++ rbracket :: f)) as [[g n]|] eqn:E;
    [|reflexivity].
  apply host_marker_sound in E.
  destruct E as (x & gap & r & E & Hx & Hgap & _).
  assert (S1 : span is_word (w ++ rbracket :: f) = (w, rbracket :: f))
    by (apply span_app; [exact Hw | reflexivity]).
  assert (S2 : span is_word (w ++ rbracket :: f)
               = (chars "HOST_" ++ [x], gap ++ colon :: r)).
  { rewrite E.
    change (chars "HOST_" ++ x :: gap ++ colon :: r)
      with ((chars "HOST_" ++ [x]) ++ gap ++ colon :: r).
    apply span_app.
    - cbn. rewrite (host_letter_word x Hx). reflexivity.
    - destruct gap as [|d gap]; [reflexivity|]. cbn in *.
      apply andb_true_iff in Hgap. apply space_not_word. tauto. }
  rewrite S1 in S2. injection S2 as _ S2.
  destruct gap as [|d gap]; [discriminate|].
  injection S2 as <- _. discriminate.
Qed.

(** What follows a line of a serialized script cannot complete a speaker
    marker that begins in the line. *)
Lemma host_marker_calm (u f : str) :
  calm f -> host_marker u = None -> host_marker (u ++ f) = None.
Proof.
  intros [->|[r' ->]] Hu; [rewrite app_nil_r; exact Hu|].
  destruct (host_marker (u ++ nl :: nl :: "H"%char :: r')) as [[g n]|] eqn:E;
    [|reflexivity].
  exfalso. apply host_marker_sound in E.
  destruct E as (x & gap & r & E & Hx & Hgap & _).
  assert (Hfollow : forall m k,
            forallb is_space m = true ->
            gap ++ colon :: r = m ++ nl :: nl :: "H"%char :: k -> False).
  { intros m k Hm Em.
    pose proof (span_app is_space gap (colon :: r) Hgap eq_refl) as S1.
    rewrite Em in S1.
    change (m ++ nl :: nl :: "H"%char :: k)
      with (m ++ [nl; nl] ++ "H"%char :: k) in S1.
    rewrite app_assoc in S1.
    rewrite (span_app is_space (m ++ [nl; nl]) ("H"%char :: k)) in S1.
    - injection S1 as _ S1. discriminate.
    - rewrite forallb_app, Hm. reflexivity.
    - reflexivity. }
  change (chars "HOST_" ++ x :: gap ++ colon :: r)
    with ((chars "HOST_" ++ [x]) ++ gap ++ colon :: r) in E.
  apply app_eq_app in E. destruct E as [l [[E1 E2]|[E1 E2]]].
  - (* the tag lies in the line *)
    pose proof E2 as E3.
    apply app_eq_app in E3. destruct E3 as [k [[E3 E4]|[E3 E4]]].
    + rewrite E3 in Hgap. rewrite forallb_app in Hgap.
      apply andb_true_iff in Hgap. destruct Hgap as [Hl _].
      exact (Hfollow l r' Hl E2).
    + destruct k as [|c k]; [discriminate|].
      injection E4 as <- E4.
      rewrite E1, E3 in Hu. rewrite <- !app_assoc in Hu.
      change (chars "HOST_" ++ [x] ++ gap ++ colon :: k)
        with (chars "HOST_" ++ x :: gap ++ colon :: k) in Hu.
      rewrite (host_marker_complete x gap k Hx Hgap) in Hu.
      discriminate.
  - (* the line ends inside the tag *)
    destruct l as [|c l].
    + apply (Hfollow [] r' eq_refl). symmetry. exact E2.
    + injection E2 as <- _.
      assert (Hin : In nl (chars "HOST_" ++ [x])).
      { rewrite E1. apply in_or_app. right. left. reflexivity. }
      cbn in Hin.
      destruct Hin as [H|[H|[H|[H|[H|[H|[]]]]]]]; try discriminate.
      subst x. discriminate.
Qed.

(** *** Scanning for speaker markers *)

Lemma scan_turns_cons (b : bool) (c : ascii) (x : str) :
  scan_turns host_marker b 0 (c :: x)
  = match (if b then host_marker (c :: x) else None) with
    | Some (g, n) =>
        ([], (g, fst (scan_turns host_marker (ch_eqb c nl) (n - 1) x))
             :: snd (scan_turns host_marker (ch_eqb c nl) (n - 1) x))
    | None =>
        (c :: fst (scan_turns host_marker (ch_eqb c nl) 0 x),
         snd (scan_turns host_marker (ch_eqb c nl) 0 x))
    end.
Proof.
  cbn [scan_turns].
  destruct (if b then host_marker (c :: x) else None) as [[g n]|].
  - destruct (scan_turns host_marker (ch_eqb c nl) (n - 1) x). reflexivity.
  - destruct (scan_turns host_marker (ch_eqb c nl) 0 x). reflexivity.
Qed.

Lemma scan_turns_plain (b : bool) (c : ascii) (x : str) :
  (b = true -> host_marker (c :: x) = None) ->
  scan_turns host_marker b 0 (c :: x)
  = (c :: fst (scan_turns host_marker (ch_eqb c nl) 0 x),
     snd (scan_turns host_marker (ch_eqb c nl) 0 x)).
Proof.
  intros H. rewrite scan_turns_cons.
  destruct b; [rewrite (H eq_refl)|]; reflexivity.
Qed.

Lemma scan_turns_skip (x f : str) (b : bool) :
  scan_turns host_marker b (length x) (x ++ f)
  = scan_turns host_marker (bol_after b x) 0 f.
Proof.
  revert b. induction x as [|c x IH]; intros b; [reflexivity|].
  cbn [length app scan_turns]. apply IH.
Qed.

Lemma bol_after_app (b : bool) (x y : str) :
  bol_after b (x ++ y) = bol_after (bol_after b x) y.
Proof. apply fold_left_app. Qed.

Lemma marker_free_cons (b : bool) (c : ascii) (x : str) :
  marker_free b (c :: x) = true ->
  (b = true -> host_marker (c :: x) = None)
  /\ marker_free (ch_eqb c nl) x = true.
Proof.
  unfold marker_free. rewrite scan_turns_cons.
  destruct b.
  - destruct (host_marker (c :: x)) as [[g n]|]; [discriminate|].
    cbn [snd]. auto.
  - cbn [snd]. split; [discriminate|assumption].
Qed.

Lemma scan_quiet (x f : str) (b : bool) :
  marker_free b x = true -> calm f ->
  scan_turns host_marker b 0 (x ++ f)
  = (x ++ fst (scan_turns host_marker (bol_after b x) 0 f),
     snd (scan_turns host_marker (bol_after b x) 0 f)).
Proof.
  intros Hx Hf. revert b Hx.
  induction x as [|c x IH]; intros b Hx.
  - cbn. destruct (scan_turns host_marker b 0 f). reflexivity.
  - apply marker_free_cons in Hx. destruct Hx as [Hnone Hx].
    cbn [app]. rewrite scan_turns_plain.
    + rewrite (IH _ Hx). reflexivity.
    + intros Hb. apply (host_marker_calm (c :: x) f Hf). auto.
Qed.

Lemma mute_nil (b : bool) : mute b [].
Proof.
  intros f. cbn. destruct (scan_turns host_marker b 0 f). reflexivity.
Qed.

Lemma mute_cons (b : bool) (c : ascii) (x : str) :
  (b = true -> forall f, host_marker (c :: x ++ f) = None) ->
  mute (ch_eqb c nl) x -> mute b (c :: x).
Proof.
  intros Hc Hx f. cbn [app]. rewrite scan_turns_plain by auto.
  rewrite (Hx f). reflexivity.
Qed.

Lemma mute_app (b : bool) (x y : str) :
  mute b x -> mute (bol_after b x) y -> mute b (x ++ y).
Proof.
  intros Hx Hy f. rewrite <- app_assoc, (Hx (y ++ f)), (Hy f).
  rewrite bol_after_app, <- app_assoc. reflexivity.
Qed.

Lemma word_not_nl (c : ascii) : is_word c = true -> ch_eqb c nl = false.
Proof.
  intros H. apply ch_eqb_neq. intros ->. discriminate.
Qed.

Lemma space_not_H (c : ascii) : is_space c = true -> ch_eqb c "H"%char = false.
Proof.
  intros H. apply ch_eqb_neq. intros ->. discriminate.
Qed.

(** Inside a word no line begins. *)
Lemma mute_word (w : str) :
  forallb is_word w = true -> mute false w /\ bol_after false w = false.
Proof.
  induction w as [|c w IH]; intros H.
  - split; [apply mute_nil | reflexivity].
  - cbn in H. apply andb_true_iff in H. destruct H as [Hc Hw].
    destruct (IH Hw) as [Hm Hb].
    split.
    + apply mute_cons; [discriminate|].
      rewrite (word_not_nl c Hc). exact Hm.
    + cbn. fold (bol_after (ch_eqb c nl) w).
      rewrite (word_not_nl c Hc). exact Hb.
Qed.

(** A word and the closing bracket after it, at the start of a line or
    not. *)
Lemma mute_word_bracket (b : bool) (w : str) :
  forallb is_word w = true ->
  mute b (w ++ [rbracket]) /\ bol_after b (w ++ [rbracket]) = false.
Proof.
  intros Hw. split.
  - destruct w as [|c w].
    + apply mute_cons; [|apply mute_nil].
      intros _ f. apply host_marker_head. reflexivity.
    + cbn in Hw. apply andb_true_iff in Hw. destruct Hw as [Hc Hw].
      cbn [app]. apply mute_cons.
      * intros _ f. rewrite <- app_assoc.
        apply (host_marker_word_bracket (c :: w)).
        cbn. rewrite Hc, Hw. reflexivity.
      * rewrite (word_not_nl c Hc).
        destruct (mute_word w Hw) as [Hm Hb].
        apply mute_app; [exact Hm|]. rewrite Hb.
        apply mute_cons; [discriminate | apply mute_nil].
  - rewrite bol_after_app. reflexivity.
Qed.

(** Whitespace begins no speaker marker. *)
Lemma mute_spaces (b : bool) (gap : str) :
  forallb is_space gap = true -> mute b gap.
Proof.
  revert b. induction gap as [|c gap IH]; intros b H; [apply mute_nil|].
  cbn in H. apply andb_true_iff in H. destruct H as [Hc Hg].
  apply mute_cons; [|apply IH, Hg].
  intros _ f. apply host_marker_head, space_not_H, Hc.
Qed.

Lemma cue_shape_inv (c : str) :
  cue_shape c = true ->
  (forallb is_word c = true /\ c <> [])
  \/ exists w1 gap w2,
       c = w1 ++ gap ++ w2
       /\ forallb is_word w1 = true /\ forallb is_space gap = true
       /\ forallb is_word w2 = true.
Proof.
  unfold cue_shape.
  destruct (span is_word c) as [w1 r1] eqn:E1.
  pose proof (span_eq _ _ _ _ E1) as ->.
  pose proof (span_all _ _ _ _ E1) as A1.
  intros H. apply andb_true_iff in H. destruct H as [T1 H].
  destruct r1 as [|d r1'].
  - left. rewrite app_nil_r. split; [exact A1|]. apply truthy_true, T1.
  - right.
    destruct (span is_space (d :: r1')) as [gap r2] eqn:E2.
    destruct (span is_word r2) as [w2 r3] eqn:E3.
    apply andb_true_iff in H. destruct H as [_ H].
    destruct r3; [|discriminate].
    exists w1, gap, w2.
    rewrite (span_eq _ _ _ _ E2), (span_eq _ _ _ _ E3), app_nil_r.
    split; [reflexivity|]. split; [exact A1|].
    split; eapply span_all; eassumption.
Qed.

(** No speaker marker begins inside a cue marker. *)
Lemma mute_cue_tag (b : bool) (c : str) :
  cue_shape c = true ->
  mute b (cue_tag c) /\ bol_after b (cue_tag c) = false.
Proof.
  intros Hc. unfold cue_tag.
  apply cue_shape_inv in Hc.
  destruct Hc as [[Hw _]|(w1 & gap & w2 & -> & H1 & Hg & H2)].
  - destruct (mute_word_bracket false c Hw) as [Hm Hb]. split.
    + cbn [app]. apply mute_cons; [|exact Hm].
      intros _ f. apply host_marker_head. reflexivity.
    + cbn [app]. exact Hb.
  - destruct (mute_word w1 H1) as [Hm1 Hb1].
    assert (Hin : mute false ((w1 ++ gap ++ w2) ++ [rbracket])
                  /\ bol_after false ((w1 ++ gap ++ w2) ++ [rbracket])
                     = false).
    { rewrite <- !app_assoc. split.
      - apply mute_app; [exact Hm1|]. rewrite Hb1.
        apply mute_app; [apply mute_spaces, Hg|].
        apply (mute_word_bracket _ w2 H2).
      - rewrite !bol_after_app.
        rewrite <- bol_after_app. apply (mute_word_bracket _ w2 H2). }
    destruct Hin as [Hm Hb]. split.
    + cbn [app]. apply mute_cons; [|exact Hm].
      intros _ f. apply host_marker_head. reflexivity.
    + cbn [app]. exact Hb.
Qed.

Lemma tagged_app (cs : list str) (t : str) :
  tagged cs t = tagged cs [] ++ t.
Proof.
  induction cs as [|c cs IH]; [reflexivity|].
  cbn [tagged]. rewrite IH, <- !app_assoc. reflexivity.
Qed.

Lemma mute_tags (cs : list str) :
  Forall (fun c => cue_shape c = true) cs ->
  mute false (tagged cs []) /\ bol_after false (tagged cs []) = false.
Proof.
  induction 1 as [|c cs Hc Hcs IH].
  - split; [apply mute_nil | reflexivity].
  - destruct (mute_cue_tag false c Hc) as [Hm Hb].
    destruct IH as [Hm' Hb'].
    cbn [tagged]. split.
    + apply mute_app; [exact Hm|]. rewrite Hb.
      apply mute_cons; [discriminate|]. exact Hm'.
    + rewrite bol_after_app, Hb. exact Hb'.
Qed.

(** The serialized cue markers of a segment, as [line_of] writes them. *)
Lemma prefix_tagged (cs : list str) (t : str) :
  (if truthy (join [sp] (map cue_tag cs))
   then join [sp] (map cue_tag cs) ++ [sp] else []) ++ t
  = tagged cs t.
Proof.
  induction cs as [|c cs IH]; [reflexivity|].
  cbn [map join tagged].
  destruct cs as [|c' cs].
  - cbn. rewrite <- app_assoc. reflexivity.
  - assert (T : truthy (join [sp] (map cue_tag (c' :: cs))) = true).
    { cbn [map join]. destruct (map cue_tag cs); reflexivity. }
    rewrite T in IH.
    assert (T' : truthy (cue_tag c ++ [sp] ++ join [sp] (map cue_tag (c' :: cs)))
                 = true) by reflexivity.
    cbn [map] in *. rewrite T'. rewrite <- IH.
    rewrite <- !app_assoc. reflexivity.
Qed.

Lemma line_of_tagged (seg : SpeakerSegment) :
  line_of seg
  = value (speaker seg) ++ colon :: sp :: tagged (cues seg) (text seg).
Proof.
  unfold line_of. cbv zeta. rewrite prefix_tagged. reflexivity.
Qed.

Lemma rstrip_snoc_space (x : str) (c : ascii) :
  is_space c = true -> rstrip (x ++ [c]) = rstrip x.
Proof.
  intros Hc. induction x as [|d x IH]; cbn.
  - rewrite Hc. reflexivity.
  - rewrite IH. reflexivity.
Qed.

Lemma rstrip_length (s : str) : (length (rstrip s) <= length s)%nat.
Proof.
  induction s as [|c s IH]; cbn; [lia|].
  destruct (rstrip s); [destruct (is_space c)|]; cbn in *; lia.
Qed.

Lemma tight_last (s : str) :
  tight s -> exists x c, s = x ++ [c] /\ is_space c = false.
Proof.
  intros (_ & Hr & Hne).
  destruct (exists_last Hne) as (x & c & ->).
  exists x, c. split; [reflexivity|].
  destruct (is_space c) eqn:E; [|reflexivity].
  rewrite rstrip_snoc_space in Hr by exact E.
  pose proof (rstrip_length x) as L. rewrite Hr, length_app in L.
  cbn in L. lia.
Qed.

Lemma tight_bol_after (b : bool) (t : str) :
  tight t -> bol_after b t = false.
Proof.
  intros Ht. destruct (tight_last t Ht) as (x & c & -> & Hc).
  rewrite bol_after_app. cbn. apply ch_eqb_neq. intros ->. discriminate.
Qed.

Lemma ready_marker_free (seg : SpeakerSegment) :
  ready seg -> marker_free false (text seg) = true.
Proof.
  intros (_ & _ & _ & _ & H). unfold markup_free in H.
  apply andb_true_iff in H. destruct H as [H _].
  apply andb_true_iff in H. tauto.
Qed.

Lemma value_head (speaker : Speaker) :
  exists tl, value speaker = "H"%char :: tl /\ length tl = 5%nat.
Proof. destruct speaker; eexists; split; reflexivity. Qed.

(** Scanning one serialized line and what follows it. *)
Lemma scan_line (seg : SpeakerSegment) (f : str) :
  ready seg -> calm f ->
  scan_turns host_marker true 0 (line_of seg ++ f)
  = ([],
     (value (speaker seg),
      sp :: tagged (cues seg) (text seg)
      ++ fst (scan_turns host_marker false 0 f))
     :: snd (scan_turns host_marker false 0 f)).
Proof.
  intros Hready Hf. pose proof (ready_marker_free seg Hready) as Hfree.
  destruct Hready as (Ht & _ & Hcs & _ & _).
  rewrite line_of_tagged.
  destruct (value_head (speaker seg)) as (tl & Hv & Hlen).
  pose proof (host_marker_value (speaker seg)
                (sp :: tagged (cues seg) (text seg) ++ f)) as Hm.
  set (v := value (speaker seg)) in *.
  replace ((v ++ colon :: sp :: tagged (cues seg) (text seg)) ++ f)
    with (v ++ colon :: sp :: tagged (cues seg) (text seg) ++ f)
    by (rewrite <- app_assoc; reflexivity).
  rewrite Hv in Hm |- * at 1. cbn [app] in Hm |- *.
  rewrite scan_turns_cons, Hm.
  change (7 - 1)%nat with 6%nat.
  replace (tl ++ colon :: sp :: tagged (cues seg) (text seg) ++ f)
    with ((tl ++ [colon]) ++ sp :: tagged (cues seg) (text seg) ++ f)
    by (rewrite <- app_assoc; reflexivity).
  replace 6%nat with (length (tl ++ [colon]))
    by (rewrite length_app, Hlen; reflexivity).
  rewrite scan_turns_skip.
  assert (Hb : bol_after (ch_eqb "H"%char nl) (tl ++ [colon]) = false)
    by (rewrite bol_after_app; reflexivity).
  rewrite Hb.
  destruct (mute_tags (cues seg) Hcs) as [Hmute Hbol].
  assert (Hmute' : mute false (sp :: tagged (cues seg) []))
    by (apply mute_cons; [discriminate | exact Hmute]).
  rewrite (tagged_app (cues seg) (text seg)).
  replace (sp :: (tagged (cues seg) [] ++ text seg) ++ f)
    with ((sp :: tagged (cues seg) []) ++ text seg ++ f)
    by (cbn [app]; rewrite <- app_assoc; reflexivity).
  rewrite (Hmute' (text seg ++ f)).
  assert (Hb' : bol_after false (sp :: tagged (cues seg) []) = false)
    by exact Hbol.
  rewrite Hb'.
  rewrite (scan_quiet (text seg) f false Hfree Hf).
  rewrite (tight_bol_after false (text seg) Ht).
  cbn [fst snd app]. rewrite <- Hv. rewrite <- !app_assoc. reflexivity.
Qed.

Lemma segments_to_script_cons (seg : SpeakerSegment)
    (rest : list SpeakerSegment) :
  segments_to_script (seg :: rest)
  = line_of seg
    ++ match rest with
       | [] => []
       | _ :: _ => nl :: nl :: segments_to_script rest
       end.
Proof.
  unfold segments_to_script.
  destruct rest as [|seg' rest]; cbn [map join];
    [rewrite app_nil_r; reflexivity|].
  reflexivity.
Qed.

Lemma segments_to_script_head (seg : SpeakerSegment)
    (rest : list SpeakerSegment) :
  exists r, segments_to_script (seg :: rest) = "H"%char :: r.
Proof.
  rewrite segments_to_script_cons, line_of_tagged.
  destruct (value_head (speaker seg)) as (tl & -> & _).
  eexists. reflexivity.
Qed.

Lemma scan_script (segs : list SpeakerSegment) :
  Forall ready segs ->
  scan_turns host_marker true 0 (segments_to_script segs)
  = ([], raw_turns segs).
Proof.
  induction 1 as [|seg rest Hseg Hrest IH]; [reflexivity|].
  rewrite segments_to_script_cons. cbn [raw_turns].
  destruct rest as [|seg' rest'].
  - rewrite (scan_line seg [] Hseg (or_introl eq_refl)). reflexivity.
  - destruct (segments_to_script_head seg' rest') as [r Hr].
    rewrite (scan_line seg _ Hseg
               (or_intror (ex_intro _ r (f_equal (fun s => nl :: nl :: s) Hr)))).
    rewrite (scan_turns_plain false nl) by discriminate.
    change (ch_eqb nl nl) with true.
    rewrite (scan_turns_plain true nl)
      by (intros _; apply host_marker_head; reflexivity).
    change (ch_eqb nl nl) with true. rewrite IH. reflexivity.
Qed.

Lemma drop_while_all (p : ascii -> bool) (a : str) :
  forallb p a = true -> drop_while p a = [].
Proof.
  induction a as [|c a IH]; [reflexivity|]. cbn. intros H.
  apply andb_true_iff in H. destruct H as [-> H]. exact (IH H).
Qed.

Lemma rstrip_all_space (b : str) : forallb is_space b = true -> rstrip b = [].
Proof.
  induction b as [|c b IH]; [reflexivity|]. cbn. intros H.
  apply andb_true_iff in H. destruct H as [Hc H].
  rewrite (IH H), Hc. reflexivity.
Qed.

Lemma strip_padded (a x b : str) :
  forallb is_space a = true -> forallb is_space b = true -> tight x ->
  strip (a ++ x ++ b) = x.
Proof.
  intros Ha Hb Hx.
  destruct (tight_last x Hx) as (y & d & Ey & Hd).
  destruct (tight_head x Hx) as (c & r & Ex & Hc).
  unfold strip, lstrip.
  rewrite Ex at 1. cbn [app].
  rewrite drop_while_app_stop by exact Hc.
  rewrite (drop_while_all _ a Ha). cbn [app].
  change (c :: r ++ b) with ((c :: r) ++ b). rewrite <- Ex, Ey.
  rewrite <- app_assoc. cbn [app].
  rewrite rstrip_app_ink by exact Hd.
  rewrite (rstrip_all_space b Hb). reflexivity.
Qed.

Lemma tight_ends (a : ascii) (m : str) (b : ascii) :
  is_space a = false -> is_space b = false -> tight (a :: m ++ [b]).
Proof.
  intros Ha Hb. repeat split.
  - apply (drop_while_fixed is_space a). exact Ha.
  - change (a :: m ++ [b]) with ((a :: m) ++ [b]).
    rewrite rstrip_app_ink by exact Hb. reflexivity.
  - discriminate.
Qed.

Lemma tight_tagged (cs : list str) (t : str) : tight t -> tight (tagged cs t).
Proof.
  intros Ht. induction cs as [|c cs IH]; [exact Ht|].
  cbn [tagged]. apply tight_app; [|exact IH].
  unfold cue_tag. cbn [app]. apply tight_ends; reflexivity.
Qed.

Lemma lstrip_star_tagged (seg : SpeakerSegment) :
  markup_free seg = true ->
  lstrip_star (tagged (cues seg) (text seg)) = tagged (cues seg) (text seg).
Proof.
  unfold markup_free. intros H. apply andb_true_iff in H.
  destruct H as [_ H].
  destruct (cues seg) as [|c cs]; [|reflexivity].
  cbn [tagged]. destruct (text seg) as [|d t]; [reflexivity|].
  cbn in H. apply negb_true_iff in H.
  unfold lstrip_star. apply drop_while_fixed.
  unfold ch_eqb in *. rewrite Ascii.eqb_sym. exact H.
Qed.

Lemma turn_of_raw (seg : SpeakerSegment) (pad : str) :
  ready seg -> forallb is_space pad = true ->
  turn_of (value (speaker seg),
           sp :: tagged (cues seg) (text seg) ++ pad)
  = Some (value (speaker seg), tagged (cues seg) (text seg)).
Proof.
  intros (Ht & _ & _ & _ & Hfree) Hpad. unfold turn_of.
  pose proof (tight_tagged (cues seg) (text seg) Ht) as Htt.
  change (sp :: tagged (cues seg) (text seg) ++ pad)
    with ([sp] ++ tagged (cues seg) (text seg) ++ pad).
  rewrite (strip_padded [sp] _ pad eq_refl Hpad Htt).
  rewrite (lstrip_star_tagged seg Hfree), (tight_strip _ Htt).
  destruct Htt as (_ & _ & Hne). apply truthy_true in Hne. rewrite Hne.
  reflexivity.
Qed.

Lemma split_serialized (segs : list SpeakerSegment) :
  Forall ready segs ->
  _split_into_turns (segments_to_script segs) None
  = map (fun seg => (value (speaker seg), tagged (cues seg) (text seg))) segs.
Proof.
  intros H. unfold _split_into_turns. rewrite (scan_script segs H).
  cbn [snd]. induction H as [|seg rest Hseg Hrest IH]; [reflexivity|].
  cbn [raw_turns omap list_omap map].
  rewrite turn_of_raw; [|exact Hseg|destruct rest; reflexivity].
  f_equal. exact IH.
Qed.

(** *** Reading the cue markers back *)

Lemma findall_cues_from_skip (x r : str) :
  findall_cues_from (length x) (x ++ r) = findall_cues_from 0 r.
Proof. induction x as [|c x IH]; [reflexivity|]. exact IH. Qed.

Lemma sub_cues_from_skip (x r : str) :
  sub_cues_from (length x) (x ++ r) = sub_cues_from 0 r.
Proof. induction x as [|c x IH]; [reflexivity|]. exact IH. Qed.

Lemma cue_tag_app (c r : str) :
  cue_tag c ++ r = lbracket :: c ++ rbracket :: r.
Proof. unfold cue_tag. cbn [app]. rewrite <- app_assoc. reflexivity. Qed.

Lemma findall_cue_tag (c r : str) :
  cue_shape c = true ->
  findall_cues_from 0 (cue_tag c ++ r) = c :: findall_cues_from 0 r.
Proof.
  intros Hc. rewrite cue_tag_app. cbn [findall_cues_from].
  rewrite (match_cue_complete c r Hc). f_equal.
  replace (2 + length c - 1)%nat with (length (c ++ [rbracket]))
    by (rewrite length_app; cbn; lia).
  replace (c ++ rbracket :: r) with ((c ++ [rbracket]) ++ r)
    by (rewrite <- app_assoc; reflexivity).
  apply findall_cues_from_skip.
Qed.

Lemma sub_cue_tag (c r : str) :
  cue_shape c = true ->
  sub_cues_from 0 (cue_tag c ++ r) = sub_cues_from 0 r.
Proof.
  intros Hc. rewrite cue_tag_app. cbn [sub_cues_from].
  rewrite (match_cue_complete c r Hc).
  replace (2 + length c - 1)%nat with (length (c ++ [rbracket]))
    by (rewrite length_app; cbn; lia).
  replace (c ++ rbracket :: r) with ((c ++ [rbracket]) ++ r)
    by (rewrite <- app_assoc; reflexivity).
  apply sub_cues_from_skip.
Qed.

Lemma findall_tagged (cs : list str) (t : str) :
  Forall (fun c => cue_shape c = true) cs ->
  findall_cues (tagged cs t) = cs ++ findall_cues t.
Proof.
  unfold findall_cues. induction 1 as [|c cs Hc Hcs IH]; [reflexivity|].
  cbn [tagged]. rewrite (findall_cue_tag c _ Hc).
  cbn [app findall_cues_from].
  rewrite match_cue_other_head by reflexivity. rewrite IH. reflexivity.
Qed.

Lemma sub_tagged (cs : list str) (t : str) :
  Forall (fun c => cue_shape c = true) cs ->
  sub_cues (tagged cs t) = repeat sp (length cs) ++ sub_cues t.
Proof.
  unfold sub_cues. induction 1 as [|c cs Hc Hcs IH]; [reflexivity|].
  cbn [tagged]. rewrite (sub_cue_tag c _ Hc).
  cbn [app sub_cues_from].
  rewrite match_cue_other_head by reflexivity. rewrite IH. reflexivity.
Qed.

(** Where [_CUE_PATTERN] finds nothing, nothing is taken out. *)
Lemma sub_cues_from_no_match (s : str) (k : nat) :
  findall_cues_from k s = [] -> sub_cues_from k s = drop k s.
Proof.
  revert k. induction s as [|c s IH]; intros k.
  - destruct k; reflexivity.
  - cbn [findall_cues_from sub_cues_from]. destruct k as [|k].
    + destruct (match_cue (c :: s)) as [[g n]|]; [discriminate|].
      intros H. rewrite (IH 0%nat H). reflexivity.
    + intros H. rewrite (IH k H). reflexivity.
Qed.

Lemma forallb_repeat (p : ascii -> bool) (c : ascii) (n : nat) :
  p c = true -> forallb p (repeat c n) = true.
Proof. intros H. induction n; cbn; [reflexivity|]. rewrite H. exact IHn. Qed.

(** The serialized form of a segment reads back as the segment. *)
Lemma append_turn_ready (seg : SpeakerSegment)
    (segments : list SpeakerSegment) :
  ready seg ->
  append_turn (speaker seg) (tagged (cues seg) (text seg)) segments
  = segments ++
      [{| speaker := speaker seg; text := text seg;
          index := length segments; cues := cues seg |}].
Proof.
  intros (Ht & Hss & Hcs & Hlong & Hfree).
  unfold markup_free in Hfree.
  apply andb_true_iff in Hfree. destruct Hfree as [Hfree _].
  apply andb_true_iff in Hfree. destruct Hfree as [Hnone _].
  assert (Hfind : findall_cues (text seg) = [])
    by (destruct (findall_cues (text seg)); [reflexivity|discriminate]).
  assert (Hclean : clean_text_of (tagged (cues seg) (text seg)) = text seg).
  { unfold clean_text_of. rewrite (sub_tagged _ _ Hcs).
    unfold sub_cues at 1.
    rewrite (sub_cues_from_no_match (text seg) 0 Hfind). cbn [drop].
    rewrite <- (app_nil_r (text seg)) at 1.
    rewrite (strip_padded _ (text seg) []
               (forallb_repeat is_space sp _ eq_refl) eq_refl Ht).
    apply collapse_single_spaced. exact Hss. }
  unfold append_turn. rewrite Hclean, (findall_tagged _ _ Hcs), Hfind.
  rewrite app_nil_r.
  destruct Ht as (_ & _ & Hne). apply truthy_true in Hne. rewrite Hne.
  cbn [negb].
  destruct (_MAX_SEGMENT_CHARS <? length (text seg))%nat eqn:E;
    [|reflexivity].
  apply Nat.ltb_lt in E. rewrite (Hlong E). reflexivity.
Qed.

Lemma renumber_sequential (base : nat) (segs : list SpeakerSegment) :
  map index segs = seq base (length segs) -> renumber base segs = segs.
Proof.
  revert base. induction segs as [|seg rest IH]; intros base;
    [reflexivity|].
  cbn. intros [= Hi Hrest]. rewrite (IH _ Hrest).
  destruct seg. cbn in *. subst. reflexivity.
Qed.

Lemma fold_serialized (segs acc : list SpeakerSegment) :
  Forall ready segs ->
  fold_left script_step
    (map (fun seg => (value (speaker seg), tagged (cues seg) (text seg)))
       segs) acc
  = acc ++ renumber (length acc) segs.
Proof.
  intros H. revert acc.
  induction H as [|seg rest Hseg Hrest IH]; intros acc.
  - cbn. rewrite app_nil_r. reflexivity.
  - cbn [map fold_left]. unfold script_step at 2.
    rewrite speaker_of_tag_value, (append_turn_ready seg acc Hseg), IH.
    rewrite length_app, <- app_assoc. cbn.
    replace (length acc + 1)%nat with (S (length acc)) by lia.
    reflexivity.
Qed.

(** Segments that are ready and numbered from 0 are a fixed point of
    serializing and parsing. *)
Lemma reparse_ready (segs : list SpeakerSegment) :
  Forall ready segs -> map index segs = seq 0 (length segs) ->
  parse_script (segments_to_script segs) = segs.
Proof.
  intros Hready Hidx. unfold parse_script.
  rewrite (split_serialized segs Hready), (fold_serialized segs [] Hready).
  apply renumber_sequential. exact Hidx.
Qed.

(** *** What the parser emits *)

Lemma single_spaced_cons (c : ascii) (r : str) :
  single_spaced (c :: r)
  = negb (is_space c && head_space r) && single_spaced r.
Proof. destruct r; reflexivity. Qed.

Lemma last_ink_snoc (i : bool) (x : str) (c : ascii) :
  last_ink i (x ++ [c]) = negb (is_space c).
Proof. unfold last_ink. rewrite fold_left_app. reflexivity. Qed.

Lemma last_ink_nonempty (s : str) : last_ink false s = true -> s <> [].
Proof. destruct s; [discriminate|congruence]. Qed.

Lemma tightb_tight (s : str) : tightb s = true <-> tight s.
Proof.
  unfold tightb. split.
  - intros H. apply andb_true_iff in H. destruct H as [Hh Hl].
    pose proof (last_ink_nonempty s Hl) as Hne.
    destruct (exists_last Hne) as (x & d & ->).
    rewrite last_ink_snoc in Hl. apply negb_true_iff in Hl.
    destruct x as [|c x].
    + repeat split.
      * apply (drop_while_fixed is_space d []). exact Hl.
      * exact (rstrip_app_ink [] d [] Hl).
      * discriminate.
    + cbn in Hh. apply negb_true_iff in Hh.
      cbn [app]. apply tight_ends; assumption.
  - intros Ht. destruct (tight_head s Ht) as (c & r & E & Hc).
    destruct (tight_last s Ht) as (x & d & E' & Hd).
    apply andb_true_iff. split.
    + rewrite E. cbn. rewrite Hc. reflexivity.
    + rewrite E', last_ink_snoc, Hd. reflexivity.
Qed.

(** Collapsing leaves no doubled whitespace. *)
Lemma collapse_single (s : str) (f : bool) :
  single_spaced (collapse_from f s) = true
  /\ (f = true -> head_space (collapse_from f s) = false).
Proof.
  revert f. induction s as [|c s IH]; intros f; [split; reflexivity|].
  cbn [collapse_from]. destruct (is_space c) eqn:Ec.
  - destruct f.
    + apply IH.
    + split; [|discriminate].
      destruct s as [|d s]; [cbn; rewrite Ec; reflexivity|].
      destruct (is_space d) eqn:Ed.
      * rewrite single_spaced_cons.
        destruct (IH true) as [H1 H2]. rewrite H1, (H2 eq_refl).
        reflexivity.
      * rewrite single_spaced_cons.
        destruct (IH false) as [H1 _]. rewrite H1.
        cbn [collapse_from head_space]. rewrite Ed.
        cbn [head_space]. rewrite Ed, andb_false_r. reflexivity.
  - split.
    + rewrite single_spaced_cons. destruct (IH false) as [H1 _].
      rewrite H1, Ec. reflexivity.
    + intros _. cbn. exact Ec.
Qed.

Lemma tight_collapse (s : str) : tight s -> tight (collapse_from false s).
Proof.
  intros Ht. destruct (tight_head s Ht) as (c & r & E & Hc).
  destruct (tight_last s Ht) as (x & d & E' & Hd).
  repeat split.
  - rewrite E, collapse_from_ink by exact Hc.
    apply (drop_while_fixed is_space c). exact Hc.
  - rewrite E', collapse_from_app_ink by exact Hd. cbn [collapse_from].
    rewrite rstrip_app_ink by exact Hd. reflexivity.
  - rewrite E, collapse_from_ink by exact Hc. discriminate.
Qed.

Lemma clean_text_tight (body : str) :
  clean_text_of body <> [] ->
  tight (clean_text_of body) /\ single_spaced (clean_text_of body) = true.
Proof.
  intros Hne. unfold clean_text_of, collapse_ws in *. split.
  - apply tight_collapse, strip_tight. intros E. rewrite E in Hne.
    apply Hne. reflexivity.
  - apply collapse_single.
Qed.

(** *** Sentences *)

Lemma chain_cons (s : str) (rest : list str) :
  chain (s :: rest) <-> (rest <> [] -> ends_mark false s = true) /\ chain rest.
Proof.
  destruct rest as [|s' rest]; cbn [chain].
  - intuition congruence.
  - intuition (auto; discriminate).
Qed.

(** The pieces of any text: none has whitespace behind a terminal mark,
    and all but the last end with a terminal mark. *)
Lemma split_pieces (t : str) (a b : bool) :
  exists q rest,
    split_sentences_from a b t = q :: rest
    /\ uncut (a && negb b) q = true
    /\ Forall (fun p => uncut false p = true) rest
    /\ (rest <> [] -> ends_mark (a && negb b) q = true)
    /\ chain rest.
Proof.
  revert a b. induction t as [|c t IH]; intros a b.
  - exists [], []. cbn. repeat split; try constructor. congruence.
  - cbn [split_sentences_from].
    destruct (is_space c) eqn:Ec; cbn [andb].
    + destruct b.
      * destruct (IH false true) as (q & rest & -> & H1 & H2 & H3 & H4).
        exists q, rest. rewrite andb_false_r in *. cbn [andb] in *.
        repeat split; assumption.
      * destruct a.
        -- destruct (IH false true) as (q & rest & -> & H1 & H2 & H3 & H4).
           cbn [andb negb] in *.
           exists [], (q :: rest). repeat split.
           ++ constructor; assumption.
           ++ apply chain_cons. split; assumption.
        -- destruct (IH (is_terminal c) false)
             as (q & rest & -> & H1 & H2 & H3 & H4).
           rewrite andb_true_r in *.
           exists (c :: q), rest. cbn [cons_head andb negb uncut].
           rewrite Ec. cbn [andb negb]. repeat split; assumption.
    + destruct (IH (is_terminal c) false)
        as (q & rest & -> & H1 & H2 & H3 & H4).
      rewrite andb_true_r in *.
      exists (c :: q), rest. cbn [cons_head uncut].
      rewrite Ec. cbn [andb negb]. repeat split; assumption.
Qed.

(** The pieces of a text without doubled whitespace that ends with a
    character that is no whitespace: the pieces after the first are
    trimmed and not empty, none has doubled whitespace.  [i] tells that
    the character in front of the text is no whitespace. *)
Lemma split_pieces_tight (t : str) (a b i : bool) :
  single_spaced t = true -> last_ink i t = true ->
  (a = true -> i = true) -> (b = true -> head_space t = false) ->
  exists q rest,
    split_sentences_from a b t = q :: rest
    /\ single_spaced q = true
    /\ (head_space q = true -> head_space t = true)
    /\ last_ink i q = true
    /\ Forall (fun p => tightb p = true /\ single_spaced p = true) rest.
Proof.
  revert a b i. induction t as [|c t IH]; intros a b i Hss Hlast Hai Hb.
  - exists [], []. cbn in *.
    split; [reflexivity|]. split; [reflexivity|]. split; [auto|].
    split; [assumption|constructor].
  - rewrite single_spaced_cons in Hss. apply andb_true_iff in Hss.
    destruct Hss as [Hc Hss]. apply negb_true_iff in Hc.
    change (last_ink i (c :: t)) with (last_ink (negb (is_space c)) t)
      in Hlast.
    cbn [split_sentences_from].
    destruct (is_space c) eqn:Ec; cbn [andb negb] in *.
    + destruct b; [specialize (Hb eq_refl); cbn [head_space] in Hb; congruence|].
      destruct a.
      * destruct (IH false true false Hss Hlast) as
          (q & rest & -> & H1 & H2 & H3 & H4); [discriminate|auto|].
        exists [], (q :: rest).
        split; [reflexivity|]. split; [reflexivity|].
        split; [discriminate|]. split; [cbn; auto|].
        constructor; [|exact H4]. split; [|exact H1].
        unfold tightb. rewrite H3, andb_true_r.
        destruct (head_space q) eqn:Eq; [|reflexivity].
        rewrite (H2 eq_refl) in Hc. discriminate.
      * destruct (IH (is_terminal c) false false Hss Hlast)
          as (q & rest & -> & H1 & H2 & H3 & H4).
        -- intros Ht. destruct c as [[] [] [] [] [] [] [] []]; discriminate.
        -- discriminate.
        -- exists (c :: q), rest. cbn [cons_head].
           split; [reflexivity|]. split; [|split; [auto|split]].
           ++ rewrite single_spaced_cons, H1, andb_true_r, Ec. cbn [andb].
              destruct (head_space q) eqn:Eq; [|reflexivity].
              rewrite (H2 eq_refl) in Hc. discriminate.
           ++ change (last_ink i (c :: q))
                with (last_ink (negb (is_space c)) q).
              rewrite Ec. exact H3.
           ++ exact H4.
    + destruct (IH (is_terminal c) false true Hss Hlast)
        as (q & rest & -> & H1 & H2 & H3 & H4).
      * reflexivity.
      * discriminate.
      * exists (c :: q), rest. cbn [cons_head].
        split; [reflexivity|]. split; [|split; [|split]].
        -- rewrite single_spaced_cons, H1, Ec. reflexivity.
        -- cbn. rewrite Ec. discriminate.
        -- change (last_ink i (c :: q))
             with (last_ink (negb (is_space c)) q).
           rewrite Ec. exact H3.
        -- exact H4.
Qed.

Lemma sentences_good (t : str) :
  tight t -> single_spaced t = true ->
  Forall (fun p => good p = true) (split_sentences t)
  /\ chain (split_sentences t).
Proof.
  intros Ht Hss. apply tightb_tight in Ht. unfold tightb in Ht.
  apply andb_true_iff in Ht. destruct Ht as [Hhead Hlast].
  apply negb_true_iff in Hhead.
  unfold split_sentences.
  destruct (split_pieces t false false) as (q & rest & E & U1 & U2 & C1 & C2).
  destruct (split_pieces_tight t false false false Hss Hlast)
    as (q' & rest' & E' & S1 & S2 & S3 & S4); try discriminate.
  rewrite E in E'. injection E' as <- <-. rewrite E. cbn [andb negb] in *.
  split.
  - constructor.
    + unfold good, tightb. rewrite S1, S3, U1, !andb_true_r.
      destruct (head_space q); [|reflexivity].
      rewrite (S2 eq_refl) in Hhead. discriminate.
    + rewrite List.Forall_forall in *. intros p Hp.
      destruct (S4 p Hp) as [T1 T2]. unfold good.
      rewrite T1, T2, (U2 p Hp). reflexivity.
  - apply chain_cons. split; assumption.
Qed.

Lemma good_tight (s : str) : good s = true -> tight s.
Proof.
  unfold good. intros H. apply andb_true_iff in H. destruct H as [H _].
  apply andb_true_iff in H. destruct H as [H _].
  apply tightb_tight. exact H.
Qed.

Lemma good_single_spaced (s : str) : good s = true -> single_spaced s = true.
Proof.
  unfold good. intros H. apply andb_true_iff in H. destruct H as [H _].
  apply andb_true_iff in H. tauto.
Qed.

Lemma good_uncut (s : str) : good s = true -> uncut false s = true.
Proof. unfold good. intros H. apply andb_true_iff in H. tauto. Qed.

Lemma split_uncut (s : str) (a : bool) :
  uncut a s = true -> split_sentences_from a false s = [s].
Proof.
  revert a. induction s as [|c s IH]; intros a; [reflexivity|].
  cbn [uncut split_sentences_from]. intros H.
  apply andb_true_iff in H. destruct H as [Hc Hs].
  apply negb_true_iff in Hc. rewrite andb_false_r, Hc, (IH _ Hs).
  reflexivity.
Qed.

(** A sentence, one space and a further text are cut apart again. *)
Lemma split_joined (q : str) (d : ascii) (y : str) (a : bool) :
  uncut a q = true -> ends_mark a q = true -> is_space d = false ->
  split_sentences_from a false (q ++ sp :: d :: y)
  = q :: split_sentences_from false false (d :: y).
Proof.
  revert a. induction q as [|c q IH]; intros a Hu He Hd.
  - cbn in He. subst a. cbn [app split_sentences_from].
    change (is_space sp) with true. cbn [andb].
    rewrite Hd. reflexivity.
  - cbn [uncut] in Hu. apply andb_true_iff in Hu. destruct Hu as [Hc Hq].
    apply negb_true_iff in Hc.
    cbn [app split_sentences_from]. rewrite andb_false_r, Hc.
    rewrite (IH _ Hq He Hd). reflexivity.
Qed.

Lemma join_cons_cons (sep x y : str) (l : list str) :
  join sep (x :: y :: l) = x ++ sep ++ join sep (y :: l).
Proof. reflexivity. Qed.

Lemma split_join (sents : list str) :
  Forall (fun p => good p = true) sents -> chain sents -> sents <> [] ->
  split_sentences (join [sp] sents) = sents.
Proof.
  unfold split_sentences.
  induction 1 as [|s rest Hs Hrest IH]; intros Hchain Hne; [congruence|].
  destruct rest as [|s' rest'].
  - cbn [join]. apply split_uncut, good_uncut, Hs.
  - rewrite join_cons_cons.
    apply chain_cons in Hchain. destruct Hchain as [He Hchain].
    assert (Hj : tight (join [sp] (s' :: rest')))
      by (apply tight_join;
          [eapply Forall_impl; [exact Hrest | intros p; apply good_tight]
          | discriminate]).
    destruct (tight_head _ Hj) as (d & y & Ej & Hd).
    rewrite Ej. cbn [app].
    rewrite (split_joined s d y false (good_uncut s Hs)
               (He ltac:(discriminate)) Hd).
    rewrite <- Ej, IH; [reflexivity | exact Hchain | discriminate].
Qed.

Lemma single_spaced_app (x y : str) :
  single_spaced x = true -> single_spaced y = true ->
  last_ink true x = true -> single_spaced (x ++ y) = true.
Proof.
  induction x as [|c x IH]; intros Hx Hy Hl; [exact Hy|].
  rewrite single_spaced_cons in Hx. apply andb_true_iff in Hx.
  destruct Hx as [Hc Hx].
  change (last_ink true (c :: x)) with (last_ink (negb (is_space c)) x)
    in Hl.
  cbn [app]. rewrite single_spaced_cons.
  destruct x as [|d x].
  - cbn in Hl. apply negb_true_iff in Hl. rewrite Hl. exact Hy.
  - cbn [app head_space] in *. rewrite Hc. cbn [andb].
    apply IH; [exact Hx | exact Hy |].
    change (last_ink true (d :: x)) with (last_ink (negb (is_space d)) x).
    exact Hl.
Qed.

Lemma tight_last_ink (i : bool) (s : str) : tight s -> last_ink i s = true.
Proof.
  intros Ht. destruct (tight_last s Ht) as (x & d & -> & Hd).
  rewrite last_ink_snoc, Hd. reflexivity.
Qed.

Lemma single_spaced_join (sents : list str) :
  Forall (fun p => good p = true) sents ->
  single_spaced (join [sp] sents) = true.
Proof.
  induction 1 as [|s rest Hs Hrest IH]; [reflexivity|].
  destruct rest as [|s' rest']; [exact (good_single_spaced s Hs)|].
  rewrite join_cons_cons.
  apply single_spaced_app.
  - apply good_single_spaced, Hs.
  - assert (Hj : tight (join [sp] (s' :: rest')))
      by (apply tight_join;
          [eapply Forall_impl; [exact Hrest | intros p; apply good_tight]
          | discriminate]).
    destruct (tight_head _ Hj) as (d & y & Ej & Hd).
    cbn [app]. rewrite single_spaced_cons, IH, Ej. cbn [head_space].
    rewrite Hd, andb_false_r. reflexivity.
  - apply tight_last_ink, good_tight, Hs.
Qed.

(** *** Packing sentences *)

Lemma good_all_tight (sents : list str) :
  Forall (fun s => good s = true) sents -> Forall tight sents.
Proof. intros H. eapply Forall_impl; [exact H | intros p; apply good_tight]. Qed.

Lemma stable_tight (p : str) : stable p -> tight p.
Proof.
  intros (sents & Hne & Hgood & _ & -> & _).
  apply tight_join; [apply good_all_tight, Hgood | exact Hne].
Qed.

Lemma stable_single_spaced (p : str) : stable p -> single_spaced p = true.
Proof.
  intros (sents & _ & Hgood & _ & -> & _). apply single_spaced_join, Hgood.
Qed.

Lemma stable_split (p : str) : stable p -> _split_long_segment p = [p].
Proof.
  intros Hp. pose proof (stable_tight p Hp) as Ht.
  destruct Hp as (sents & Hne & Hgood & Hchain & -> & Hfold).
  unfold _split_long_segment.
  rewrite (split_join sents Hgood Hchain Hne), Hfold.
  rewrite (tight_strip _ Ht).
  destruct Ht as (_ & _ & Hn). apply truthy_true in Hn. rewrite Hn.
  reflexivity.
Qed.

Lemma chain_app_r (a b : list str) : chain (a ++ b) -> chain b.
Proof.
  induction a as [|s a IH]; [auto|]. cbn [app]. intros H.
  apply chain_cons in H. apply IH. tauto.
Qed.

Lemma chain_app_l (a b : list str) : chain (a ++ b) -> chain a.
Proof.
  induction a as [|s a IH]; [constructor|]. cbn [app]. intros H.
  apply chain_cons in H. destruct H as [H1 H2]. apply chain_cons. split.
  - intros Hne. apply H1. destruct a; [congruence|discriminate].
  - apply IH, H2.
Qed.

Lemma join_truthy_good (sents : list str) :
  Forall (fun s => good s = true) sents ->
  truthy (join [sp] sents) = match sents with [] => false | _ => true end.
Proof.
  intros H. destruct sents as [|s rest]; [reflexivity|].
  apply truthy_true.
  apply (tight_join [sp] (s :: rest)); [apply good_all_tight, H|discriminate].
Qed.

Lemma pack_fold (todo : list str) (parts : list str) (cur : list str) :
  Forall (fun s => good s = true) cur ->
  Forall (fun s => good s = true) todo ->
  chain (cur ++ todo) -> Forall stable parts ->
  fold_left pack_step cur ([], []) = ([], join [sp] cur) ->
  Forall stable (fst (fold_left pack_step todo (parts, join [sp] cur)))
  /\ (snd (fold_left pack_step todo (parts, join [sp] cur)) = []
      \/ stable (snd (fold_left pack_step todo (parts, join [sp] cur)))).
Proof.
  revert parts cur.
  induction todo as [|sent todo IH];
    intros parts cur Hcur Htodo Hchain Hparts Hfold.
  - cbn [fold_left fst snd]. split; [exact Hparts|].
    destruct cur as [|s cur']; [left; reflexivity|]. right.
    exists (s :: cur'). rewrite app_nil_r in Hchain.
    repeat split; try assumption. discriminate.
  - inversion Htodo as [|? ? Hsent Htodo']; subst.
    cbn [fold_left]. unfold pack_step at 2 4 6.
    destruct ((_MAX_SEGMENT_CHARS <? length (join [sp] cur) + length sent)%nat
              && truthy (join [sp] cur)) eqn:Econd.
    + (* the running part is closed, the sentence begins the next one *)
      apply andb_true_iff in Econd. destruct Econd as [_ Etruthy].
      rewrite (join_truthy_good cur Hcur) in Etruthy.
      assert (Hne : cur <> []) by (destruct cur; [discriminate|congruence]).
      assert (Hst : stable (join [sp] cur)).
      { exists cur. repeat split; try assumption.
        apply (chain_app_l cur (sent :: todo)), Hchain. }
      rewrite (tight_strip _ (stable_tight _ Hst)).
      change sent with (join [sp] [sent]).
      apply IH.
      * constructor; [exact Hsent|constructor].
      * exact Htodo'.
      * apply (chain_app_r cur). exact Hchain.
      * apply Forall_app. split; [exact Hparts|].
        constructor; [exact Hst|constructor].
      * cbn [fold_left]. unfold pack_step. cbn [truthy].
        rewrite andb_false_r. reflexivity.
    + (* the sentence joins the running part *)
      assert (Ejoin :
        (if truthy (join [sp] cur) then join [sp] cur ++ [sp] ++ sent
         else sent) = join [sp] (cur ++ [sent])).
      { rewrite join_snoc, (join_truthy_good cur Hcur).
        destruct cur; reflexivity. }
      rewrite Ejoin. apply IH.
      * apply Forall_app. split; [exact Hcur|].
        constructor; [exact Hsent|constructor].
      * exact Htodo'.
      * rewrite <- app_assoc. exact Hchain.
      * exact Hparts.
      * rewrite fold_left_app, Hfold. cbn [fold_left].
        unfold pack_step. rewrite Econd, Ejoin. reflexivity.
Qed.

(** Every part of a trimmed text without doubled whitespace is stable. *)
Lemma split_long_stable (t : str) :
  tight t -> single_spaced t = true ->
  Forall stable (_split_long_segment t).
Proof.
  intros Ht Hss. destruct (sentences_good t Ht Hss) as [Hgood Hchain].
  unfold _split_long_segment.
  destruct (pack_fold (split_sentences t) [] [] (List.Forall_nil _) Hgood
              Hchain (List.Forall_nil _) eq_refl) as [Hparts Hcur].
  cbn [join] in *.
  destruct (fold_left pack_step (split_sentences t) ([], []))
    as [parts current].
  cbn [fst snd] in *.
  destruct Hcur as [->|Hcur]; [exact Hparts|].
  rewrite (tight_strip _ (stable_tight _ Hcur)).
  destruct (truthy current); [|exact Hparts].
  apply Forall_app. split; [exact Hparts|].
  constructor; [exact Hcur|constructor].
Qed.

(** *** The segments of a parsed script *)

Lemma sub_turns_emitted (speaker : Speaker) (cs : list str)
    (texts : list str) (j base : nat) :
  Forall stable texts -> Forall (fun c => cue_shape c = true) cs ->
  Forall emitted (sub_turns speaker cs j base texts).
Proof.
  intros Htexts Hcs. revert j base.
  induction Htexts as [|p texts Hp Htexts IH]; intros j base; cbn;
    constructor; [|apply IH].
  unfold emitted. cbn [text cues].
  split; [apply stable_tight, Hp|].
  split; [apply stable_single_spaced, Hp|].
  split; [destruct j; [exact Hcs|constructor]|].
  intros _. apply stable_split, Hp.
Qed.

Lemma append_turn_emitted (speaker : Speaker) (body : str)
    (segments : list SpeakerSegment) :
  Forall emitted segments ->
  Forall emitted (append_turn speaker body segments).
Proof.
  intros Hacc. unfold append_turn.
  destruct (truthy (clean_text_of body)) eqn:Et; cbn [negb]; [|exact Hacc].
  apply truthy_true in Et.
  destruct (clean_text_tight body Et) as [Ht Hss].
  pose proof (findall_cues_shape body 0) as Hcs.
  fold (findall_cues body) in Hcs.
  destruct (_MAX_SEGMENT_CHARS <? length (clean_text_of body))%nat eqn:El.
  - rewrite append_subs_sub_turns. apply Forall_app. split; [exact Hacc|].
    apply sub_turns_emitted; [|exact Hcs].
    apply split_long_stable; assumption.
  - apply Forall_app. split; [exact Hacc|].
    constructor; [|constructor].
    unfold emitted. cbn [text cues].
    split; [exact Ht|]. split; [exact Hss|]. split; [exact Hcs|].
    intros Hlong. apply Nat.ltb_ge in El. lia.
Qed.

Lemma append_turn_indices (speaker : Speaker) (body : str)
    (segments : list SpeakerSegment) :
  map index segments = seq 0 (length segments) ->
  map index (append_turn speaker body segments)
  = seq 0 (length (append_turn speaker body segments)).
Proof.
  intros Hacc. unfold append_turn.
  destruct (negb (truthy (clean_text_of body))); [exact Hacc|].
  destruct (_MAX_SEGMENT_CHARS <? length (clean_text_of body))%nat.
  - rewrite append_subs_sub_turns, map_app, length_app, seq_app, Hacc.
    rewrite sub_turns_index, sub_turns_length. reflexivity.
  - rewrite map_app, length_app, seq_app, Hacc. reflexivity.
Qed.

Lemma parse_script_emitted (script : str) :
  Forall emitted (parse_script script)
  /\ map index (parse_script script)
     = seq 0 (length (parse_script script)).
Proof.
  unfold parse_script.
  assert (H : forall turns acc,
            Forall emitted acc /\ map index acc = seq 0 (length acc) ->
            Forall emitted (fold_left script_step turns acc)
            /\ map index (fold_left script_step turns acc)
               = seq 0 (length (fold_left script_step turns acc))).
  { induction turns as [|[tag body] turns IH]; intros acc [H1 H2];
      [split; assumption|].
    cbn [fold_left]. apply IH. unfold script_step. split.
    - apply append_turn_emitted, H1.
    - apply append_turn_indices, H2. }
  apply H. split; [constructor|reflexivity].
Qed.

(** C8. A script in the canonical tags is well formed when the texts of
    its segments carry no markup (no bracketed cue is left, no line begins
    with a speaker tag, no text without cue begins with an asterisk).
    Serializing the segments of such a script and segmenting the result
    gives the same segments again: the same speakers, texts and cue
    lists, and the same indices. *)
Theorem parse_serialize_roundtrip (script : str) :
  well_formed script = true ->
  let segments := parse_script script in
  parse_script (segments_to_script segments) = segments
  /\ map speaker (parse_script (segments_to_script segments))
     = map speaker segments
  /\ map text (parse_script (segments_to_script segments))
     = map text segments
  /\ map cues (parse_script (segments_to_script segments))
     = map cues segments.
Proof.
  intros Hwf segments.
  assert (E : parse_script (segments_to_script segments) = segments).
  { destruct (parse_script_emitted script) as [Hem Hidx].
    apply reparse_ready; [|exact Hidx].
    unfold well_formed in Hwf. rewrite forallb_forall in Hwf.
    rewrite List.Forall_forall in *. intros seg Hin.
    destruct (Hem seg Hin) as (H1 & H2 & H3 & H4).
    unfold ready. split; [exact H1|]. split; [exact H2|].
    split; [exact H3|]. split; [exact H4|]. apply Hwf, Hin. }
  rewrite E. repeat split.
Qed.

Lemma parse_serialize_roundtrip_witness :
  well_formed SAMPLE_SCRIPT = true
  /\ parse_script (segments_to_script (parse_script SAMPLE_SCRIPT))
     = parse_script SAMPLE_SCRIPT.
Proof.
  assert (Hwf : well_formed SAMPLE_SCRIPT = true)
    by (vm_compute; reflexivity).
  split; [exact Hwf|].
  destruct (parse_serialize_roundtrip SAMPLE_SCRIPT Hwf) as [H _]. exact H.
Defined.

(** The long turn of the examples is well formed too, and reads back as
    its two segments. *)
Example long_turn_reads_back :
  well_formed long_turn_script = true
  /\ map (fun seg => length (text seg))
       (parse_script (segments_to_script (parse_script long_turn_script)))
     = [499%nat; 99%nat].
Proof. vm_compute. split; reflexivity. Qed.

(** A script that is not well formed, and does not read back: taking the
    inner cue out of nested brackets leaves a text that looks like a
    cue. *)
Example nested_brackets_do_not_read_back :
  let script := chars "HOST_A: [very [pause] slowly] it goes" in
  well_formed script = false
  /\ map (fun seg => (text seg, cues seg)) (parse_script script)
     = [(chars "[very slowly] it goes", [chars "pause"])]
  /\ map (fun seg => (text seg, cues seg))
       (parse_script (segments_to_script (parse_script script)))
     = [(chars "it goes", [chars "pause"; chars "very slowly"])].
Proof. vm_compute. repeat split. Qed.

(** *** Indices and texts of the segments *)

Lemma fold_known_step_emitted (turns : list (Speaker * str))
    (acc : list SpeakerSegment) :
  Forall emitted acc /\ map index acc = seq 0 (length acc) ->
  Forall emitted (fold_left known_step turns acc)
  /\ map index (fold_left known_step turns acc)
     = seq 0 (length (fold_left known_step turns acc)).
Proof.
  revert acc. induction turns as [|[who body] turns IH]; intros acc [H1 H2];
    [split; assumption|].
  cbn [fold_left]. apply IH. unfold known_step. cbn [fst snd]. split.
  - apply append_turn_emitted, H1.
  - apply append_turn_indices, H2.
Qed.

Lemma parse_dialogue_emitted (script : str)
    (name_map : option (gmap str Speaker)) :
  Forall emitted (fst (parse_dialogue script name_map))
  /\ map index (fst (parse_dialogue script name_map))
     = seq 0 (length (fst (parse_dialogue script name_map))).
Proof.
  unfold parse_dialogue. rewrite fold_dialogue_step. cbn [fst].
  apply fold_known_step_emitted. split; [constructor|reflexivity].
Qed.

(** X13. The segments are numbered 0, 1, 2, ... in both parsers, whatever
    turns were dropped or split. *)
Theorem segments_numbered_in_order (script : str)
    (name_map : option (gmap str Speaker)) :
  map index (parse_script script) = seq 0 (length (parse_script script))
  /\ map index (fst (parse_dialogue script name_map))
     = seq 0 (length (fst (parse_dialogue script name_map))).
Proof.
  split.
  - apply parse_script_emitted.
  - apply parse_dialogue_emitted.
Qed.

Lemma emitted_clean (seg : SpeakerSegment) :
  emitted seg ->
  text seg <> [] /\ strip (text seg) = text seg
  /\ single_spaced (text seg) = true
  /\ Forall (fun c => cue_shape c = true) (cues seg).
Proof.
  intros (Ht & Hs & Hc & _).
  split; [destruct Ht as (_ & _ & H); exact H|].
  split; [apply tight_strip, Ht|]. split; assumption.
Qed.

(** X14. No segment has an empty text; the text of a segment is trimmed and
    has no run of whitespace, and its cues are single words or pairs of
    words. *)
Theorem segments_are_clean (script : str)
    (name_map : option (gmap str Speaker)) :
  let clean seg :=
    text seg <> [] /\ strip (text seg) = text seg
    /\ single_spaced (text seg) = true
    /\ Forall (fun c => cue_shape c = true) (cues seg) in
  Forall clean (parse_script script)
  /\ Forall clean (fst (parse_dialogue script name_map)).
Proof.
  cbv zeta. split.
  - eapply Forall_impl; [apply parse_script_emitted|].
    intros seg. apply emitted_clean.
  - eapply Forall_impl; [apply parse_dialogue_emitted|].
    intros seg. apply emitted_clean.
Qed.

(** *** The parts of a long text *)

(** *** The parts of a long text *)

Lemma ink_of_sentences (a b : bool) (s : str) :
  ink_of (concat (split_sentences_from a b s)) = ink_of s.
Proof.
  revert a b. induction s as [|c s IH]; intros a b; [reflexivity|].
  cbn [split_sentences_from].
  destruct (is_space c) eqn:Ec; cbn [andb].
  - destruct b.
    + rewrite IH. cbn. rewrite Ec. reflexivity.
    + destruct a.
      * cbn [concat app]. rewrite IH. cbn. rewrite Ec. reflexivity.
      * rewrite concat_cons_head.
        change (ink_of (c :: ?x)) with (ink_of ([c] ++ x)).
        cbn [ink_of List.filter app]. rewrite Ec. cbn [negb].
        apply IH.
  - rewrite concat_cons_head. cbn [ink_of List.filter]. rewrite Ec.
    cbn [negb]. f_equal. apply IH.
Qed.

Lemma ink_of_concat_snoc (parts : list str) (x : str) :
  ink_of (concat (parts ++ [x])) = ink_of (concat parts) ++ ink_of x.
Proof. rewrite concat_app, ink_of_app. cbn. rewrite app_nil_r. reflexivity. Qed.

Lemma pack_step_ink (st : list str * str) (sent : str) :
  ink_of (concat (fst (pack_step st sent)) ++ snd (pack_step st sent))
  = ink_of (concat (fst st) ++ snd st) ++ ink_of sent.
Proof.
  destruct st as [parts current]. unfold pack_step. cbn [fst snd].
  destruct (_ && _); cbn [fst snd].
  - rewrite !ink_of_app, ink_of_concat_snoc, ink_of_strip. reflexivity.
  - destruct current as [|c current]; cbn [truthy].
    + rewrite !ink_of_app, app_nil_r. reflexivity.
    + rewrite !ink_of_app. cbn [ink_of List.filter].
      change (is_space sp) with true. cbn [negb app].
      rewrite <- !app_assoc. reflexivity.
Qed.

Lemma fold_pack_ink (sentences : list str) (st : list str * str) :
  ink_of (concat (fst (fold_left pack_step sentences st))
          ++ snd (fold_left pack_step sentences st))
  = ink_of (concat (fst st) ++ snd st) ++ ink_of (concat sentences).
Proof.
  revert st. induction sentences as [|sent rest IH]; intros st.
  - cbn. rewrite app_nil_r. reflexivity.
  - cbn [fold_left concat]. rewrite IH, pack_step_ink.
    rewrite (ink_of_app sent), <- !app_assoc. reflexivity.
Qed.

(** X15. Splitting a long text loses or moves no character but whitespace:
    the parts, one after the other, have the characters of the text. *)
Theorem split_keeps_every_character (text : str) :
  ink_of (concat (_split_long_segment text)) = ink_of text.
Proof.
  unfold _split_long_segment.
  pose proof (fold_pack_ink (split_sentences text) ([], [])) as H.
  destruct (fold_left pack_step (split_sentences text) ([], []))
    as [parts current].
  cbn [fst snd concat app] in H.
  unfold split_sentences in H. rewrite ink_of_sentences in H.
  cbn [ink_of List.filter app] in H. fold (ink_of text) in H.
  rewrite <- H, ink_of_app.
  destruct (truthy (strip current)) eqn:E.
  - rewrite ink_of_concat_snoc, ink_of_strip. reflexivity.
  - rewrite (strip_no_ink _ E), app_nil_r. reflexivity.
Qed.

Lemma strip_length (s : str) : (length (strip s) <= length s)%nat.
Proof.
  unfold strip, lstrip.
  pose proof (rstrip_length (drop_while is_space s)).
  pose proof (drop_while_length is_space s). lia.
Qed.

Section Bound.

Variable sentences : list str.

Lemma pack_step_within (st : list str * str) (sent : str) :
  In sent sentences ->
  Forall (within sentences) (fst st) -> running sentences (snd st) ->
  Forall (within sentences) (fst (pack_step st sent))
  /\ running sentences (snd (pack_step st sent)).
Proof.
  destruct st as [parts current]. cbn [fst snd]. intros Hin Hparts Hcur.
  unfold pack_step.
  destruct ((_MAX_SEGMENT_CHARS <? length current + length sent)%nat
            && truthy current) eqn:E; cbn [fst snd].
  - split; [|right; exact Hin].
    apply Forall_app. split; [exact Hparts|].
    constructor; [|constructor].
    destruct Hcur as [Hcur|Hcur].
    + left. pose proof (strip_length current). lia.
    + right. exists current. split; [exact Hcur | reflexivity].
  - split; [exact Hparts|].
    destruct current as [|c current]; cbn [truthy]; [right; exact Hin|].
    cbn [truthy] in E. rewrite andb_true_r in E. apply Nat.ltb_ge in E.
    left. rewrite !length_app. cbn [length] in *. lia.
Qed.

Lemma fold_pack_within (todo : list str) (st : list str * str) :
  Forall (fun s => In s sentences) todo ->
  Forall (within sentences) (fst st) -> running sentences (snd st) ->
  Forall (within sentences) (fst (fold_left pack_step todo st))
  /\ running sentences (snd (fold_left pack_step todo st)).
Proof.
  revert st. induction todo as [|sent rest IH]; intros st Hin Hparts Hcur;
    [split; assumption|].
  inversion Hin as [|? ? Hs Hrest]; subst.
  cbn [fold_left].
  destruct (pack_step_within st sent Hs Hparts Hcur) as [H1 H2].
  apply IH; assumption.
Qed.

End Bound.

(** X16. A part is at most 501 characters long, unless it is a single
    sentence of the text. *)
Theorem parts_are_bounded_or_one_sentence (text : str) :
  Forall
    (fun p =>
       (length p <= S _MAX_SEGMENT_CHARS)%nat
       \/ exists s, In s (split_sentences text) /\ p = strip s)
    (_split_long_segment text).
Proof.
  unfold _split_long_segment.
  destruct (fold_pack_within (split_sentences text) (split_sentences text)
              ([], []))
    as [H1 H2].
  - apply List.Forall_forall. auto.
  - constructor.
  - left. cbn. lia.
  - destruct (fold_left pack_step (split_sentences text) ([], []))
      as [parts current].
    cbn [fst snd] in *.
    destruct (truthy (strip current)); [|exact H1].
    apply Forall_app. split; [exact H1|].
    constructor; [|constructor].
    destruct H2 as [H2|H2].
    + left. pose proof (strip_length current). lia.
    + right. exists current. split; [exact H2 | reflexivity].
Qed.

(** The bound is reached: two sentences of 250 characters stay together
    as one part of 501 characters. *)
Example part_of_501_characters :
  let text :=
    repeat "a"%char 249 ++ chars ". " ++ repeat "b"%char 249 ++ chars "." in
  map (fun p => length p) (_split_long_segment text) = [501%nat]
  /\ map (fun seg => length (Data.text seg))
       (parse_script (chars "HOST_A: " ++ text)) = [501%nat].
Proof. vm_compute. split; reflexivity. Qed.

(** *** The turns of a script *)

Lemma scan_turns_groups (pattern : Marker) (Q : str -> Prop) :
  (forall s g n, pattern s = Some (g, n) -> Q g) ->
  forall (s : str) (b : bool) (k : nat),
    Forall (fun m => Q (fst m)) (snd (scan_turns pattern b k s)).
Proof.
  intros Hp. induction s as [|c s IH]; intros b k; [constructor|].
  cbn [scan_turns]. destruct k as [|k]; [|apply IH].
  destruct (if b then pattern (c :: s) else None) as [[g n]|] eqn:E.
  - specialize (IH (ch_eqb c nl) (n - 1)%nat).
    destruct (scan_turns pattern (ch_eqb c nl) (n - 1) s) as [body turns].
    cbn [snd] in *. constructor; [|exact IH].
    destruct b; [|discriminate]. eapply Hp. exact E.
  - specialize (IH (ch_eqb c nl) 0%nat).
    destruct (scan_turns pattern (ch_eqb c nl) 0 s) as [body turns].
    exact IH.
Qed.

Lemma turn_of_tight (m turn : str * str) :
  turn_of m = Some turn -> fst turn = fst m /\ tight (snd turn).
Proof.
  destruct m as [g raw]. unfold turn_of.
  destruct (truthy (strip (lstrip_star (strip raw)))) eqn:E; [|discriminate].
  intros [= <-]. cbn [fst snd]. split; [reflexivity|].
  apply strip_tight, truthy_true, E.
Qed.

Lemma split_into_turns_every (script : str) (pattern : Marker)
    (Q : str -> Prop) :
  (forall s g n, pattern s = Some (g, n) -> Q g) ->
  Forall (fun turn => Q (fst turn) /\ tight (snd turn))
    (omap turn_of (snd (scan_turns pattern true 0 script))).
Proof.
  intros Hp. pose proof (scan_turns_groups pattern Q Hp script true 0) as H.
  induction H as [|m l Hm Hl IH]; [constructor|].
  cbn [omap list_omap]. fold (omap turn_of l).
  destruct (turn_of m) as [turn|] eqn:E; [|exact IH].
  constructor; [|exact IH].
  apply turn_of_tight in E. destruct E as [-> E]. split; assumption.
Qed.

Lemma dialogue_marker_sound (s g : str) (n : nat) :
  dialogue_marker s = Some (g, n) ->
  g <> [] /\ forallb is_word g = true /\ In colon s.
Proof.
  unfold dialogue_marker.
  destruct (span is_star s) as [stars1 r1] eqn:E1.
  destruct (length stars1 <=? 2)%nat; [|discriminate].
  destruct (span is_word r1) as [name r2] eqn:E2.
  destruct (truthy name) eqn:Tn; [|discriminate].
  destruct (span is_star r2) as [stars2 r3] eqn:E3.
  destruct (length stars2 <=? 2)%nat; [|discriminate].
  destruct (span is_space r3) as [gap r4] eqn:E4.
  destruct r4 as [|d r5]; [discriminate|].
  destruct (ch_eqb d colon) eqn:Ed; [|discriminate].
  destruct (span is_space r5) as [gap' r6]. intros [= <- _].
  apply ch_eqb_eq in Ed. subst d.
  split; [apply truthy_true, Tn|].
  split; [eapply span_all; exact E2|].
  rewrite (span_eq _ _ _ _ E1), (span_eq _ _ _ _ E2), (span_eq _ _ _ _ E3),
    (span_eq _ _ _ _ E4).
  rewrite !in_app_iff. right. right. right. right. left. reflexivity.
Qed.

Lemma host_marker_tag (s g : str) (n : nat) :
  host_marker s = Some (g, n) ->
  (g = chars "HOST_A" \/ g = chars "HOST_B") /\ In colon s.
Proof.
  intros H. apply host_marker_sound in H.
  destruct H as (x & gap & r & -> & Hx & _ & -> & _).
  split.
  - unfold is_host_letter in Hx. apply orb_true_iff in Hx.
    destruct Hx as [Hx|Hx]; apply ch_eqb_eq in Hx; subst x; auto.
  - rewrite in_app_iff. right. right. rewrite in_app_iff. right. left.
    reflexivity.
Qed.

(** X17. Every turn has a speaker label of the pattern and a text that is
    not empty and is trimmed: the label is HOST_A or HOST_B for the
    default pattern (so [parse_script] gives HOST_B to no other label),
    and a non-empty run of word characters for the dialogue pattern. *)
Theorem turns_have_label_and_text (script : str) :
  Forall
    (fun turn =>
       (fst turn = chars "HOST_A" \/ fst turn = chars "HOST_B")
       /\ value (speaker_of_tag (fst turn)) = fst turn
       /\ tight (snd turn))
    (_split_into_turns script None)
  /\ Forall
       (fun turn =>
          fst turn <> [] /\ forallb is_word (fst turn) = true
          /\ tight (snd turn))
       (_split_into_turns script (Some dialogue_marker)).
Proof.
  unfold _split_into_turns. split.
  - eapply Forall_impl.
    + apply (split_into_turns_every script host_marker
               (fun g => g = chars "HOST_A" \/ g = chars "HOST_B")).
      intros s g n H. apply (host_marker_tag s g n H).
    + cbn beta. intros turn [Hg Ht]. split; [exact Hg|]. split; [|exact Ht].
      destruct Hg as [-> | ->]; reflexivity.
  - eapply Forall_impl.
    + apply (split_into_turns_every script dialogue_marker
               (fun g => g <> [] /\ forallb is_word g = true)).
      intros s g n H. apply dialogue_marker_sound in H. tauto.
    + cbn beta. intros turn [[H1 H2] H3]. auto.
Qed.

(** *** Scripts without a colon *)

Lemma scan_turns_no_colon (pattern : Marker) :
  (forall s g n, pattern s = Some (g, n) -> In colon s) ->
  forall (s : str) (b : bool) (k : nat),
    ~ In colon s -> snd (scan_turns pattern b k s) = [].
Proof.
  intros Hp. induction s as [|c s IH]; intros b k Hs; [reflexivity|].
  assert (Hs' : ~ In colon s) by (intros H; apply Hs; right; exact H).
  cbn [scan_turns]. destruct k as [|k]; [|apply IH, Hs'].
  destruct (if b then pattern (c :: s) else None) as [[g n]|] eqn:E.
  - destruct b; [|discriminate]. exfalso. apply Hs. eapply Hp. exact E.
  - specialize (IH (ch_eqb c nl) 0%nat Hs').
    destruct (scan_turns pattern (ch_eqb c nl) 0 s) as [body turns].
    exact IH.
Qed.

(** X18. A script without any colon has no turn: both parsers return no
    segment, and [parse_dialogue] logs no warning. *)
Theorem no_colon_no_segments (script : str)
    (name_map : option (gmap str Speaker)) :
  ~ In colon script ->
  parse_script script = [] /\ parse_dialogue script name_map = ([], []).
Proof.
  intros H. unfold parse_script, parse_dialogue, _split_into_turns.
  rewrite (scan_turns_no_colon host_marker) by
    (try exact H; intros s g n E; apply (host_marker_tag s g n E)).
  rewrite (scan_turns_no_colon dialogue_marker) by
    (try exact H; intros s g n E; apply (dialogue_marker_sound s g n E)).
  split; reflexivity.
Qed.

Lemma no_colon_no_segments_witness :
  parse_script (chars "Welcome to the show!") = []
  /\ parse_dialogue (chars "Welcome to the show!") None = ([], []).
Proof.
  apply (no_colon_no_segments (chars "Welcome to the show!") None).
  vm_compute. intuition discriminate.
Defined.

(** *** Cue markers and the text around them *)

Lemma weave_cons_head (c : ascii) (t : str) (pieces markers : list str) :
  weave ((c :: t) :: pieces) markers = c :: weave (t :: pieces) markers.
Proof. cbn [weave]. destruct markers; reflexivity. Qed.

Lemma cue_scan (s : str) (k : nat) :
  (k <= length s)%nat ->
  exists pieces,
    length pieces = S (length (findall_cues_from k s))
    /\ drop k s = weave pieces (map cue_tag (findall_cues_from k s))
    /\ sub_cues_from k s = concat pieces.
Proof.
  revert k. induction s as [|c s IH]; intros k Hk.
  - exists [[]]. destruct k; repeat split.
  - cbn [findall_cues_from sub_cues_from]. destruct k as [|k].
    + destruct (match_cue (c :: s)) as [[g n]|] eqn:E.
      * apply match_cue_sound in E. destruct E as (rest & E & -> & _).
        injection E as -> ->.
        destruct (IH (2 + length g - 1)%nat) as (pieces & H1 & H2 & H3).
        { rewrite length_app. cbn [length]. lia. }
        exists ([] :: pieces). cbn [length map weave concat app].
        split; [rewrite H1; reflexivity|].
        split; [|exact H3].
        rewrite <- H2. cbn [drop]. unfold cue_tag. cbn [app].
        f_equal. rewrite <- app_assoc. cbn [app]. f_equal.
        replace (2 + length g - 1)%nat with (length (g ++ [rbracket]))
          by (rewrite length_app; cbn; lia).
        replace (g ++ rbracket :: rest) with ((g ++ [rbracket]) ++ rest)
          by (rewrite <- app_assoc; reflexivity).
        rewrite drop_app_length. reflexivity.
      * destruct (IH 0%nat) as (pieces & H1 & H2 & H3); [lia|].
        destruct pieces as [|t pieces]; [discriminate|].
        exists ((c :: t) :: pieces).
        split; [exact H1|].
        split.
        -- rewrite weave_cons_head, <- H2. reflexivity.
        -- rewrite H3. reflexivity.
    + destruct (IH k) as (pieces & H1 & H2 & H3); [cbn in Hk; lia|].
      exists pieces. auto.
Qed.

(** X19. A turn's text is its kept pieces with the cue markers between
    them: every cue stands in the text between brackets, in order, and
    taking the cues out removes these markers and nothing else. *)
Theorem cues_and_text_make_the_turn (body : str) :
  exists pieces,
    length pieces = S (length (findall_cues body))
    /\ body = weave pieces (map cue_tag (findall_cues body))
    /\ sub_cues body = concat pieces.
Proof. apply (cue_scan body 0). lia. Qed.

(** *** Unknown speakers *)

Lemma append_turn_segments (speaker : Speaker) (body : str)
    (segments : list SpeakerSegment) :
  append_turn speaker body segments
  = segments ++ turn_segments (length segments) (speaker, body).
Proof.
  unfold append_turn, turn_segments. cbn [fst snd].
  destruct (truthy (clean_text_of body)); cbn [negb].
  - destruct (_ <? _)%nat.
    + apply append_subs_sub_turns.
    + reflexivity.
  - rewrite app_nil_r. reflexivity.
Qed.

Lemma fold_known_step_segments (turns : list (Speaker * str))
    (segments : list SpeakerSegment) :
  fold_left known_step turns segments
  = segments ++ segments_from (length segments) turns.
Proof.
  revert segments. induction turns as [|[who body] turns IH]; intros segments.
  - cbn. rewrite app_nil_r. reflexivity.
  - cbn [fold_left segments_from]. unfold known_step at 2. cbn [fst snd].
    rewrite append_turn_segments, IH, length_app, <- app_assoc.
    reflexivity.
Qed.

Lemma turn_segments_first (base : nat) (turn : Speaker * str) :
  clean_text_of (snd turn) <> [] ->
  exists seg rest,
    turn_segments base turn = seg :: rest
    /\ speaker seg = fst turn /\ index seg = base
    /\ cues seg = findall_cues (snd turn).
Proof.
  intros Hne. unfold turn_segments.
  rewrite (proj2 (truthy_true _) Hne).
  destruct (_ <? _)%nat.
  - pose proof (split_long_segment_nonempty _ (clean_text_ink _ Hne)) as Hp.
    destruct (_split_long_segment (clean_text_of (snd turn))) as [|p ps];
      [congruence|].
    cbn [sub_turns]. eexists _, _. repeat split.
  - cbn [sub_turns]. eexists _, _. repeat split.
Qed.

Lemma scan_skip (pattern : Marker) (x f : str) (b : bool) :
  scan_turns pattern b (length x) (x ++ f)
  = scan_turns pattern (bol_after b x) 0 f.
Proof.
  revert b. induction x as [|c x IH]; intros b; [reflexivity|].
  cbn [length app scan_turns]. apply IH.
Qed.

Lemma scan_to_newline (pattern : Marker) (x f : str) :
  ~ In nl x ->
  scan_turns pattern false 0 (x ++ nl :: f)
  = (x ++ nl :: fst (scan_turns pattern true 0 f),
     snd (scan_turns pattern true 0 f)).
Proof.
  induction x as [|c x IH]; intros Hx.
  - cbn [app scan_turns]. change (ch_eqb nl nl) with true.
    destruct (scan_turns pattern true 0 f). reflexivity.
  - cbn [app scan_turns].
    assert (Hc : ch_eqb c nl = false).
    { apply ch_eqb_neq. intros ->. apply Hx. left. reflexivity. }
    rewrite Hc, IH by (intros H; apply Hx; right; exact H).
    reflexivity.
Qed.

Lemma word_not_star (c : ascii) : is_word c = true -> is_star c = false.
Proof.
  intros Hw. unfold is_star. apply ch_eqb_neq. intros ->. discriminate.
Qed.

Lemma dialogue_marker_plain (label body f : str) :
  label <> [] -> forallb is_word label = true -> tight body ->
  dialogue_marker (label ++ chars ": " ++ body ++ f)
  = Some (label, (length label + 2)%nat).
Proof.
  intros Hne Hw Hb. unfold dialogue_marker.
  change (chars ": ") with [colon; sp]. cbn [app].
  destruct (tight_head body Hb) as (d & r & -> & Hd).
  assert (E1 : span is_star (label ++ colon :: sp :: (d :: r) ++ f)
               = ([], label ++ colon :: sp :: (d :: r) ++ f)).
  { destruct label as [|c l]; [congruence|].
    cbn [forallb] in Hw. apply andb_true_iff in Hw. destruct Hw as [Hc _].
    cbn [app span]. rewrite (word_not_star c Hc). reflexivity. }
  rewrite E1. cbn [length Nat.leb].
  rewrite (span_app is_word label (colon :: sp :: (d :: r) ++ f) Hw eq_refl).
  rewrite (proj2 (truthy_true _) Hne).
  change (span is_star (colon :: ?x)) with (@nil ascii, colon :: x).
  cbn [length Nat.leb].
  change (span is_space (colon :: ?x)) with (@nil ascii, colon :: x).
  change (ch_eqb colon colon) with true. cbn iota.
  assert (E2 : span is_space (sp :: (d :: r) ++ f) = ([sp], (d :: r) ++ f)).
  { cbn [app span]. change (is_space sp) with true. rewrite Hd.
    reflexivity. }
  rewrite E2. cbn [length]. f_equal. f_equal. lia.
Qed.

Lemma scan_dialogue_line (turn : str * str) (f : str) :
  plain_turn turn ->
  scan_turns dialogue_marker true 0 (dialogue_line turn ++ f)
  = ([],
     (fst turn, snd turn ++ nl :: fst (scan_turns dialogue_marker true 0 f))
     :: snd (scan_turns dialogue_marker true 0 f)).
Proof.
  destruct turn as [label body]. unfold plain_turn, dialogue_line.
  cbn [fst snd]. intros (Hne & Hw & Hb & Hnl & _).
  pose proof (dialogue_marker_plain label body (nl :: f) Hne Hw Hb) as Hm.
  replace ((label ++ chars ": " ++ body ++ [nl]) ++ f)
    with (label ++ chars ": " ++ body ++ nl :: f)
    by (rewrite <- !app_assoc; reflexivity).
  destruct label as [|c l]; [congruence|].
  cbn [app] in *. cbn [scan_turns]. rewrite Hm.
  replace (length (c :: l) + 2 - 1)%nat with (length (l ++ chars ": "))
    by (rewrite length_app; cbn [length chars]; cbn; lia).
  replace (l ++ chars ": " ++ body ++ nl :: f)
    with ((l ++ chars ": ") ++ body ++ nl :: f)
    by (rewrite <- app_assoc; reflexivity).
  rewrite scan_skip, bol_after_app.
  change (bol_after (bol_after (ch_eqb c nl) l) (chars ": ")) with false.
  rewrite scan_to_newline by exact Hnl. reflexivity.
Qed.

Lemma scan_dialogue_lines (lines : list (str * str)) :
  Forall plain_turn lines ->
  scan_turns dialogue_marker true 0 (dialogue_lines lines)
  = ([], map (fun turn => (fst turn, snd turn ++ [nl])) lines).
Proof.
  induction 1 as [|turn lines Ht Hl IH]; [reflexivity|].
  unfold dialogue_lines in *. cbn [map concat].
  rewrite (scan_dialogue_line turn _ Ht), IH. reflexivity.
Qed.

Lemma turn_of_line (turn : str * str) :
  plain_turn turn -> turn_of (fst turn, snd turn ++ [nl]) = Some turn.
Proof.
  destruct turn as [label body]. unfold plain_turn. cbn [fst snd].
  intros (_ & _ & Hb & _ & Hs). unfold turn_of.
  pose proof (strip_padded [] body [nl] eq_refl eq_refl Hb) as Hstrip.
  cbn [app] in Hstrip. rewrite Hstrip.
  destruct (tight_head body Hb) as (d & r & -> & Hd).
  cbn [starts_with_star] in Hs. apply ch_eqb_neq in Hs.
  assert (Hs' : ch_eqb star d = false)
    by (apply ch_eqb_neq; congruence).
  unfold lstrip_star. cbn [drop_while]. rewrite Hs'.
  rewrite (tight_strip _ Hb). reflexivity.
Qed.

Lemma split_dialogue_lines (lines : list (str * str)) :
  Forall plain_turn lines ->
  _split_into_turns (dialogue_lines lines) (Some dialogue_marker) = lines.
Proof.
  intros H. unfold _split_into_turns. rewrite scan_dialogue_lines by exact H.
  cbn [snd]. induction H as [|turn lines Ht Hl IH]; [reflexivity|].
  cbn [map omap list_omap]. rewrite (turn_of_line turn Ht).
  fold (omap turn_of (map (fun t => (fst t, snd t ++ [nl])) lines)).
  rewrite IH. reflexivity.
Qed.

Lemma resolve_known_only (names : gmap str Speaker)
    (turns : list (str * str)) :
  omap (resolve names)
    (List.filter (fun turn => negb (is_unknown names turn)) turns)
  = omap (resolve names) turns.
Proof.
  induction turns as [|turn turns IH]; [reflexivity|].
  cbn [List.filter omap list_omap]. unfold is_unknown at 1, resolve at 2.
  destruct (names !! fst turn) eqn:E; cbn [negb].
  - cbn [omap list_omap]. unfold resolve at 1. rewrite E.
    fold (omap (resolve names) turns).
    fold (omap (resolve names)
            (List.filter (fun turn => negb (is_unknown names turn)) turns)).
    rewrite IH. reflexivity.
  - exact IH.
Qed.

Lemma plain_turns_filter (f : str * str -> bool) (lines : list (str * str)) :
  Forall plain_turn lines -> Forall plain_turn (List.filter f lines).
Proof.
  induction 1 as [|turn lines Ht Hl IH]; [constructor|].
  cbn [List.filter]. destruct (f turn); [constructor|]; assumption.
Qed.

(** C7.  [parse_dialogue] returns for every script and name map (it has
    no failing case).  A turn whose label is not in the name map is
    dropped, and its label is logged as a warning; every other turn is
    emitted: the segments are those of the turns with a known label, in
    the order of the script and numbered from 0, as if the other turns
    were not there, and such a turn gives at least one segment, of its
    speaker and with its cues, unless its cleaned text is empty.  The
    turns are the ones written in the script: a script of one turn on a
    line has exactly these turns, and taking the lines of unknown
    speakers out of it leaves the segments as they are. *)
Theorem unknown_speaker_is_dropped (script : str)
    (name_map : option (gmap str Speaker)) :
  let names :=
    match name_map with Some m => m | None => default_name_map end in
  let turns := _split_into_turns script (Some dialogue_marker) in
  let known := omap (resolve names) turns in
  parse_dialogue script name_map
  = (segments_from 0 known, map fst (List.filter (is_unknown names) turns))
  /\ (forall turn base,
        In turn known -> clean_text_of (snd turn) <> [] ->
        exists seg rest,
          turn_segments base turn = seg :: rest
          /\ speaker seg = fst turn /\ index seg = base
          /\ cues seg = findall_cues (snd turn))
  /\ (forall lines,
        Forall plain_turn lines -> script = dialogue_lines lines ->
        turns = lines
        /\ fst (parse_dialogue
                  (dialogue_lines
                     (List.filter (fun turn => negb (is_unknown names turn))
                        lines))
                  name_map)
           = fst (parse_dialogue script name_map)).
Proof.
  cbv zeta. split; [|split].
  - unfold parse_dialogue. rewrite fold_dialogue_step.
    rewrite fold_known_step_segments. reflexivity.
  - intros turn base _ Hne. apply turn_segments_first, Hne.
  - intros lines Hl ->. split; [apply split_dialogue_lines, Hl|].
    unfold parse_dialogue.
    rewrite !split_dialogue_lines by (try apply plain_turns_filter; exact Hl).
    rewrite !fold_dialogue_step. cbn [fst].
    rewrite resolve_known_only. reflexivity.
Qed.

(** A script of three lines, the second of an unknown speaker: the first
    and the third are emitted, the second is logged. *)
Lemma unknown_speaker_is_dropped_witness :
  let lines :=
    [(chars "Mike", chars "Hello!");
     (chars "Unknown", chars "This should be skipped.");
     (chars "Sarah", chars "[excited] Hey!")] in
  parse_dialogue (dialogue_lines lines) None
  = ([{| speaker := HOST_A; text := chars "Hello!"; index := 0; cues := [] |};
      {| speaker := HOST_B; text := chars "Hey!"; index := 1;
         cues := [chars "excited"] |}],
     [chars "Unknown"])
  /\ _split_into_turns (dialogue_lines lines) (Some dialogue_marker) = lines.
Proof.
  cbv zeta.
  destruct (unknown_speaker_is_dropped
              (dialogue_lines
                 [(chars "Mike", chars "Hello!");
                  (chars "Unknown", chars "This should be skipped.");
                  (chars "Sarah", chars "[excited] Hey!")]) None)
    as (H1 & _ & H3).
  split.
  - rewrite H1. vm_compute. reflexivity.
  - apply (H3 [(chars "Mike", chars "Hello!");
               (chars "Unknown", chars "This should be skipped.");
               (chars "Sarah", chars "[excited] Hey!")]); [|reflexivity].
    repeat constructor; cbn; try discriminate;
      intros H; repeat (destruct H as [H|H]; [discriminate|]); exact H.
Defined.

End DialogueParserSpec.

(** ** Voices and synthesis *)

Module EngineSpec.
Import PyStr PyStrFacts Data DialogueParser VoiceConfig Engine
  DialogueParserSpec.

(** *** File names *)

Lemma string_of_uint_digits (d : Decimal.uint) :
  forallb is_digit (chars (NilEmpty.string_of_uint d)) = true.
Proof. induction d; cbn; try reflexivity; exact IHd. Qed.

Lemma format_04d_digits (n : nat) : forallb is_digit (format_04d n) = true.
Proof.
  unfold format_04d. rewrite forallb_app. apply andb_true_iff. split.
  - induction (4 - length (decimal_digits n))%nat; [reflexivity|exact IHn0].
  - apply string_of_uint_digits.
Qed.

Lemma read_number_zero (s : str) :
  read_number ("0"%char :: s) = read_number s.
Proof.
  unfold read_number. cbn [string_of_list_ascii NilEmpty.uint_of_string].
  destruct (NilEmpty.uint_of_string (string_of_list_ascii s)); reflexivity.
Qed.

Lemma read_number_format (n : nat) : read_number (format_04d n) = Some n.
Proof.
  unfold format_04d.
  induction (4 - length (decimal_digits n))%nat as [|k IH].
  - cbn [repeat app]. unfold read_number, decimal_digits, chars.
    rewrite string_of_list_ascii_of_string, NilEmpty.usu. cbn.
    rewrite DecimalNat.Unsigned.of_to. reflexivity.
  - cbn [repeat app]. rewrite read_number_zero. exact IH.
Qed.

Lemma format_04d_inj (n m : nat) : format_04d n = format_04d m -> n = m.
Proof.
  intros H. apply (f_equal read_number) in H.
  rewrite !read_number_format in H. congruence.
Qed.

Lemma digits_no_underscore (s : str) :
  forallb is_digit s = true -> ~ In "_"%char s.
Proof.
  intros H Hin. rewrite forallb_forall in H. specialize (H _ Hin).
  discriminate.
Qed.

Lemma segment_file_name_inj (a b : SpeakerSegment) :
  segment_file_name a = segment_file_name b ->
  index a = index b /\ Data.speaker a = Data.speaker b.
Proof.
  unfold segment_file_name. intros H.
  apply app_inv_head in H.
  change (chars "_" ++ ?x) with ("_"%char :: x) in H.
  apply cut_unique in H;
    [|apply digits_no_underscore, format_04d_digits
     |apply digits_no_underscore, format_04d_digits].
  destruct H as [H1 H2]. split; [apply format_04d_inj, H1|].
  destruct (Data.speaker a), (Data.speaker b);
    [reflexivity | discriminate | discriminate | reflexivity].
Qed.

(** Four file names. *)
Example segment_file_names :
  map (fun i =>
         segment_file_name
           {| Data.speaker := Data.HOST_B; text := []; index := i;
              cues := [] |})
    [0; 7; 123; 4567]%nat
  = [chars "segment_0000_HOST_B.wav"; chars "segment_0007_HOST_B.wav";
     chars "segment_0123_HOST_B.wav"; chars "segment_4567_HOST_B.wav"].
Proof. vm_compute. reflexivity. Qed.

Section WithSystem.

Context {Model : Type}.
Variable sys : System Model.

(** *** What a run returns *)

Lemma synthesize_segment_returns (segment : SpeakerSegment)
    (output_dir : option Path) (st st' : State Model) (path : Path) :
  synthesize_segment sys segment output_dir st = (st', inr path) ->
  path = joinpath (default (segments_path (settings sys)) output_dir)
           (segment_file_name segment)
  /\ progress_calls st' = progress_calls st.
Proof.
  unfold synthesize_segment, bind, _require_tts, _get_model, bind,
    _require_tts, effect.
  destruct (negb (_tts_available st)); [discriminate|].
  destruct (mkdir sys _); [discriminate|].
  cbn [ret]. destruct (negb (_tts_available st)); [discriminate|].
  destruct (_tts_model st) as [m|] eqn:Em.
  - cbn [ret]. destruct (negb (path_exists sys _)); [discriminate|].
    destruct (tts_to_file sys _ _ _ _ _); [discriminate|].
    cbn [ret]. intros [= <- <-]. auto.
  - destruct (load_model sys) as [m|exc|exc|exc]; try discriminate.
    cbn [set_model bind ret].
    destruct (negb (path_exists sys _)); [discriminate|].
    destruct (tts_to_file sys _ _ _ _ _); [discriminate|].
    cbn [ret]. intros [= <- <-]. auto.
Qed.

Lemma synthesize_from_returns (run_dir : Path) (cb : bool) (total : nat)
    (segments : list SpeakerSegment) (i : nat) (paths0 paths : list Path)
    (st st' : State Model) :
  synthesize_from sys run_dir cb total i segments paths0 st
  = (st', inr paths) ->
  paths
  = paths0
    ++ map (fun seg => joinpath run_dir (segment_file_name seg)) segments
  /\ progress_calls st'
     = progress_calls st
       ++ (if cb
           then map (fun k => (k, total)) (seq (S i) (length segments))
           else []).
Proof.
  revert i paths0 st.
  induction segments as [|segment rest IH]; intros i paths0 st.
  - cbn [synthesize_from ret]. intros [= <- <-].
    rewrite !app_nil_r. destruct cb; rewrite ?app_nil_r; auto.
  - cbn [synthesize_from]. unfold bind at 1.
    destruct (synthesize_segment sys segment (Some run_dir) st)
      as [st1 [e|path]] eqn:E1; [discriminate|].
    apply synthesize_segment_returns in E1. destruct E1 as [-> Hc1].
    cbn [default from_option id].
    unfold bind at 1.
    destruct cb.
    + cbn [call_on_segment_done]. intros H. apply IH in H.
      destruct H as [-> H]. cbn [progress_calls] in H.
      split; [rewrite <- app_assoc; reflexivity|].
      rewrite H, Hc1, <- app_assoc. cbn [length seq map app].
      replace (i + 1)%nat with (S i) by lia. reflexivity.
    + cbn [ret]. intros H. apply IH in H. destruct H as [-> H].
      split; [rewrite <- app_assoc; reflexivity|].
      rewrite H, Hc1. reflexivity.
Qed.

Lemma synthesize_all_returns (segments : list SpeakerSegment)
    (output_dir : option Path) (on_segment_done : bool)
    (run_id : option str) (st st' : State Model) (paths : list Path)
    (run_dir : Path) :
  synthesize_all sys segments output_dir on_segment_done run_id st
  = (st', inr (paths, run_dir)) ->
  run_dir
  = joinpath (default (segments_path (settings sys)) output_dir)
      (match run_id with
       | Some r => if truthy r then r else uuid4_hex sys
       | None => uuid4_hex sys
       end)
  /\ paths
     = map (fun seg => joinpath run_dir (segment_file_name seg)) segments
  /\ progress_calls st'
     = progress_calls st
       ++ (if on_segment_done
           then map (fun k => (k, length segments)) (seq 1 (length segments))
           else []).
Proof.
  unfold synthesize_all, bind at 1, _require_tts.
  destruct (negb (_tts_available st)); [discriminate|].
  unfold bind at 1, effect.
  destruct (mkdir sys _); [discriminate|]. cbn [ret].
  unfold bind at 1.
  destruct (synthesize_from sys _ _ _ _ _ _ _) as [st1 [e|paths1]] eqn:E;
    [discriminate|].
  cbn [ret]. intros [= <- <- <-]. apply synthesize_from_returns in E.
  destruct E as [-> H]. auto.
Qed.

(** X21. A run that returns gives one path for every segment, in order:
    the file named after the segment's index and speaker, in the run's
    own directory; and the callback, when given, was called with 1, 2,
    ... up to the number of segments, each time with their total. *)
Theorem run_returns_one_file_per_segment
    (segments : list SpeakerSegment) (output_dir : option Path)
    (on_segment_done : bool) (run_id : option str) (st : State Model) :
  match synthesize_all sys segments output_dir on_segment_done run_id st with
  | (st', inr (paths, run_dir)) =>
      run_dir
      = joinpath (default (segments_path (settings sys)) output_dir)
          (match run_id with
           | Some r => if truthy r then r else uuid4_hex sys
           | None => uuid4_hex sys
           end)
      /\ paths
         = map (fun seg => joinpath run_dir (segment_file_name seg)) segments
      /\ progress_calls st'
         = progress_calls st
           ++ (if on_segment_done
               then map (fun k => (k, length segments))
                      (seq 1 (length segments))
               else [])
  | (_, inl _) => True
  end.
Proof.
  destruct (synthesize_all sys segments output_dir on_segment_done run_id st)
    as [st' [e|[paths run_dir]]] eqn:E; [exact I|].
  apply synthesize_all_returns in E. exact E.
Qed.

Lemma file_paths_distinct (run_dir : Path) (segments : list SpeakerSegment) :
  NoDup (map index segments) ->
  NoDup (map (fun seg => joinpath run_dir (segment_file_name seg)) segments).
Proof.
  induction segments as [|a rest IH]; cbn [map]; intros H; [constructor|].
  apply NoDup_cons in H. destruct H as [Ha Hrest].
  apply NoDup_cons. split; [|apply IH, Hrest].
  intros Hin. apply Ha. apply list_elem_of_In in Hin.
  apply in_map_iff in Hin. destruct Hin as (b & E & Hb).
  apply list_elem_of_In, in_map_iff. exists b. split; [|exact Hb].
  unfold joinpath in E. apply app_inj_tail in E. destruct E as [_ E].
  apply segment_file_name_inj in E. tauto.
Qed.

(** X22. The files of a parsed script do not collide: a run over the
    segments of [parse_dialogue] that returns gives pairwise different
    paths. *)
Theorem parsed_segments_get_distinct_files
    (script : str) (name_map : option (gmap str Speaker))
    (output_dir : option Path) (on_segment_done : bool)
    (run_id : option str) (st : State Model) :
  match synthesize_all sys (fst (parse_dialogue script name_map)) output_dir
          on_segment_done run_id st with
  | (_, inr (paths, _)) => NoDup paths
  | (_, inl _) => True
  end.
Proof.
  destruct (synthesize_all sys _ output_dir on_segment_done run_id st)
    as [st' [e|[paths run_dir]]] eqn:E; [exact I|].
  apply synthesize_all_returns in E. destruct E as (_ & -> & _).
  apply file_paths_distinct.
  destruct (parse_dialogue_emitted script name_map) as [_ ->].
  apply NoDup_seq.
Qed.

(** *** When synthesis is not available *)

Lemma unavailable_segment (segment : SpeakerSegment)
    (output_dir : option Path) (st : State Model) :
  _tts_available st = false ->
  synthesize_segment sys segment output_dir st
  = (st, inl (TTSUnavailableError (_tts_unavailable_reason st))).
Proof.
  intros H. unfold synthesize_segment, bind, _require_tts. rewrite H.
  reflexivity.
Qed.

Lemma unavailable_all (segments : list SpeakerSegment)
    (output_dir : option Path) (on_segment_done : bool)
    (run_id : option str) (st : State Model) :
  _tts_available st = false ->
  synthesize_all sys segments output_dir on_segment_done run_id st
  = (st, inl (TTSUnavailableError (_tts_unavailable_reason st))).
Proof.
  intros H. unfold synthesize_all, bind, _require_tts. rewrite H.
  reflexivity.
Qed.

(** X23. A model that fails to load is not tried again: the call that
    finds this raises [TTSUnavailableError] with the reason, and from
    then on every call raises this error again and changes nothing. *)
Theorem failed_load_is_remembered (segment : SpeakerSegment)
    (output_dir : option Path) (st : State Model) :
  _tts_available st = true ->
  _tts_model st = None ->
  mkdir sys (default (segments_path (settings sys)) output_dir) = None ->
  (forall m, load_model sys <> Loaded m) ->
  exists reason st',
    synthesize_segment sys segment output_dir st
    = (st', inl (TTSUnavailableError reason))
    /\ (forall segment' output_dir',
          synthesize_segment sys segment' output_dir' st'
          = (st', inl (TTSUnavailableError reason)))
    /\ (forall segments output_dir' on_segment_done run_id,
          synthesize_all sys segments output_dir' on_segment_done run_id st'
          = (st', inl (TTSUnavailableError reason))).
Proof.
  intros Hav Hmodel Hdir Hload.
  assert (H : exists reason,
            synthesize_segment sys segment output_dir st
            = ({| _tts_model := _tts_model st;
                  _tts_available := false;
                  _tts_unavailable_reason := reason;
                  progress_calls := progress_calls st |},
               inl (TTSUnavailableError reason))).
  { unfold synthesize_segment, bind, _require_tts, _get_model, bind,
      _require_tts, effect.
    rewrite Hav, Hdir. cbn [negb ret]. rewrite Hav. cbn [negb].
    cbv beta. rewrite Hmodel.
    destruct (load_model sys) as [m|exc|exc|exc];
      [exfalso; apply (Hload m); reflexivity| | |];
      unfold give_up_with; rewrite Hmodel; eexists; reflexivity. }
  destruct H as [reason H]. eexists reason, _.
  split; [exact H|]. split.
  - intros segment' output_dir'. apply unavailable_segment. reflexivity.
  - intros segments output_dir' cb run_id. apply unavailable_all. reflexivity.
Qed.

(** X24. With the environment variable DISABLE_TTS set to 1, true or
    yes, in any case of letters, synthesis is off from the start:
    [is_tts_available] returns false, and [synthesize_segment] and
    [synthesize_all] raise [TTSUnavailableError] before they make a
    directory or load the model. *)
Theorem disabled_by_environment (disable_tts : str) :
  lower disable_tts ∈ [chars "1"; chars "true"; chars "yes"] ->
  let st := at_import Model (Some disable_tts) in
  let disabled :=
    TTSUnavailableError
      (chars "TTS explicitly disabled via DISABLE_TTS env var") in
  is_tts_available st = (st, inr false)
  /\ (forall segment output_dir,
        synthesize_segment sys segment output_dir st = (st, inl disabled))
  /\ (forall segments output_dir on_segment_done run_id,
        synthesize_all sys segments output_dir on_segment_done run_id st
        = (st, inl disabled)).
Proof.
  intros H. cbv zeta.
  assert (Hav : _tts_available (at_import Model (Some disable_tts))
                = false).
  { unfold at_import. cbn [default from_option id _tts_available].
    rewrite bool_decide_eq_true_2 by exact H. reflexivity. }
  assert (Hre : _tts_unavailable_reason
                  (at_import Model (Some disable_tts))
                = chars "TTS explicitly disabled via DISABLE_TTS env var").
  { unfold at_import.
    cbn [default from_option id _tts_unavailable_reason].
    rewrite bool_decide_eq_true_2 by exact H. reflexivity. }
  split; [unfold is_tts_available; rewrite Hav; reflexivity|]. split.
  - intros segment output_dir. rewrite unavailable_segment by exact Hav.
    rewrite Hre. reflexivity.
  - intros segments output_dir cb run_id.
    rewrite unavailable_all by exact Hav. rewrite Hre. reflexivity.
Qed.

End WithSystem.

Lemma failed_load_is_remembered_witness :
  exists reason st',
    synthesize_segment no_memory_system Assembler.turn_a None
      (at_import unit None)
    = (st', inl (TTSUnavailableError reason))
    /\ (forall segment' output_dir',
          synthesize_segment no_memory_system segment' output_dir' st'
          = (st', inl (TTSUnavailableError reason)))
    /\ (forall segments output_dir' on_segment_done run_id,
          synthesize_all no_memory_system segments output_dir'
            on_segment_done run_id st'
          = (st', inl (TTSUnavailableError reason))).
Proof.
  apply (failed_load_is_remembered no_memory_system Assembler.turn_a None
           (at_import unit None)).
  - reflexivity.
  - reflexivity.
  - reflexivity.
  - intros m. discriminate.
Defined.

Lemma disabled_by_environment_witness :
  let st := at_import unit (Some (chars "Yes")) in
  let disabled :=
    TTSUnavailableError
      (chars "TTS explicitly disabled via DISABLE_TTS env var") in
  is_tts_available st = (st, inr false)
  /\ (forall segment output_dir,
        synthesize_segment ready_system segment output_dir st
        = (st, inl disabled))
  /\ (forall segments output_dir on_segment_done run_id,
        synthesize_all ready_system segments output_dir on_segment_done
          run_id st
        = (st, inl disabled)).
Proof.
  apply (disabled_by_environment ready_system (chars "Yes")).
  vm_compute. set_solver.
Defined.

End EngineSpec.

(** ** Trimming silence *)

Module PostprocessSpec.
Import VoiceConfig Engine Postprocess.

Section WithAudio.

Context {Audio : Type}.
Variable lib : Pydub Audio.

Lemma find_start_spec (audio : Audio) (t c : Z) (fuel : nat) (j : Z) :
  0 < c -> 0 <= j ->
  (Z.to_nat (len lib audio - j * c) < fuel)%nat ->
  quiet_head lib audio t c j ->
  exists i,
    find_start lib fuel audio t c (j * c) = Some (i * c)
    /\ j <= i
    /\ quiet_head lib audio t c i
    /\ (i * c < len lib audio - c ->
        louder lib (slice lib audio (i * c) (i * c + c)) t = true).
Proof.
  intros Hc. revert j.
  induction fuel as [|fuel IH]; intros j Hj Hfuel Hq; [lia|].
  cbn [find_start].
  destruct (j * c <? len lib audio - c) eqn:E.
  - apply Z.ltb_lt in E.
    destruct (louder lib (slice lib audio (j * c) (j * c + c)) t) eqn:El.
    + exists j. repeat split; [lia | exact Hq | intros _; exact El].
    + destruct (IH (j + 1)) as (i & H1 & H2 & H3 & H4); [lia | nia | |].
      * intros k Hk. destruct (Z.eq_dec k j) as [->|Hne]; [exact El|].
        apply Hq. lia.
      * exists i. replace (j * c + c) with ((j + 1) * c) by lia.
        repeat split; [exact H1 | lia | exact H3 | exact H4].
  - apply Z.ltb_ge in E. exists j.
    repeat split; [lia | exact Hq | lia].
Qed.

Lemma find_end_spec (audio : Audio) (t c : Z) (fuel : nat) (j : Z) :
  0 < c -> 0 <= j ->
  (Z.to_nat (len lib audio - j * c) < fuel)%nat ->
  quiet_tail lib audio t c j ->
  exists k,
    find_end lib fuel audio t c (len lib audio - j * c)
    = Some (len lib audio - k * c)
    /\ j <= k
    /\ quiet_tail lib audio t c k
    /\ (c < len lib audio - k * c ->
        louder lib
          (slice lib audio (len lib audio - k * c - c)
             (len lib audio - k * c)) t
        = true).
Proof.
  intros Hc. revert j.
  induction fuel as [|fuel IH]; intros j Hj Hfuel Hq; [lia|].
  cbn [find_end].
  destruct (c <? len lib audio - j * c) eqn:E.
  - apply Z.ltb_lt in E.
    destruct (louder lib
                (slice lib audio (len lib audio - j * c - c)
                   (len lib audio - j * c)) t) eqn:El.
    + exists j. repeat split; [lia | exact Hq | intros _; exact El].
    + destruct (IH (j + 1)) as (k & H1 & H2 & H3 & H4); [lia | nia | |].
      * intros i Hi. destruct (Z.eq_dec i j) as [->|Hne]; [exact El|].
        apply Hq. lia.
      * exists k.
        replace (len lib audio - j * c - c)
          with (len lib audio - (j + 1) * c) by lia.
        repeat split; [exact H1 | lia | exact H3 | exact H4].
  - apply Z.ltb_ge in E. exists j.
    repeat split; [lia | exact Hq | lia].
Qed.

(** The two loops end within the fuel, at whole chunks from the two
    ends. *)
Lemma trim_loops_end (audio : Audio) (t c : Z) :
  0 < c ->
  exists i k,
    find_start lib (enough lib audio) audio t c 0 = Some (i * c)
    /\ find_end lib (enough lib audio) audio t c (len lib audio)
       = Some (len lib audio - k * c)
    /\ 0 <= i /\ 0 <= k
    /\ quiet_head lib audio t c i /\ quiet_tail lib audio t c k
    /\ (i * c < len lib audio - c ->
        louder lib (slice lib audio (i * c) (i * c + c)) t = true)
    /\ (c < len lib audio - k * c ->
        louder lib
          (slice lib audio (len lib audio - k * c - c)
             (len lib audio - k * c)) t
        = true).
Proof.
  intros Hc. unfold enough.
  destruct (find_start_spec audio t c (S (Z.to_nat (len lib audio))) 0 Hc)
    as (i & H1 & H2 & H3 & H4); [lia | lia | intros j Hj; lia|].
  destruct (find_end_spec audio t c (S (Z.to_nat (len lib audio))) 0 Hc)
    as (k & K1 & K2 & K3 & K4); [lia | lia | intros j Hj; lia|].
  change (0 * c) with 0 in H1.
  replace (len lib audio - 0 * c) with (len lib audio) in K1 by lia.
  exists i, k. repeat split; assumption.
Qed.

Lemma trim_returns (audio : Audio) (t c : Z) :
  0 < c -> exists r, _trim_silence lib (enough lib audio) audio t c = Some r.
Proof.
  intros Hc. unfold _trim_silence.
  destruct (trim_loops_end audio t c Hc) as (i & k & -> & -> & _).
  destruct (_ <=? _); eexists; reflexivity.
Qed.

(** X25. With a positive chunk size [_trim_silence] returns: the audio
    itself, or a non-empty slice of it that leaves out whole chunks at
    the two ends, all of them quiet. *)
Theorem trim_cuts_only_quiet_chunks (audio : Audio) (t c : Z) :
  0 < c ->
  exists r,
    _trim_silence lib (enough lib audio) audio t c = Some r
    /\ (r = audio
        \/ exists i k,
             0 <= i /\ 0 <= k /\ i * c < len lib audio - k * c
             /\ r = slice lib audio (i * c) (len lib audio - k * c)
             /\ quiet_head lib audio t c i
             /\ quiet_tail lib audio t c k).
Proof.
  intros Hc. unfold _trim_silence.
  destruct (trim_loops_end audio t c Hc)
    as (i & k & -> & -> & Hi & Hk & H3 & K3 & _).
  destruct (len lib audio - k * c <=? i * c) eqn:E.
  - eexists. split; [reflexivity|]. left. reflexivity.
  - apply Z.leb_gt in E. eexists. split; [reflexivity|]. right.
    exists i, k. repeat split; try assumption; lia.
Qed.

(** X26. An audio longer than a chunk in which no chunk is loud is
    returned as it is, not trimmed to nothing. *)
Theorem quiet_audio_is_kept_whole (audio : Audio) (t c : Z) :
  0 < c -> c < len lib audio ->
  (forall a b, louder lib (slice lib audio a b) t = false) ->
  _trim_silence lib (enough lib audio) audio t c = Some audio.
Proof.
  intros Hc Hlen Hquiet. unfold _trim_silence.
  destruct (trim_loops_end audio t c Hc)
    as (i & k & -> & -> & Hi0 & Hk0 & _ & _ & H4 & K4).
  assert (Hi : len lib audio - c <= i * c).
  { destruct (Z.lt_ge_cases (i * c) (len lib audio - c)) as [L|L]; [|lia].
    specialize (H4 L). rewrite Hquiet in H4. discriminate. }
  assert (Hk : len lib audio - k * c <= c).
  { destruct (Z.lt_ge_cases c (len lib audio - k * c)) as [L|L]; [|lia].
    specialize (K4 L). rewrite Hquiet in K4. discriminate. }
  assert (1 <= i) by nia.
  replace (len lib audio - k * c <=? i * c) with true
    by (symmetry; apply Z.leb_le; nia).
  reflexivity.
Qed.

(** *** Post-processing the files of a run *)

Lemma postprocess_segment_ends (audio_path : Path) :
  exists r, postprocess_segment lib audio_path = Some r.
Proof.
  unfold postprocess_segment.
  destruct (from_file lib audio_path) as [e|audio]; [eexists; reflexivity|].
  destruct (normalize lib audio) as [e|audio']; [eexists; reflexivity|].
  destruct (trim_returns audio' silence_thresh_default chunk_size_default
              eq_refl) as [r ->].
  eexists. reflexivity.
Qed.

Lemma postprocess_from_ends (audio_paths : list Path) (acc : list Audio) :
  exists r, postprocess_from lib audio_paths acc = Some r.
Proof.
  revert acc. induction audio_paths as [|path rest IH]; intros acc;
    cbn [postprocess_from]; [eexists; reflexivity|].
  destruct (postprocess_segment_ends path) as [[e|seg] ->];
    [eexists; reflexivity | apply IH].
Qed.

Lemma postprocess_from_returns (audio_paths : list Path)
    (acc processed : list Audio) :
  postprocess_from lib audio_paths acc = Some (inr processed) ->
  exists new,
    processed = acc ++ new
    /\ Forall2
         (fun path audio => postprocess_segment lib path = Some (inr audio))
         audio_paths new.
Proof.
  revert acc. induction audio_paths as [|path rest IH]; intros acc;
    cbn [postprocess_from].
  - intros [= <-]. exists []. rewrite app_nil_r. split; constructor.
  - destruct (postprocess_segment lib path) as [[e|seg]|] eqn:E;
      try discriminate.
    intros H. apply IH in H. destruct H as (new & -> & H).
    exists (seg :: new). rewrite <- app_assoc. split; [reflexivity|].
    constructor; assumption.
Qed.

End WithAudio.

Lemma flags_all_quiet (n : nat) (a b t : Z) :
  louder flags (slice flags (repeat false n) a b) t = false.
Proof.
  cbn [louder slice flags]. unfold flags_slice.
  assert (H : Forall (fun x => x = false) (repeat false n))
    by (induction n; constructor; auto).
  apply (Forall_drop _ (Z.to_nat a)) in H.
  apply (Forall_take _
           (Z.to_nat (Z.min b (Z.of_nat (length (repeat false n))))
            - Z.to_nat a))
    in H.
  induction H as [|x l Hx Hl IH]; [reflexivity|].
  cbn [existsb]. rewrite Hx. exact IH.
Qed.

Lemma trim_cuts_only_quiet_chunks_witness :
  let audio := repeat false 100 ++ repeat true 30 ++ repeat false 60 in
  exists r,
    _trim_silence flags (enough flags audio) audio silence_thresh_default
      chunk_size_default = Some r
    /\ (r = audio
        \/ exists i k,
             0 <= i /\ 0 <= k
             /\ i * chunk_size_default
                < len flags audio - k * chunk_size_default
             /\ r = slice flags audio (i * chunk_size_default)
                      (len flags audio - k * chunk_size_default)
             /\ quiet_head flags audio silence_thresh_default
                  chunk_size_default i
             /\ quiet_tail flags audio silence_thresh_default
                  chunk_size_default k).
Proof.
  cbv zeta.
  apply (trim_cuts_only_quiet_chunks flags
           (repeat false 100 ++ repeat true 30 ++ repeat false 60)
           silence_thresh_default chunk_size_default).
  reflexivity.
Defined.

Lemma quiet_audio_is_kept_whole_witness :
  _trim_silence flags (enough flags (repeat false 120)) (repeat false 120)
    silence_thresh_default chunk_size_default
  = Some (repeat false 120).
Proof.
  apply (quiet_audio_is_kept_whole flags (repeat false 120)
           silence_thresh_default chunk_size_default).
  - reflexivity.
  - reflexivity.
  - intros a b. apply flags_all_quiet.
Defined.

(** An audio of 100 quiet, 30 loud and 60 quiet milliseconds loses the
    first two chunks and the last chunk. *)
Example trim_example :
  let audio := repeat false 100 ++ repeat true 30 ++ repeat false 60 in
  _trim_silence flags (enough flags audio) audio silence_thresh_default
    chunk_size_default
  = Some (repeat true 30 ++ repeat false 10).
Proof. vm_compute. reflexivity. Qed.

End PostprocessSpec.

(** ** From the segments to the podcast *)

Module RoutesSpec.
Import PyStr Data VoiceConfig Engine Postprocess Assembler AssemblerSpec
  EngineSpec PostprocessSpec.

(** X27. In the audio pipeline of the routes every segment reaches the
    podcast.  When [synthesize_all] and [postprocess_all] return,
    [postprocess_all] ends with one audio for every segment, the
    post-processed file of that segment, and [assemble_podcast] puts
    these audios into the podcast in the order of the segments, between
    the intro and the outro (each when it was loaded and is not a clip
    of 0 ms): its [zip] cuts nothing off. *)
Theorem every_segment_reaches_the_podcast
    {Model Audio : Type} (sys : System Model) (lib : Pydub Audio)
    (intro outro : option Audio) (setting : Z)
    (segments : list SpeakerSegment) (job_id : str)
    (st st' : State Model) (audio_paths : list Path) (run_dir : Path)
    (processed : list Audio) :
  synthesize_all sys segments None true (Some job_id) st
  = (st', inr (audio_paths, run_dir)) ->
  postprocess_all lib audio_paths = Some (inr processed) ->
  Forall2
    (fun segment audio =>
       postprocess_segment lib (joinpath run_dir (segment_file_name segment))
       = Some (inr audio))
    segments processed
  /\ exists podcast,
       assemble_podcast Audio (len lib) intro outro setting processed
         segments None
       = Returns podcast
       /\ clips_of Audio podcast
          = option_list (audible Audio (len lib) intro)
            ++ processed
            ++ option_list (audible Audio (len lib) outro).
Proof.
  intros Hs Hp. apply synthesize_all_returns in Hs.
  destruct Hs as (_ & -> & _).
  apply postprocess_from_returns in Hp. destruct Hp as (new & -> & Hp).
  cbn [app]. apply Forall2_fmap_l in Hp.
  split; [exact Hp|].
  eexists. split; [apply assemble_podcast_appended|].
  unfold around. rewrite !clips_of_app, clips_of_appended.
  rewrite (Forall2_length _ _ _ Hp), firstn_all.
  destruct (audible Audio (len lib) intro), (audible Audio (len lib) outro);
    reflexivity.
Qed.

Lemma every_segment_reaches_the_podcast_witness :
  Forall2
    (fun segment audio =>
       postprocess_segment flags
         (joinpath
            [chars "output"; chars "audio"; chars "segments"; chars "job"]
            (segment_file_name segment))
       = Some (inr audio))
    [turn_a; turn_b] [repeat false 500; repeat false 500]
  /\ exists podcast,
       assemble_podcast (list bool) (len flags) None None 400
         [repeat false 500; repeat false 500] [turn_a; turn_b] None
       = Returns podcast
       /\ clips_of (list bool) podcast
          = option_list (audible (list bool) (len flags) None)
            ++ [repeat false 500; repeat false 500]
            ++ option_list (audible (list bool) (len flags) None).
Proof.
  eapply (every_segment_reaches_the_podcast ready_system flags None None 400
            [turn_a; turn_b] (chars "job") (at_import unit None)).
  - vm_compute. reflexivity.
  - vm_compute. reflexivity.
Defined.

End RoutesSpec.

(** ** The fallback sentence splitter *)

Module ParserSpec.
Import PyStr PyStrFacts Parser.

(** The sentences of the fallback test in [tests/test_ingestion.py]. *)
Example regex_sentence_split_example :
  _regex_sentence_split
    (chars "Hello world. This is a test! does it work? Yes.  It does.")
  = [chars "Hello world."; chars "This is a test! does it work?";
     chars "Yes."; chars "It does."].
Proof. vm_compute. reflexivity. Qed.

Lemma upper_not_space (c : ascii) : is_upper c = true -> is_space c = false.
Proof.
  intros H. apply word_not_space. unfold is_word.
  unfold is_upper in H. rewrite H. rewrite orb_true_r. reflexivity.
Qed.

Lemma ink_of_capitals (s : str) (a : bool) (k : nat) :
  forallb is_space (take k s) = true ->
  ink_of (concat (split_capitals_from a k s)) = ink_of s.
Proof.
  revert a k. induction s as [|c s IH]; intros a k Hk; [reflexivity|].
  cbn [split_capitals_from]. destruct k as [|k].
  - destruct (is_space c) eqn:Ec; cbn [andb].
    + assert (Hplain : forall b,
                ink_of (concat (cons_head c (split_capitals_from b 0 s)))
                = ink_of (c :: s)).
      { intros b. rewrite concat_cons_head, !(ink_of_space c) by exact Ec.
        apply IH. reflexivity. }
      destruct a; [|apply Hplain].
      rewrite (span_space_cons c s Ec).
      pose proof (span_eq is_space s _ _ (surjective_pairing _)) as Es.
      pose proof (span_all is_space s _ _ (surjective_pairing _)) as Ha.
      destruct (snd (span is_space s)) as [|d r]; [apply Hplain|].
      destruct (is_upper d); [|apply Hplain].
      replace (length (c :: fst (span is_space s)) - 1)%nat
        with (length (fst (span is_space s))) by (cbn [length]; lia).
      cbn [concat app].
      rewrite (ink_of_space c) by exact Ec.
      apply IH. remember (fst (span is_space s)) as gap eqn:Eg.
      clear Eg. rewrite Es, take_app_length. exact Ha.
    + rewrite concat_cons_head, !(ink_of_ink c) by exact Ec.
      f_equal. apply IH. reflexivity.
  - cbn [take forallb] in Hk. apply andb_true_iff in Hk.
    destruct Hk as [Hc Hk].
    rewrite (ink_of_space c) by exact Hc. apply IH. exact Hk.
Qed.

Lemma ink_of_kept (l : list str) :
  ink_of (concat (map strip (filter (fun s => truthy (strip s) = true) l)))
  = ink_of (concat l).
Proof.
  induction l as [|x l IH]; [reflexivity|].
  rewrite filter_cons. cbn [concat]. rewrite ink_of_app.
  destruct (decide (truthy (strip x) = true)) as [H|H].
  - cbn [map concat]. rewrite ink_of_app, ink_of_strip, IH. reflexivity.
  - apply not_true_is_false in H. rewrite (strip_no_ink _ H), IH.
    reflexivity.
Qed.

(** X28. The fallback sentence splitter loses or moves no character but
    whitespace. *)
Theorem sentence_split_keeps_every_character (text : str) :
  ink_of (concat (_regex_sentence_split text)) = ink_of text.
Proof.
  unfold _regex_sentence_split. rewrite ink_of_kept.
  apply ink_of_capitals. reflexivity.
Qed.

Lemma capitals_pieces (s : str) (a : bool) (k : nat) :
  Forall (fun p => starts_upper p = true)
    (tail (split_capitals_from a k s))
  /\ (forall d r, drop k s = d :: r -> is_upper d = true ->
      match split_capitals_from a k s with
      | [] => False
      | p :: _ => starts_upper p = true
      end).
Proof.
  revert a k. induction s as [|c s IH]; intros a k.
  - cbn. split; [constructor|]. intros d r H. destruct k; discriminate.
  - cbn [split_capitals_from]. destruct k as [|k]; [|apply IH].
    assert (Hplain : forall b,
              Forall (fun p => starts_upper p = true)
                (tail (cons_head c (split_capitals_from b 0 s)))).
    { intros b. destruct (IH b 0%nat) as [H _].
      destruct (split_capitals_from b 0 s); [constructor | exact H]. }
    destruct (is_space c) eqn:Ec; cbn [andb].
    + assert (Hno : forall d r,
                drop 0 (c :: s) = d :: r -> is_upper d = true -> False).
      { intros d r [= <- _] Hd. apply upper_not_space in Hd. congruence. }
      assert (Hnone : forall l : list str,
                forall d r, drop 0 (c :: s) = d :: r -> is_upper d = true ->
                match l with [] => False | p :: _ => starts_upper p = true end).
      { intros l d r H1 H2. destruct (Hno d r H1 H2). }
      clear Hno.
      destruct a; [|split; [apply Hplain | apply Hnone]].
      rewrite (span_space_cons c s Ec).
      pose proof (span_eq is_space s _ _ (surjective_pairing _)) as Es.
      destruct (snd (span is_space s)) as [|d r] eqn:Er;
        [split; [apply Hplain | apply Hnone]|].
      destruct (is_upper d) eqn:Ed; [|split; [apply Hplain | apply Hnone]].
      split; [|intros d0 r0 X1 X2; exact (Hnone [[]] d0 r0 X1 X2)].
      replace (length (c :: fst (span is_space s)) - 1)%nat
        with (length (fst (span is_space s))) by (cbn [length]; lia).
      cbn [tail].
      destruct (IH false (length (fst (span is_space s)))) as [H1 H2].
      specialize (H2 d r).
      assert (Ed' : drop (length (fst (span is_space s))) s = d :: r).
      { remember (fst (span is_space s)) as gap eqn:Eg. clear Eg H2 H1.
        rewrite Es. apply drop_app_length. }
      specialize (H2 Ed' Ed).
      destruct (split_capitals_from false _ s) as [|p l];
        [contradiction|].
      constructor; [exact H2 | exact H1].
    + split; [apply Hplain|].
      intros d r [= <- _] Hd.
      destruct (split_capitals_from (is_terminal c) 0 s); exact Hd.
Qed.

Lemma strip_keeps_capital (p : str) :
  starts_upper p = true ->
  truthy (strip p) = true /\ starts_upper (strip p) = true.
Proof.
  destruct p as [|c p]; [discriminate|]. cbn [starts_upper]. intros Hc.
  pose proof (upper_not_space c Hc) as Hs.
  unfold strip, lstrip. cbn [drop_while]. rewrite Hs.
  destruct (rstrip_head c p Hs) as [r ->]. split; [reflexivity | exact Hc].
Qed.

Lemma kept_capitals (l : list str) :
  Forall (fun p => starts_upper p = true) l ->
  Forall (fun p => tight p /\ starts_upper p = true)
    (map strip (filter (fun s => truthy (strip s) = true) l)).
Proof.
  induction 1 as [|p l Hp Hl IH]; [constructor|].
  destruct (strip_keeps_capital p Hp) as [H1 H2].
  rewrite filter_cons. destruct (decide (truthy (strip p) = true));
    [|contradiction].
  cbn [map]. constructor; [|exact IH].
  split; [apply strip_tight, truthy_true, H1 | exact H2].
Qed.

(** X29. The sentences of the fallback splitter are not empty and are
    trimmed, and every sentence but the first begins with a capital
    letter. *)
Theorem sentences_begin_with_capitals (text : str) :
  Forall tight (_regex_sentence_split text)
  /\ Forall (fun p => starts_upper p = true)
       (tail (_regex_sentence_split text)).
Proof.
  unfold _regex_sentence_split. split.
  - induction (split_capitals_from false 0 text) as [|q l IH]; [constructor|].
    rewrite filter_cons.
    destruct (decide (truthy (strip q) = true)) as [Hq|Hq]; [|exact IH].
    cbn [map]. constructor; [|exact IH]. apply strip_tight, truthy_true, Hq.
  - destruct (capitals_pieces text false 0) as [H _].
    destruct (split_capitals_from false 0 text) as [|q l]; [constructor|].
    cbn [tail] in H. apply kept_capitals in H.
    rewrite filter_cons.
    destruct (decide (truthy (strip q) = true)).
    + cbn [map tail]. eapply Forall_impl; [exact H|]. cbn beta. tauto.
    + destruct (map strip _) as [|x rest]; [constructor|].
      inversion H as [|? ? _ Hrest]; subst. cbn [tail].
      eapply Forall_impl; [exact Hrest|]. cbn beta. tauto.
Qed.

End ParserSpec.
